(** * Warehouse robot planner: grid pathfinding and task planning

    A shallow embedding of [src/planner.ts] and the properties its
    specification states about it.

    Conventions of the embedding.
    - Grid coordinates, g-scores and costs are integers ([Z]); a JavaScript
      number that may also be [Infinity] is a [number].
    - A JavaScript [Map<string, _>] is a [gmap string _]; the keys are the
      very strings the source builds.
    - The object [itemLocations] is the list of its own entries in the order
      [Object.entries] enumerates them: the keys that are array indices
      first, in ascending order, then the other keys in order of creation.
      It is a plain object, so a write to the key [__proto__] that is not an
      own entry reaches the setter of [Object.prototype] and stores nothing.
    - A [while] loop whose termination is not evident takes a [fuel]; a run
      that needs more iterations than the fuel allows is [OutOfFuel], and a
      run that is [OutOfFuel] for every fuel is a run that never returns.
      A result returned with some fuel is returned with any larger fuel
      ([findPath_fuel_mono], [aStarPlanner_fuel_mono]). *)

From Stdlib Require Import ZArith List String Ascii Lia DecimalString DecimalZ.
From Stdlib Require Import Permutation.
From stdpp Require Import base gmap strings list fin_maps sorting.

Local Open Scope string_scope.
Local Open Scope Z_scope.
Local Open Scope list_scope.

(** ** JavaScript numbers and the [||] operator *)

Inductive number : Type :=
  | Num (z : Z)
  | Infinity.

Definition num_add (a b : number) : number :=
  match a, b with
  | Num a, Num b => Num (a + b)
  | _, _ => Infinity
  end.

(** [a < b] on numbers. *)
Definition num_lt (a b : number) : bool :=
  match a, b with
  | Num a, Num b => a <? b
  | Num _, Infinity => true
  | Infinity, _ => false
  end.

(** [a - b > 0]: the one test a sort comparator [(a, b) => a - b] is used
    for.  [Infinity - Infinity] is [NaN], which a sort treats as [0]. *)
Definition num_sub_pos (a b : number) : bool :=
  match a, b with
  | Num a, Num b => b <? a
  | Infinity, Num _ => true
  | _, Infinity => false
  end.

(** [v || d] where [v] is the result of [Map.get]: the right operand is
    taken when [v] is [undefined] and also when [v] is the falsy number [0]. *)
Definition or_else (v : option Z) (d : number) : number :=
  match v with
  | Some g => if g =? 0 then d else Num g
  | None => d
  end.

(** [v || 0]; always a finite number. *)
Definition or_zero (v : option Z) : Z :=
  match v with
  | Some g => if g =? 0 then 0 else g
  | None => 0
  end.

(** Truthiness of a string: only the empty string is falsy. *)
Definition truthy (s : string) : bool :=
  match s with
  | EmptyString => false
  | String _ _ => true
  end.

(** ** Runs bounded by fuel *)

Inductive outcome (A : Type) : Type :=
  | Returned (a : A)
  | OutOfFuel.
Arguments Returned {A} a.
Arguments OutOfFuel {A}.

#[global] Instance outcome_ret : MRet outcome := fun _ a => Returned a.
#[global] Instance outcome_bind : MBind outcome := fun _ _ f m =>
  match m with
  | Returned a => f a
  | OutOfFuel => OutOfFuel
  end.

(** A [for (const a of l)] loop whose body may not return. *)
Fixpoint for_of {S A : Type} (body : S -> A -> outcome S) (l : list A) (s : S)
  : outcome S :=
  match l with
  | [] => Returned s
  | a :: l' => s' ← body s a; for_of body l' s'
  end.

(** ** The priority queue *)

Module PriorityQueue.
Section Queue.
Context {T : Type}.

(** The field [elements]: pairs [{ item, priority }]. *)
Definition t : Type := list (T * number).

(** One step of a stable insertion sort under the comparator
    [(a, b) => a.priority - b.priority]: [e] stays in front of every
    element it does not compare greater than. *)
Fixpoint insert_sorted (e : T * number) (l : t) : t :=
  match l with
  | [] => [e]
  | e' :: l' =>
      if num_sub_pos (snd e) (snd e') then e' :: insert_sorted e l'
      else e :: l
  end.

(** [Array.prototype.sort] is stable, so with this comparator its result
    is the one of any stable sort. *)
Definition sort (l : t) : t := foldr insert_sorted [] l.

Definition enqueue (q : t) (item : T) (priority : number) : t :=
  sort (q ++ [(item, priority)]).

(** [shift()]: the first item and the remaining elements. *)
Definition dequeue (q : t) : option (T * t) :=
  match q with
  | [] => None
  | e :: q' => Some (fst e, q')
  end.

Definition isEmpty (q : t) : bool :=
  match q with
  | [] => true
  | _ => false
  end.
End Queue.
Arguments t : clear implicits.
End PriorityQueue.

(** ** Points *)

Record Point : Type := { x : Z; y : Z }.

#[global] Instance Point_eq_dec : EqDecision Point.
Proof. solve_decision. Defined.

Definition manhattanDistance (a b : Point) : Z :=
  Z.abs (x a - x b) + Z.abs (y a - y b).

(** Template-literal conversion of an integer: its decimal digits, with a
    leading [-] when negative (JavaScript switches to an exponent at 10^21,
    far beyond any grid). *)
Definition numToString (z : Z) : string :=
  NilZero.string_of_int (Z.to_int z).

(** [Number(s)] on the strings [numToString] produces. *)
Definition parseNumber (s : string) : Z :=
  match NilZero.int_of_string s with
  | Some d => Z.of_int d
  | None => 0
  end.

(** [s.split(',')]: [cur] is the piece being read. *)
Fixpoint split_go (cur : string) (s : string) : list string :=
  match s with
  | EmptyString => [String.rev cur]
  | String c s' =>
      if Ascii.eqb c ","%char then String.rev cur :: split_go "" s'
      else split_go (String c cur) s'
  end.

Definition split_comma (s : string) : list string := split_go "" s.

Definition pointToString (p : Point) : string :=
  numToString (x p) +:+ "," +:+ numToString (y p).

Definition stringToPoint (s : string) : Point :=
  match parseNumber <$> split_comma s with
  | a :: b :: _ => {| x := a; y := b |}
  | _ => {| x := 0; y := 0 |}
  end.


(** ** Grid pathfinding (A* for movement) *)

Module GridPathfinder.

(** The working memory of one [findPath] call. *)
Record PathSearch : Type := {
  openSet : PriorityQueue.t Point;
  cameFrom : gmap string string;
  gScore : gmap string Z
}.

(** The up-to-four neighbours of [current] that pass the filter: inside the
    grid and not in the obstacle set. *)
Definition neighbors (current : Point) (obstacleSet : gset string)
    (gridSize : Z) : list Point :=
  List.filter
    (fun p => (x p >=? 0) && (x p <? gridSize) && (y p >=? 0) && (y p <? gridSize)
              && negb (bool_decide (pointToString p ∈ obstacleSet)))
    [ {| x := x current + 1; y := y current |};
      {| x := x current - 1; y := y current |};
      {| x := x current; y := y current + 1 |};
      {| x := x current; y := y current - 1 |} ].

(** The body of [for (const neighbor of neighbors)]. *)
Definition relax (end_ current : Point) (st : PathSearch) (neighbor : Point)
    : PathSearch :=
  let tentativeGScore := or_zero (gScore st !! pointToString current) + 1 in
  if num_lt (Num tentativeGScore)
            (or_else (gScore st !! pointToString neighbor) Infinity)
  then {| cameFrom := <[pointToString neighbor := pointToString current]> (cameFrom st);
          gScore := <[pointToString neighbor := tentativeGScore]> (gScore st);
          openSet := PriorityQueue.enqueue (openSet st) neighbor
                       (Num (tentativeGScore + manhattanDistance neighbor end_)) |}
  else st.

(** The inner loop [while (cameFrom.has(currStr))]: it prepends the point of
    [currStr] and steps to its predecessor. *)
Fixpoint reconstruct (fuel : nat) (cameFrom : gmap string string)
    (currStr : string) (path : list Point) : outcome (list Point) :=
  match fuel with
  | O => OutOfFuel
  | S fuel' =>
      match cameFrom !! currStr with
      | Some prev => reconstruct fuel' cameFrom prev (stringToPoint currStr :: path)
      | None => Returned path
      end
  end.

(** The main loop [while (!openSet.isEmpty())]; [rfuel] is the fuel of the
    reconstruction loop. *)
Fixpoint search (fuel rfuel : nat) (start end_ : Point) (obstacleSet : gset string)
    (gridSize : Z) (st : PathSearch) : outcome (option (list Point)) :=
  match fuel with
  | O => OutOfFuel
  | S fuel' =>
      match PriorityQueue.dequeue (openSet st) with
      | None => Returned None
      | Some (current, rest) =>
          if (x current =? x end_) && (y current =? y end_) then
            path ← reconstruct rfuel (cameFrom st) (pointToString current) [];
            Returned (Some (start :: path))
          else
            search fuel' rfuel start end_ obstacleSet gridSize
              (foldl (relax end_ current)
                     {| openSet := rest; cameFrom := cameFrom st; gScore := gScore st |}
                     (neighbors current obstacleSet gridSize))
      end
  end.

Definition findPath_init (start end_ : Point) : PathSearch :=
  {| openSet := PriorityQueue.enqueue [] start (Num (manhattanDistance start end_));
     cameFrom := ∅;
     gScore := <[pointToString start := 0]> ∅ |}.

(** [findPath]: [Returned (Some path)] for a path, [Returned None] for
    [null]. *)
Definition findPath (fuel : nat) (start end_ : Point) (obstacles : list Point)
    (gridSize : Z) : outcome (option (list Point)) :=
  let obstacleSet : gset string := list_to_set (pointToString <$> obstacles) in
  search fuel fuel start end_ obstacleSet gridSize (findPath_init start end_).

End GridPathfinder.

(** ** High-level state planning *)

Record Shelf : Type := { id : string; items : list string; pos : Point }.

Record WorldState : Type := {
  robotPos : Point;
  holding : option string;
  itemLocations : list (string * string)
}.

(** An action is built in three shapes only, one per [type]; each carries
    the [params] of its shape and its [cost]. *)
Inductive Action : Type :=
  | MOVE (from to : Point) (path : list Point) (cost : Z)
  | PICK (item shelfId : string) (cost : Z)
  | DROP (item : string) (cost : Z).

Definition cost (a : Action) : Z :=
  match a with
  | MOVE _ _ _ c | PICK _ _ c | DROP _ c => c
  end.

Record PlannerResult : Type := { path : list Action; iterations : Z }.

(** [locs[item]], where it is a string: the value of the own entry.  [None]
    stands for a key without own entry, where the read gives [undefined] or,
    for a name [Object.prototype] defines, an inherited value that is no
    string; every read of the source is compared with a string. *)
Fixpoint get_loc (locs : list (string * string)) (item : string) : option string :=
  match locs with
  | [] => None
  | (k, v) :: locs' => if String.eqb k item then Some v else get_loc locs' item
  end.

(** An array index: the canonical decimal numeral of an integer from 0 to
    2^32 - 2.  Such keys are enumerated before all others, in ascending
    order. *)
Definition arrayIndex (s : string) : option Z :=
  match NilZero.int_of_string s with
  | Some d =>
      let z := Z.of_int d in
      if (0 <=? z) && (z <=? 4294967294) && String.eqb (numToString z) s
      then Some z else None
  | None => None
  end.

(** A write to an own entry: it keeps its place. *)
Fixpoint update_loc (locs : list (string * string)) (item loc : string)
    : list (string * string) :=
  match locs with
  | [] => []
  | (k, v) :: locs' =>
      if String.eqb k item then (k, loc) :: locs'
      else (k, v) :: update_loc locs' item loc
  end.

(** A new entry whose key is the array index [i]: it goes before the first
    entry whose key is a greater index or no index. *)
Fixpoint insert_index (i : Z) (e : string * string) (locs : list (string * string))
    : list (string * string) :=
  match locs with
  | [] => [e]
  | (k, v) :: locs' =>
      match arrayIndex k with
      | Some j => if j <? i then (k, v) :: insert_index i e locs' else e :: locs
      | None => e :: locs
      end
  end.

(** [locs[item] = loc] on a plain object: an own entry is overwritten in
    place; without one, the key [__proto__] stores nothing, an array index
    is entered among the indices, and any other key goes last. *)
Definition set_loc (locs : list (string * string)) (item loc : string)
    : list (string * string) :=
  match get_loc locs item with
  | Some _ => update_loc locs item loc
  | None =>
      if String.eqb item "__proto__" then locs
      else
        match arrayIndex item with
        | Some i => insert_index i (item, loc) locs
        | None => locs ++ [(item, loc)]
        end
  end.

(** [locs[item] === loc]. *)
Definition loc_is (locs : list (string * string)) (item loc : string) : bool :=
  match get_loc locs item with
  | Some v => String.eqb v loc
  | None => false
  end.

(** [l.includes(s)]. *)
Definition includes (l : list string) (s : string) : bool :=
  existsb (String.eqb s) l.

(** [l.join(',')]. *)
Fixpoint join_comma (l : list string) : string :=
  match l with
  | [] => ""
  | [s] => s
  | s :: l' => s +:+ "," +:+ join_comma l'
  end.

(** The test [if (state.holding)]: the held item when there is one and it
    is truthy. *)
Definition held (state : WorldState) : option string :=
  match holding state with
  | Some item => if truthy item then Some item else None
  | None => None
  end.

Definition isGoal (state : WorldState) (goalItems : list string) : bool :=
  forallb (fun item => loc_is (itemLocations state) item "collectionPoint") goalItems.

(** [JSON.parse(JSON.stringify(state))] rebuilds the same position, held
    item and entries in the same order; the clone is then updated. *)
Definition applyAction (state : WorldState) (action : Action) : WorldState :=
  match action with
  | MOVE _ to _ _ =>
      {| robotPos := to; holding := holding state;
         itemLocations := itemLocations state |}
  | PICK item _ _ =>
      {| robotPos := robotPos state; holding := Some item;
         itemLocations := set_loc (itemLocations state) item "robot" |}
  | DROP item _ =>
      {| robotPos := robotPos state; holding := None;
         itemLocations := set_loc (itemLocations state) item "collectionPoint" |}
  end.

Definition path_cost (p : list Point) : Z := Z.of_nat (length p) - 1.

Definition getSuccessors (fuel : nat) (state : WorldState) (goalItems : list string)
    (shelves : list Shelf) (collectionPoint : Point) (obstacles : list Point)
    (gridSize : Z) : outcome (list Action) :=
  let neededItems :=
    List.filter (fun item =>
                   negb (loc_is (itemLocations state) item "collectionPoint")
                   && negb (loc_is (itemLocations state) item "robot"))
                goalItems in
  match held state with
  | Some item =>
      p ← GridPathfinder.findPath fuel (robotPos state) collectionPoint obstacles gridSize;
      Returned
        match p with
        | Some p =>
            if Z.of_nat (length p) >? 1
            then [MOVE (robotPos state) collectionPoint p (path_cost p)]
            else [DROP item 1]
        | None => []
        end
  | None =>
      let currentShelf :=
        List.find (fun s => (x (pos s) =? x (robotPos state))
                            && (y (pos s) =? y (robotPos state))) shelves in
      let actions :=
        match currentShelf with
        | Some s =>
            match List.find (includes neededItems) (items s) with
            | Some itemToPick =>
                if truthy itemToPick then [PICK itemToPick (id s) 1] else []
            | None => []
            end
        | None => []
        end in
      let targetShelves :=
        List.filter (fun s => existsb (includes neededItems) (items s)) shelves in
      for_of
        (fun actions shelf =>
           p ← GridPathfinder.findPath fuel (robotPos state) (pos shelf) obstacles gridSize;
           Returned
             match p with
             | Some p =>
                 if Z.of_nat (length p) >? 1
                 then actions ++ [MOVE (robotPos state) (pos shelf) p (path_cost p)]
                 else actions
             | None => actions
             end)
        targetShelves actions
  end.

Definition heuristic (fuel : nat) (state : WorldState) (goalItems : list string)
    (collectionPoint : Point) (obstacles : list Point) (gridSize : Z)
    : outcome number :=
  let itemsToGet :=
    List.filter (fun item => negb (loc_is (itemLocations state) item "collectionPoint"))
                goalItems in
  let h := Num (Z.of_nat (length itemsToGet) * 20) in
  match held state with
  | Some _ =>
      p ← GridPathfinder.findPath fuel (robotPos state) collectionPoint obstacles gridSize;
      Returned (num_add h match p with
                          | Some p => Num (path_cost p)
                          | None => Infinity
                          end)
  | None => Returned h
  end.

(** The working memory of one [aStarPlanner] call. *)
Record PlanSearch : Type := {
  openSet : PriorityQueue.t (WorldState * list Action);
  gScore : gmap string Z;
  fScore : gmap string number
}.

(** The three [return] statements of [aStarPlanner]. *)
Inductive PlannerExit : Type :=
  | Found (result : PlannerResult)
  | TimedOut
  | NoPathFound.

(** The value each of them returns: a result or [null]. *)
Definition returned_value (e : PlannerExit) : option PlannerResult :=
  match e with
  | Found result => Some result
  | TimedOut => None
  | NoPathFound => None
  end.

(** What each of them has written with [console.error]. *)
Definition console_output (e : PlannerExit) : list string :=
  match e with
  | TimedOut => ["Planner timed out: max iterations reached."]
  | _ => []
  end.

Definition maxIterations : Z := 5000.

(** The outer search and the canonical key depend on the collation of the
    host, [String.prototype.localeCompare]; it is a parameter here. *)
Section Planner.
Variable localeCompare : string -> string -> Z.

(** One step of a stable insertion sort of entries under the comparator
    [([a], [b]) => a.localeCompare(b)]. *)
Fixpoint insert_entry (e : string * string) (l : list (string * string))
    : list (string * string) :=
  match l with
  | [] => [e]
  | e' :: l' =>
      if localeCompare (fst e) (fst e') >? 0 then e' :: insert_entry e l'
      else e :: l
  end.

Definition sort_entries (l : list (string * string)) : list (string * string) :=
  foldr insert_entry [] l.

Definition stateToString (state : WorldState) : string :=
  let items :=
    join_comma ((fun e => fst e +:+ ":" +:+ snd e) <$> sort_entries (itemLocations state)) in
  numToString (x (robotPos state)) +:+ "," +:+ numToString (y (robotPos state))
    +:+ "|" +:+ match holding state with Some item => item | None => "null" end
    +:+ "|" +:+ items.

(** The three statements under the test of the inner loop: record the
    improved g, record f = g + h, push the successor with its path. *)
Definition record_and_push (st : PlanSearch) (nextState : WorldState)
    (nextStateKey : string) (tentativeGScore : Z) (h : number)
    (newPath : list Action) : PlanSearch :=
  let f := num_add (Num tentativeGScore) h in
  {| gScore := <[nextStateKey := tentativeGScore]> (gScore st);
     fScore := <[nextStateKey := f]> (fScore st);
     openSet := PriorityQueue.enqueue (openSet st) (nextState, newPath) f |}.

(** The body of [for (const action of successors)]. *)
Definition expand (fuel : nat) (goalItems : list string) (collectionPoint : Point)
    (obstacles : list Point) (gridSize : Z)
    (currentState : WorldState) (currentPath : list Action) (currentStateKey : string)
    (st : PlanSearch) (action : Action) : outcome PlanSearch :=
  let nextState := applyAction currentState action in
  let nextStateKey := stateToString nextState in
  let tentativeGScore := or_zero (gScore st !! currentStateKey) + cost action in
  if num_lt (Num tentativeGScore) (or_else (gScore st !! nextStateKey) Infinity)
  then
    h ← heuristic fuel nextState goalItems collectionPoint obstacles gridSize;
    Returned (record_and_push st nextState nextStateKey tentativeGScore h
                (currentPath ++ [action]))
  else Returned st.

(** One turn of [while (!openSet.isEmpty())]: either the [return] taken, or
    the iteration count and the working memory the next turn starts from. *)
Definition plan_iteration (fuel : nat) (goalItems : list string) (shelves : list Shelf)
    (collectionPoint : Point) (obstacles : list Point) (gridSize : Z)
    (iterations : Z) (st : PlanSearch) : outcome (PlannerExit + Z * PlanSearch) :=
  if PriorityQueue.isEmpty (openSet st) then Returned (inl NoPathFound)
  else
    let iterations := iterations + 1 in
    if iterations >? maxIterations then Returned (inl TimedOut)
    else
      match PriorityQueue.dequeue (openSet st) with
      | None => Returned (inl NoPathFound)
      | Some ((currentState, currentPath), rest) =>
          let currentStateKey := stateToString currentState in
          if isGoal currentState goalItems
          then Returned (inl (Found {| path := currentPath; iterations := iterations |}))
          else
            successors ← getSuccessors fuel currentState goalItems shelves
                           collectionPoint obstacles gridSize;
            st' ← for_of (expand fuel goalItems collectionPoint obstacles gridSize
                            currentState currentPath currentStateKey)
                    successors
                    {| openSet := rest; gScore := gScore st; fScore := fScore st |};
            Returned (inr (iterations, st'))
      end.

(** The main loop; [n] bounds its turns and [fuel] the loops of each
    [findPath] call. *)
Fixpoint plan_loop (n fuel : nat) (goalItems : list string) (shelves : list Shelf)
    (collectionPoint : Point) (obstacles : list Point) (gridSize : Z)
    (iterations : Z) (st : PlanSearch) : outcome PlannerExit :=
  match n with
  | O => OutOfFuel
  | S n' =>
      r ← plan_iteration fuel goalItems shelves collectionPoint obstacles gridSize
            iterations st;
      match r with
      | inl e => Returned e
      | inr (iterations', st') =>
          plan_loop n' fuel goalItems shelves collectionPoint obstacles gridSize
            iterations' st'
      end
  end.

Definition aStarPlanner_init (fuel : nat) (initialState : WorldState)
    (goalItems : list string) (collectionPoint : Point) (obstacles : list Point)
    (gridSize : Z) : outcome PlanSearch :=
  let startStateKey := stateToString initialState in
  initialHeuristic ← heuristic fuel initialState goalItems collectionPoint obstacles gridSize;
  Returned {| gScore := <[startStateKey := 0]> ∅;
              fScore := <[startStateKey := initialHeuristic]> ∅;
              openSet := PriorityQueue.enqueue [] (initialState, []) initialHeuristic |}.

(** The run of [aStarPlanner] up to the [return] it leaves by.  The loop
    counts to [maxIterations], so [maxIterations + 1] iterations are all it
    can make. *)
Definition aStarPlanner_exit (fuel : nat) (initialState : WorldState)
    (goalItems : list string) (shelves : list Shelf) (collectionPoint : Point)
    (obstacles : list Point) (gridSize : Z) : outcome PlannerExit :=
  st ← aStarPlanner_init fuel initialState goalItems collectionPoint obstacles gridSize;
  plan_loop (S (Z.to_nat maxIterations)) fuel goalItems shelves collectionPoint
    obstacles gridSize 0 st.

(** [aStarPlanner]: [Returned (Some result)] for a plan, [Returned None] for
    [null]. *)
Definition aStarPlanner (fuel : nat) (initialState : WorldState)
    (goalItems : list string) (shelves : list Shelf) (collectionPoint : Point)
    (obstacles : list Point) (gridSize : Z) : outcome (option PlannerResult) :=
  e ← aStarPlanner_exit fuel initialState goalItems shelves collectionPoint
        obstacles gridSize;
  Returned (returned_value e).

End Planner.

(** ** Notions of the specification *)

(** The goal items still to be delivered, as the specification words them:
    those whose location-tag is not ['collectionPoint']. *)
Definition itemsToGet (state : WorldState) (goalItems : list string) : list string :=
  filter (fun item => get_loc (itemLocations state) item <> Some "collectionPoint")
         goalItems.

(** The number of items whose location-tag is ['robot']. *)
Definition robot_count (locs : list (string * string)) : nat :=
  length (filter (fun e => e.2 = "robot") locs).

(** The state invariant: no two items are at ['robot'], [holding] is
    non-null iff exactly one item is, and that item is the held one. *)
Definition state_invariant (state : WorldState) : Prop :=
  (robot_count (itemLocations state) <= 1)%nat
  /\ (holding state <> None <-> robot_count (itemLocations state) = 1%nat)
  /\ match holding state with
     | Some item => get_loc (itemLocations state) item = Some "robot"
     | None => True
     end.

(** A key a write stores under: any key but [__proto__], and [__proto__] too
    when it is an own entry already. *)
Definition storable (locs : list (string * string)) (item : string) : Prop :=
  item <> "__proto__" \/ is_Some (get_loc locs item).

#[global] Instance state_invariant_dec (state : WorldState) :
  Decision (state_invariant state).
Proof. unfold state_invariant. destruct (holding state); apply _. Defined.

(** The state a plan leads to. *)
Definition applyActions (state : WorldState) (plan : list Action) : WorldState :=
  foldl applyAction state plan.

(** Two points that differ by exactly one unit in exactly one coordinate. *)
Definition unit_step (a b : Point) : Prop :=
  (Z.abs (x a - x b) = 1 /\ y a = y b) \/ (x a = x b /\ Z.abs (y a - y b) = 1).

Definition in_bounds (gridSize : Z) (p : Point) : Prop :=
  0 <= x p < gridSize /\ 0 <= y p < gridSize.

(** A cell a path may step onto: inside the grid and not an obstacle. *)
Definition free (obstacles : list Point) (gridSize : Z) (p : Point) : Prop :=
  in_bounds gridSize p /\ p ∉ obstacles.

(** [a :: l] proceeds by unit steps, each onto a free cell; nothing is asked
    of [a] itself. *)
Fixpoint steps (obstacles : list Point) (gridSize : Z) (a : Point) (l : list Point)
    : Prop :=
  match l with
  | [] => True
  | b :: l' => unit_step a b /\ free obstacles gridSize b /\ steps obstacles gridSize b l'
  end.

(** ** Sample inputs *)

(** A collation to run the planner with: the order of code points. *)
Definition codePointCompare (a b : string) : Z :=
  match String.compare a b with
  | Lt => -1
  | Eq => 0
  | Gt => 1
  end.

(** A collation that, like the default one of the host, ignores control
    characters: the strings are compared by code points once the characters
    below U+0020 are left out.  Two identifiers that differ in such
    characters only compare equal. *)
Fixpoint dropControls (s : string) : string :=
  match s with
  | EmptyString => EmptyString
  | String c s' =>
      if (nat_of_ascii c <? 32)%nat then dropControls s'
      else String c (dropControls s')
  end.

Definition controlBlindCompare (a b : string) : Z :=
  codePointCompare (dropControls a) (dropControls b).

Definition pt (a b : Z) : Point := {| x := a; y := b |}.

(** The identifier ["a"] followed by the control character U+0001. *)
Definition aWithControl : string := String "a" (String "001" EmptyString).

(** The same two entries, entered in the two orders. *)
Definition tiedFirst : WorldState :=
  {| robotPos := pt 0 0; holding := None;
     itemLocations := [("a", "S1"); (aWithControl, "S2")] |}.

Definition tiedSecond : WorldState :=
  {| robotPos := pt 0 0; holding := None;
     itemLocations := [(aWithControl, "S2"); ("a", "S1")] |}.

(** A state without entries, and a shelf stocking an item named
    [__proto__]. *)
Definition protoShelf : list Shelf :=
  [ {| id := "S1"; items := ["__proto__"]; pos := pt 0 0 |} ].

(** Two adjacent shelves on a 2 x 2 grid, the robot standing on the first. *)
Definition twoShelves : list Shelf :=
  [ {| id := "S1"; items := ["ItemA"]; pos := pt 0 0 |};
    {| id := "S2"; items := ["ItemB"]; pos := pt 1 0 |} ].

Definition twoShelvesStart : WorldState :=
  {| robotPos := pt 0 0; holding := None;
     itemLocations := [("ItemA", "S1"); ("ItemB", "S2")] |}.

Definition emptyHanded : WorldState :=
  {| robotPos := pt 0 0; holding := None; itemLocations := [] |}.

(** A state whose held item is the empty string. *)
Definition holdingEmptyName : WorldState :=
  {| robotPos := pt 0 0; holding := Some "";
     itemLocations := [("ItemA", "S1"); ("ItemB", "S2")] |}.

(** A state that holds an item named by the empty string, the one item at
    ['robot']. *)
Definition holdingEmptyNameAtRobot : WorldState :=
  {| robotPos := pt 0 0; holding := Some "";
     itemLocations := [("", "robot"); ("ItemA", "S1")] |}.

(** Item identifiers [pre10], [pre11], ... *)
Definition itemNames (pre : string) (n : nat) : list string :=
  (fun i => pre +:+ numToString (Z.of_nat i)) <$> seq 10 n.

(** 2500 items to fetch. *)
Definition manyNames : list string := itemNames "i" 2500.

(** One shelf on the robot's cell, which is the collection point too. *)
Definition oneShelf (names : list string) : list Shelf :=
  [ {| id := "S"; items := names; pos := pt 0 0 |} ].

(** The predecessor links [findPath] has recorded on an open 3 x 3 grid,
    from (0,0) towards (2,0), when it dequeues the goal. *)
Definition loopedLinks : gmap string string :=
  list_to_map [("1,0", "0,0"); ("0,1", "0,0"); ("2,0", "1,0"); ("0,0", "1,0");
               ("1,1", "1,0")].

(** ** Invariants of the outer search *)

(** What [getSuccessors] produces: a Drop is of the held item; a Pick is
    made with an empty hand, of an item that is not at ['robot']. *)
Definition produced_for (state : WorldState) (action : Action) : Prop :=
  match action with
  | MOVE _ _ _ _ => True
  | PICK item _ _ =>
      held state = None /\ loc_is (itemLocations state) item "robot" = false
  | DROP item _ => held state = Some item
  end.

(** Every node of the frontier pairs a state with a path that leads to it
    from [initialState]. *)
Definition frontier_sound (initialState : WorldState) (st : PlanSearch) : Prop :=
  Forall (fun e => e.1.1 = applyActions initialState e.1.2) (openSet st).

(** The order a collation puts two entries in: by item identifier. *)
Definition entry_le (localeCompare : string -> string -> Z)
    (a b : string * string) : Prop :=
  localeCompare a.1 b.1 <= 0.

(** The entries of the items delivered so far. *)
Definition delivered (done : list string) : list (string * string) :=
  (fun name => (name, "collectionPoint")) <$> done.

(** The states such a run goes through: the hand empty with [done]
    delivered, and [name] in the hand on top of that. *)
Definition deliveredState (done : list string) : WorldState :=
  {| robotPos := pt 0 0; holding := None; itemLocations := delivered done |}.

Definition carryingState (done : list string) (name : string) : WorldState :=
  {| robotPos := pt 0 0; holding := Some name;
     itemLocations := delivered done ++ [(name, "robot")] |}.

(** The length of the comma-joined serialization of the entries, plus one
    when there are entries. *)
Definition entries_weight (l : list (string * string)) : nat :=
  foldr (fun e acc => (String.length e.1 + String.length e.2 + 2 + acc)%nat) 0%nat l.

(** No recorded key is longer than the key of [state]. *)
Definition keys_within (localeCompare : string -> string -> Z)
    (g : gmap string Z) (state : WorldState) : Prop :=
  forall k, is_Some (g !! k) ->
    (String.length k <= String.length (stateToString localeCompare state))%nat.

(** ** Invariants of the grid search *)

(** A string without a comma. *)
Fixpoint comma_free (s : string) : bool :=
  match s with
  | EmptyString => true
  | String c s' => negb (Ascii.eqb c ","%char) && comma_free s'
  end.

(** A point the search has reached: the start, or a point with a
    predecessor. *)
Definition reached (start : Point) (cameFrom : gmap string string) (p : Point) : Prop :=
  p = start \/ is_Some (cameFrom !! pointToString p).

(** Every link of [cameFrom] is a unit step from a reached point onto a free
    cell. *)
Definition links_ok (start : Point) (obstacles : list Point) (gridSize : Z)
    (cameFrom : gmap string string) : Prop :=
  forall k v, cameFrom !! k = Some v ->
    exists p c, k = pointToString p /\ v = pointToString c
                /\ unit_step c p /\ free obstacles gridSize p
                /\ reached start cameFrom c.

Definition frontier_reached (start : Point) (st : GridPathfinder.PathSearch) : Prop :=
  forall e, In e (GridPathfinder.openSet st) ->
    reached start (GridPathfinder.cameFrom st) e.1.

(** While the start has no predecessor, only the start has been
    expanded: its g-score is 0, it is the predecessor of every link, and
    the frontier holds the start or cells one step from it. *)
Definition only_start_expanded (start : Point) (st : GridPathfinder.PathSearch)
    : Prop :=
  GridPathfinder.gScore st !! pointToString start = Some 0
  /\ (forall k v, GridPathfinder.cameFrom st !! k = Some v -> v = pointToString start)
  /\ (forall e, In e (GridPathfinder.openSet st) ->
        e.1 = start \/ unit_step e.1 start).

Definition start_linked (start : Point) (st : GridPathfinder.PathSearch) : Prop :=
  is_Some (GridPathfinder.cameFrom st !! pointToString start).

(** [a <= b] on numbers, as the sort of the queue sees it: [a - b] is not
    positive. *)
Definition num_le (a b : number) : Prop := num_sub_pos a b = false.

(** The order of two queue elements. *)
Definition by_priority {T : Type} (a b : T * number) : Prop := num_le a.2 b.2.

(** A point whose expansion is reflected in the g-scores: it is not the
    goal, and each of its neighbours has a g-score of at most one more. *)
Definition settled (end_ : Point) (obstacleSet : gset string) (gridSize : Z)
    (st : GridPathfinder.PathSearch) (p : Point) (g : Z) : Prop :=
  p <> end_
  /\ forall n, In n (GridPathfinder.neighbors p obstacleSet gridSize) ->
       exists gn, GridPathfinder.gScore st !! pointToString n = Some gn /\ gn <= g + 1.

(** The bookkeeping of the search while the start has no predecessor;
    [skip] is the point being expanded, if any. *)
Record scores_ok (start end_ : Point) (obstacleSet : gset string) (gridSize : Z)
    (skip : option Point) (st : GridPathfinder.PathSearch) : Prop := {
  so_start : GridPathfinder.gScore st !! pointToString start = Some 0;
  so_pos : forall p g,
    GridPathfinder.gScore st !! pointToString p = Some g -> p <> start -> 1 <= g;
  so_front : forall e, In e (GridPathfinder.openSet st) ->
    exists g, GridPathfinder.gScore st !! pointToString e.1 = Some g
              /\ num_le (Num (g + manhattanDistance e.1 end_)) e.2;
  so_live : forall p g,
    GridPathfinder.gScore st !! pointToString p = Some g -> Some p <> skip ->
    In (p, Num (g + manhattanDistance p end_)) (GridPathfinder.openSet st)
    \/ settled end_ obstacleSet gridSize st p g;
  so_links : forall p v,
    GridPathfinder.cameFrom st !! pointToString p = Some v ->
    exists c gp gc, v = pointToString c
                    /\ GridPathfinder.gScore st !! pointToString p = Some gp
                    /\ GridPathfinder.gScore st !! pointToString c = Some gc
                    /\ gc + 1 <= gp;
  so_sorted : StronglySorted by_priority (GridPathfinder.openSet st)
}.

(** The point being expanded and the neighbours relaxed so far. *)
Definition expanding (current : Point) (done : list Point)
    (st : GridPathfinder.PathSearch) : Prop :=
  exists gc, GridPathfinder.gScore st !! pointToString current = Some gc
             /\ forall n, In n done ->
                  exists gn, GridPathfinder.gScore st !! pointToString n = Some gn
                             /\ gn <= gc + 1.

(** ** Reachability on the grid and the coverage of the search *)

(** [b] can be walked to from [a] by unit steps onto free cells. *)
Definition connected (obstacles : list Point) (gridSize : Z) (a b : Point) : Prop :=
  exists w, steps obstacles gridSize a w /\ last (a :: w) = Some b.

(** A point with a g-score. *)
Definition seen (st : GridPathfinder.PathSearch) (p : Point) : Prop :=
  is_Some (GridPathfinder.gScore st !! pointToString p).

(** A point that has been expanded: it is not the goal, and each of its
    neighbours has a g-score. *)
Definition expanded (end_ : Point) (obstacleSet : gset string) (gridSize : Z)
    (st : GridPathfinder.PathSearch) (p : Point) : Prop :=
  p <> end_
  /\ forall n, In n (GridPathfinder.neighbors p obstacleSet gridSize) -> seen st n.

(** Every point with a g-score waits in the frontier or has been expanded;
    [skip] is the point being expanded, if any. *)
Definition frontier_complete (end_ : Point) (obstacleSet : gset string)
    (gridSize : Z) (skip : option Point) (st : GridPathfinder.PathSearch) : Prop :=
  forall p, seen st p ->
    Some p = skip
    \/ (exists priority, In (p, priority) (GridPathfinder.openSet st))
    \/ expanded end_ obstacleSet gridSize st p.

(** Every point of the frontier can be walked to from the start. *)
Definition frontier_connected (start : Point) (obstacles : list Point)
    (gridSize : Z) (st : GridPathfinder.PathSearch) : Prop :=
  forall e, In e (GridPathfinder.openSet st) -> connected obstacles gridSize start e.1.

(** ** A measure of the work left to the search *)

(** The cells of the grid. *)
Definition grid_cells (gridSize : Z) : list Point :=
  flat_map (fun i => (fun j => {| x := i; y := j |}) <$> seqZ 0 gridSize)
           (seqZ 0 gridSize).

Definition sum_over (f : Point -> nat) (cells : list Point) : nat :=
  foldr (fun c acc => (f c + acc)%nat) 0%nat cells.

(** A cell whose g-score reads as [Infinity]: missing, or the falsy 0. *)
Definition unscored (g : gmap string Z) (c : Point) : nat :=
  match or_else (g !! pointToString c) Infinity with
  | Infinity => 1
  | Num _ => 0
  end.

Definition score (g : gmap string Z) (c : Point) : nat :=
  Z.to_nat (or_zero (g !! pointToString c)).

Definition gscores_nonneg (st : GridPathfinder.PathSearch) : Prop :=
  forall k g, GridPathfinder.gScore st !! k = Some g -> 0 <= g.

(** The state the main loop leaves by: the frontier is empty, or the goal is
    at its head. *)
Definition at_exit (end_ : Point) (st : GridPathfinder.PathSearch) : Prop :=
  match GridPathfinder.openSet st with
  | [] => True
  | e :: _ => e.1 = end_
  end.

(** The bookkeeping while the start is expanded: the start keeps its
    g-score 0 and has no predecessor; every other point with a g-score has
    the g-score 1, the start as its predecessor and an entry in the
    frontier; the frontier is ordered. *)
Record first_turn (start end_ : Point) (st : GridPathfinder.PathSearch) : Prop := {
  ft_start : GridPathfinder.gScore st !! pointToString start = Some 0;
  ft_unlinked : GridPathfinder.cameFrom st !! pointToString start = None;
  ft_scored : forall p g,
    GridPathfinder.gScore st !! pointToString p = Some g -> p <> start ->
    g = 1
    /\ GridPathfinder.cameFrom st !! pointToString p = Some (pointToString start)
    /\ In (p, Num (1 + manhattanDistance p end_)) (GridPathfinder.openSet st);
  ft_front : forall e, In e (GridPathfinder.openSet st) ->
    e.2 = Num (1 + manhattanDistance e.1 end_);
  ft_sorted : StronglySorted by_priority (GridPathfinder.openSet st)
}.

(** ** What the actions of a plan need *)

(** A goal item still to be picked: neither delivered nor in the hand. *)
Definition needed (state : WorldState) (goalItems : list string) (item : string)
    : Prop :=
  In item goalItems
  /\ loc_is (itemLocations state) item "collectionPoint" = false
  /\ loc_is (itemLocations state) item "robot" = false.

(** The conditions under which [getSuccessors] builds each action.
    - A Move starts on the robot's cell and leads elsewhere, along the path
      [findPath] returns, a walk by unit steps onto free cells whose number
      of steps is the cost; with an item in the hand it leads to the
      collection point, and with an empty hand to a shelf that stocks a
      needed item.
    - A Pick is made with an empty hand, on the cell of a shelf that stocks
      the item, which is needed; the shelf is the one named.
    - A Drop is of the held item, on the collection point. *)
Definition applicable (goalItems : list string) (shelves : list Shelf)
    (collectionPoint : Point) (obstacles : list Point) (gridSize : Z)
    (state : WorldState) (action : Action) : Prop :=
  match action with
  | MOVE from to p c =>
      from = robotPos state /\ to <> from
      /\ c = path_cost p /\ 1 <= c
      /\ (exists fuel,
            GridPathfinder.findPath fuel from to obstacles gridSize = Returned (Some p))
      /\ (exists rest, p = from :: rest /\ steps obstacles gridSize from rest
                       /\ last p = Some to)
      /\ match held state with
         | Some _ => to = collectionPoint
         | None => exists shelf item,
             In shelf shelves /\ pos shelf = to /\ In item (items shelf)
             /\ needed state goalItems item
         end
  | PICK item shelfId c =>
      c = 1 /\ held state = None /\ item <> "" /\ needed state goalItems item
      /\ exists shelf, In shelf shelves /\ pos shelf = robotPos state
                       /\ id shelf = shelfId /\ In item (items shelf)
  | DROP item c =>
      c = 1 /\ held state = Some item /\ robotPos state = collectionPoint
  end.

(** Every action of the plan is applicable in the state the actions before
    it lead to. *)
Fixpoint applicable_plan (goalItems : list string) (shelves : list Shelf)
    (collectionPoint : Point) (obstacles : list Point) (gridSize : Z)
    (state : WorldState) (plan : list Action) : Prop :=
  match plan with
  | [] => True
  | action :: plan' =>
      applicable goalItems shelves collectionPoint obstacles gridSize state action
      /\ applicable_plan goalItems shelves collectionPoint obstacles gridSize
           (applyAction state action) plan'
  end.

(** A string without the character [c]. *)
Fixpoint lacks (c : ascii) (s : string) : bool :=
  match s with
  | EmptyString => true
  | String d s' => negb (Ascii.eqb d c) && lacks c s'
  end.

(** The plan that fetches [names] one by one from the shelf ["S"]. *)
Definition fetch_all (names : list string) : list Action :=
  flat_map (fun name => [PICK name "S" 1; DROP name 1]) names.

(** The items a plan picks, in order. *)
Definition picked (plan : list Action) : list string :=
  flat_map (fun a => match a with PICK item _ _ => [item] | _ => [] end) plan.

(** An item in the hand or delivered. *)
Definition taken (state : WorldState) (item : string) : Prop :=
  get_loc (itemLocations state) item = Some "robot"
  \/ get_loc (itemLocations state) item = Some "collectionPoint".

(** A Move of one unit step: its path is its two ends, and its cost is 1. *)
Definition single_step (action : Action) : Prop :=
  match action with
  | MOVE from to p c => unit_step from to /\ p = [from; to] /\ c = 1
  | _ => True
  end.

(** The write an action makes to [itemLocations]: the item and its new
    location-tag. *)
Definition written (action : Action) : option (string * string) :=
  match action with
  | MOVE _ _ _ _ => None
  | PICK item _ _ => Some (item, "robot")
  | DROP item _ => Some (item, "collectionPoint")
  end.

(** * The application

    The logic of [src/App.tsx] around the planner: the layout of the
    warehouse it is run on, the initial world state, the selection of items,
    the call of the planner, the replay of the plan and the metrics shown.
    What a [useMemo] or an effect computes from its dependencies is a
    function of them. *)

Module App.

Definition GRID_SIZE : Z := 8.

Definition shelfLayout : list Shelf :=
  [ {| id := "S1"; items := ["ItemA"]; pos := {| x := 1; y := 4 |} |};
    {| id := "S2"; items := ["ItemB"]; pos := {| x := 4; y := 1 |} |};
    {| id := "S3"; items := ["ItemC"]; pos := {| x := 6; y := 5 |} |};
    {| id := "S4"; items := ["ItemD"]; pos := {| x := 2; y := 7 |} |} ].

Definition obstacles : list Point :=
  [ {| x := 3; y := 3 |}; {| x := 4; y := 3 |}; {| x := 5; y := 3 |};
    {| x := 3; y := 4 |}; {| x := 3; y := 5 |} ].

Definition robotStart : Point := {| x := 0; y := 0 |}.
Definition collectionPoint : Point := {| x := 0; y := 0 |}.

(** [Array.from(new Set(shelfLayout.flatMap(s => s.items)))]: the items of
    the shelves, each at its first occurrence. *)
Definition allItems (shelfLayout : list Shelf) : list string :=
  foldl (fun seen item => if includes seen item then seen else seen ++ [item])
        [] (flat_map items shelfLayout).

(** The initial selection. *)
Definition itemsToPick : list string := ["ItemA"; "ItemC"].

(** [initialWorldState]: the two nested [forEach] write, for every item of
    every shelf in turn, the identifier of the shelf. *)
Definition initialWorldState (shelfLayout : list Shelf) (robotStart : Point)
    : WorldState :=
  let itemLocations :=
    foldl (fun locs shelf =>
             foldl (fun locs item => set_loc locs item (id shelf)) locs (items shelf))
          [] shelfLayout in
  {| robotPos := robotStart; holding := None; itemLocations := itemLocations |}.

(** The body of the loop of the simulation effect: a copy of the state,
    updated by the [switch]. *)
Definition simulationStepState (state : WorldState) (action : Action) : WorldState :=
  match action with
  | MOVE _ to _ _ =>
      {| robotPos := to; holding := holding state;
         itemLocations := itemLocations state |}
  | PICK item _ _ =>
      {| robotPos := robotPos state; holding := Some item;
         itemLocations := set_loc (itemLocations state) item "robot" |}
  | DROP item _ =>
      {| robotPos := robotPos state; holding := None;
         itemLocations := set_loc (itemLocations state) item "collectionPoint" |}
  end.

(** The simulation effect: the state it sets [currentSimState] to.  The
    loop runs [i] from 0 to [simulationStep] and skips the indices at or
    beyond the end of the plan. *)
Definition currentSimState (plan : option (list Action))
    (initialWorldState : WorldState) (simulationStep : Z) : WorldState :=
  match plan with
  | None => initialWorldState
  | Some plan =>
      foldl (fun state i =>
               match plan !! i with
               | Some action => simulationStepState state action
               | None => state
               end)
            initialWorldState (seq 0 (Z.to_nat (simulationStep + 1)))
  end.

(** The updater [handleItemToggle] gives to [setItemsToPick]. *)
Definition handleItemToggle (prev : list string) (item : string) : list string :=
  if includes prev item then List.filter (fun i => negb (String.eqb i item)) prev
  else prev ++ [item].

(** The state variables [handleGeneratePlan] writes. *)
Record Ui : Type := {
  planResult : option PlannerResult;
  error : option string;
  simulationStep : Z;
  isPlanning : bool
}.

Definition noItemsMessage : string := "Please select at least one item to pick.".

Definition noPlanMessage : string :=
  "Could not find a plan. This might happen if an item is unreachable due to obstacles.".

(** [handleGeneratePlan], up to the end of its timer callback.  The planner
    throws nothing, so the [catch] clause is never entered; a planner call
    that does not return leaves the callback unfinished. *)
Definition handleGeneratePlan (localeCompare : string -> string -> Z) (fuel : nat)
    (initialWorldState : WorldState) (itemsToPick : list string)
    (shelfLayout : list Shelf) (collectionPoint : Point) (obstacles : list Point)
    (GRID_SIZE : Z) (ui : Ui) : outcome Ui :=
  if (length itemsToPick =? 0)%nat
  then Returned {| planResult := planResult ui; error := Some noItemsMessage;
                   simulationStep := simulationStep ui; isPlanning := isPlanning ui |}
  else
    result ← aStarPlanner localeCompare fuel initialWorldState itemsToPick shelfLayout
               collectionPoint obstacles GRID_SIZE;
    Returned
      match result with
      | Some result =>
          if (0 <? length (path result))%nat
          then {| planResult := Some result; error := None;
                  simulationStep := -1; isPlanning := false |}
          else {| planResult := None; error := Some noPlanMessage;
                  simulationStep := -1; isPlanning := false |}
      | None => {| planResult := None; error := Some noPlanMessage;
                   simulationStep := -1; isPlanning := false |}
      end.

Record PlanMetrics : Type := {
  totalActions : Z;
  totalDistance : Z;
  pickDropActions : Z;
  shownIterations : Z
}.

Definition isMove (a : Action) : bool :=
  match a with MOVE _ _ _ _ => true | _ => false end.

Definition isPickOrDrop (a : Action) : bool :=
  match a with PICK _ _ _ | DROP _ _ => true | MOVE _ _ _ _ => false end.

(** [planMetrics]: [null] without a plan. *)
Definition planMetrics (planResult : option PlannerResult) : option PlanMetrics :=
  match planResult with
  | None => None
  | Some result =>
      let plan := path result in
      Some {| totalActions := Z.of_nat (length plan);
              totalDistance :=
                foldl (fun sum a => sum + cost a) 0 (List.filter isMove plan);
              pickDropActions := Z.of_nat (length (List.filter isPickOrDrop plan));
              shownIterations := iterations result |}
  end.

End App.

(** The number of unit steps the moves of a plan walk: the points of their
    paths, less the starting one. *)
Definition steps_walked (plan : list Action) : Z :=
  foldr (fun a sum => match a with
                      | MOVE _ _ p _ => Z.of_nat (length p) - 1 + sum
                      | _ => sum
                      end) 0 plan.

(** * Properties *)

(** ** Runs and fuel *)

Lemma bind_Returned {A B : Type} (m : outcome A) (f : A -> outcome B) (b : B) :
  m ≫= f = Returned b -> exists a, m = Returned a /\ f a = Returned b.
Proof.
  destruct m as [a|]; [|discriminate]. intros H. exists a. split; [reflexivity|exact H].
Qed.

Ltac bind_inv H :=
  let a := fresh "r" in
  let Ha := fresh "Hr" in
  apply bind_Returned in H as (a & Ha & H).

(** ** The grid pathfinder on a goal equal to the start *)

Lemma findPath_same_cell (fuel : nat) (start : Point) (obstacles : list Point)
    (gridSize : Z) :
  GridPathfinder.findPath (S fuel) start start obstacles gridSize
  = Returned (Some [start]).
Proof.
  unfold GridPathfinder.findPath. cbn.
  rewrite !Z.eqb_refl. cbn. reflexivity.
Qed.

(** C9. For every start point, obstacle list and grid size, [findPath] called
    with the goal equal to the start returns the single-point path [[start]],
    of cost 0, whatever the obstacles are. *)
Theorem findPath_goal_is_start (fuel : nat) (start : Point) (obstacles : list Point)
    (gridSize : Z) :
  GridPathfinder.findPath (S fuel) start start obstacles gridSize
    = Returned (Some [start])
  /\ path_cost [start] = 0.
Proof.
  split.
  - unfold GridPathfinder.findPath, GridPathfinder.findPath_init. cbn.
    (* the start is dequeued first and it is the goal *)
    rewrite !Z.eqb_refl. cbn.
    (* no predecessor has been recorded yet *)
    reflexivity.
  - reflexivity.
Qed.

(** ** The successor generator and the heuristic on a full hand *)

Lemma loc_is_spec (locs : list (string * string)) (item loc : string) :
  loc_is locs item loc = true <-> get_loc locs item = Some loc.
Proof.
  unfold loc_is. destruct (get_loc locs item) as [v|]; [|split; discriminate].
  rewrite String.eqb_eq. split; congruence.
Qed.

Lemma truthy_spec (s : string) : truthy s = true <-> s <> "".
Proof. destruct s; cbn; split; congruence. Qed.

Lemma held_Some (state : WorldState) (item : string) :
  holding state = Some item -> item <> "" -> held state = Some item.
Proof.
  intros Hh Hne. unfold held. rewrite Hh.
  apply truthy_spec in Hne. rewrite Hne. reflexivity.
Qed.

Lemma held_None (state : WorldState) :
  holding state = None \/ holding state = Some "" -> held state = None.
Proof. unfold held. intros [-> | ->]; reflexivity. Qed.

(** C7, as stated, fails: [holding] is the empty string, which is not
    [null], and [getSuccessors] takes its empty-hand branch and returns two
    actions, neither of them the move to the collection point. *)
Lemma getSuccessors_empty_name_two_actions :
  holding holdingEmptyName <> None
  /\ GridPathfinder.findPath 20 (robotPos holdingEmptyName) (pt 1 0) [] 2
     = Returned (Some [pt 0 0; pt 1 0])
  /\ getSuccessors 20 holdingEmptyName ["ItemA"; "ItemB"] twoShelves (pt 1 0) [] 2
     = Returned [PICK "ItemA" "S1" 1; MOVE (pt 0 0) (pt 1 0) [pt 0 0; pt 1 0] 1].
Proof. split; [discriminate|]. split; vm_compute; reflexivity. Qed.

(** C7, amended. For every WorldState in which [holding] is neither [null]
    nor the empty string, [getSuccessors] returns at most one action,
    determined by the result of [findPath(robotPos, collectionPoint)]:
    one Move to the collection point carrying the full path, of cost path
    length - 1, when the path has length > 1; one Drop of the held item of
    cost 1 when the path has length 1; no action when there is no path. *)
Theorem getSuccessors_holding (fuel : nat) (state : WorldState)
    (goalItems : list string) (shelves : list Shelf) (collectionPoint : Point)
    (obstacles : list Point) (gridSize : Z) (item : string)
    (r : option (list Point)) :
  holding state = Some item ->
  item <> "" ->
  GridPathfinder.findPath fuel (robotPos state) collectionPoint obstacles gridSize
    = Returned r ->
  let successors :=
    getSuccessors fuel state goalItems shelves collectionPoint obstacles gridSize in
  (forall p, r = Some p -> (length p > 1)%nat ->
     successors = Returned [MOVE (robotPos state) collectionPoint p
                              (Z.of_nat (length p) - 1)])
  /\ (forall p, r = Some p -> length p = 1%nat ->
        successors = Returned [DROP item 1])
  /\ (r = None -> successors = Returned []).
Proof.
  intros Hh Hne Hfind successors. subst successors.
  unfold getSuccessors. rewrite (held_Some state item Hh Hne), Hfind. cbn.
  repeat split.
  - intros p -> Hlen. destruct (Z.gtb_spec (Z.of_nat (length p)) 1); [reflexivity|lia].
  - intros p -> Hlen. rewrite Hlen. reflexivity.
  - intros ->. reflexivity.
Qed.

Lemma getSuccessors_holding_witness :
  getSuccessors 20
    {| robotPos := pt 1 0; holding := Some "ItemB";
       itemLocations := [("ItemA", "S1"); ("ItemB", "robot")] |}
    ["ItemA"; "ItemB"] twoShelves (pt 0 0) [] 2
  = Returned [MOVE (pt 1 0) (pt 0 0) [pt 1 0; pt 0 0] 1].
Proof.
  pose proof (getSuccessors_holding 20
    {| robotPos := pt 1 0; holding := Some "ItemB";
       itemLocations := [("ItemA", "S1"); ("ItemB", "robot")] |}
    ["ItemA"; "ItemB"] twoShelves (pt 0 0) [] 2 "ItemB" (Some [pt 1 0; pt 0 0])
    eq_refl ltac:(discriminate) ltac:(vm_compute; reflexivity)) as (Hmove & _ & _).
  apply (Hmove [pt 1 0; pt 0 0] eq_refl). cbn. lia.
Defined.

Lemma itemsToGet_filter (state : WorldState) (goalItems : list string) :
  List.filter (fun item => negb (loc_is (itemLocations state) item "collectionPoint"))
              goalItems
  = itemsToGet state goalItems.
Proof.
  unfold itemsToGet. induction goalItems as [|item l IH]; [reflexivity|].
  cbn [List.filter]. rewrite filter_cons, IH.
  destruct (loc_is (itemLocations state) item "collectionPoint") eqn:E; cbn.
  - apply loc_is_spec in E. rewrite decide_False; [reflexivity|congruence].
  - rewrite decide_True; [reflexivity|]. intros H. apply loc_is_spec in H. congruence.
Qed.

(** C8, as stated, fails: [holding] is the empty string, which is not
    [null], a path of one edge leads to the collection point, and the
    heuristic is 20 x 2 with nothing added. *)
Lemma heuristic_empty_name_adds_nothing :
  holding holdingEmptyName <> None
  /\ length (itemsToGet holdingEmptyName ["ItemA"; "ItemB"]) = 2%nat
  /\ GridPathfinder.findPath 20 (robotPos holdingEmptyName) (pt 1 0) [] 2
     = Returned (Some [pt 0 0; pt 1 0])
  /\ heuristic 20 holdingEmptyName ["ItemA"; "ItemB"] (pt 1 0) [] 2
     = Returned (Num 40).
Proof. split; [discriminate|]. repeat split; vm_compute; reflexivity. Qed.

(** C8, amended. [heuristic] returns 20 x |itemsToGet| when [holding] is
    [null] or the empty string, where itemsToGet is the goal items whose
    location-tag is not ['collectionPoint']; when [holding] is a non-empty
    item it returns 20 x |itemsToGet| plus the edge count (length - 1) of the
    path [findPath] returns from robotPos to collectionPoint, or an
    unbounded value when [findPath] returns no path. *)
Theorem heuristic_value (fuel : nat) (state : WorldState) (goalItems : list string)
    (collectionPoint : Point) (obstacles : list Point) (gridSize : Z) :
  let base := Z.of_nat (length (itemsToGet state goalItems)) * 20 in
  (holding state = None \/ holding state = Some "" ->
     heuristic fuel state goalItems collectionPoint obstacles gridSize
       = Returned (Num base))
  /\ (forall item p, holding state = Some item -> item <> "" ->
        GridPathfinder.findPath fuel (robotPos state) collectionPoint obstacles
          gridSize = Returned (Some p) ->
        heuristic fuel state goalItems collectionPoint obstacles gridSize
          = Returned (Num (base + (Z.of_nat (length p) - 1))))
  /\ (forall item, holding state = Some item -> item <> "" ->
        GridPathfinder.findPath fuel (robotPos state) collectionPoint obstacles
          gridSize = Returned None ->
        heuristic fuel state goalItems collectionPoint obstacles gridSize
          = Returned Infinity).
Proof.
  intros base. subst base. unfold heuristic. rewrite itemsToGet_filter.
  repeat split.
  - intros H. rewrite (held_None state H). reflexivity.
  - intros item p Hh Hne Hfind. rewrite (held_Some state item Hh Hne), Hfind.
    reflexivity.
  - intros item Hh Hne Hfind. rewrite (held_Some state item Hh Hne), Hfind.
    reflexivity.
Qed.

Lemma heuristic_value_witness :
  heuristic 20
    {| robotPos := pt 1 0; holding := Some "ItemB";
       itemLocations := [("ItemA", "S1"); ("ItemB", "robot")] |}
    ["ItemA"; "ItemB"] (pt 0 0) [] 2
  = Returned (Num 41).
Proof.
  pose proof (heuristic_value 20
    {| robotPos := pt 1 0; holding := Some "ItemB";
       itemLocations := [("ItemA", "S1"); ("ItemB", "robot")] |}
    ["ItemA"; "ItemB"] (pt 0 0) [] 2) as (_ & Hpath & _).
  apply (Hpath "ItemB" [pt 1 0; pt 0 0] eq_refl).
  - discriminate.
  - vm_compute. reflexivity.
Defined.

(** ** Re-enqueueing in the outer search *)

(** A successor whose key has a recorded g-score other than 0 is recorded
    again and pushed exactly when its tentative g is strictly smaller. *)
Lemma expand_recorded_nonzero (localeCompare : string -> string -> Z) (fuel : nat)
    (goalItems : list string) (collectionPoint : Point) (obstacles : list Point)
    (gridSize : Z) (currentState : WorldState) (currentPath : list Action)
    (currentStateKey : string) (st : PlanSearch) (action : Action)
    (g : Z) (h : number) :
  let nextState := applyAction currentState action in
  let nextStateKey := stateToString localeCompare nextState in
  let tentativeGScore := or_zero (gScore st !! currentStateKey) + cost action in
  gScore st !! nextStateKey = Some g ->
  g <> 0 ->
  heuristic fuel nextState goalItems collectionPoint obstacles gridSize = Returned h ->
  expand localeCompare fuel goalItems collectionPoint obstacles gridSize
    currentState currentPath currentStateKey st action
  = Returned (if decide (tentativeGScore < g)
              then record_and_push st nextState nextStateKey tentativeGScore h
                     (currentPath ++ [action])
              else st).
Proof.
  intros nextState nextStateKey tentativeGScore Hg Hnz Hh. unfold expand.
  fold nextState. fold nextStateKey. fold tentativeGScore.
  rewrite Hg. unfold or_else. destruct (Z.eqb_spec g 0); [contradiction|].
  cbn [num_lt]. destruct (Z.ltb_spec tentativeGScore g).
  - rewrite decide_True by assumption. rewrite Hh. reflexivity.
  - rewrite decide_False by lia. reflexivity.
Qed.

(** A successor whose key has the recorded g-score 0 is recorded again and
    pushed whatever its tentative g is. *)
Lemma expand_recorded_zero (localeCompare : string -> string -> Z) (fuel : nat)
    (goalItems : list string) (collectionPoint : Point) (obstacles : list Point)
    (gridSize : Z) (currentState : WorldState) (currentPath : list Action)
    (currentStateKey : string) (st : PlanSearch) (action : Action) (h : number) :
  let nextState := applyAction currentState action in
  let nextStateKey := stateToString localeCompare nextState in
  let tentativeGScore := or_zero (gScore st !! currentStateKey) + cost action in
  gScore st !! nextStateKey = Some 0 ->
  heuristic fuel nextState goalItems collectionPoint obstacles gridSize = Returned h ->
  expand localeCompare fuel goalItems collectionPoint obstacles gridSize
    currentState currentPath currentStateKey st action
  = Returned (record_and_push st nextState nextStateKey tentativeGScore h
                (currentPath ++ [action])).
Proof.
  intros nextState nextStateKey tentativeGScore Hg Hh. unfold expand.
  fold nextState. fold nextStateKey. fold tentativeGScore.
  rewrite Hg. cbn. rewrite Hh. reflexivity.
Qed.

(** C4, on the code: the planner is run on two adjacent shelves with an
    unreachable collection point.  Its second iteration moves the robot back
    to where it started; the key of that state has the recorded g-score 0,
    the tentative g is 2, and the state is recorded with g = 2 and pushed
    onto the frontier again. *)
Theorem initial_state_reenqueued_with_worse_g :
  let goalItems := ["ItemA"; "ItemB"] in
  let key := stateToString codePointCompare twoShelvesStart in
  exists st0 st1 st2,
    aStarPlanner_init codePointCompare 20 twoShelvesStart goalItems (pt 5 5) [] 2
      = Returned st0
    /\ plan_iteration codePointCompare 20 goalItems twoShelves (pt 5 5) [] 2 0 st0
       = Returned (inr (1, st1))
    /\ plan_iteration codePointCompare 20 goalItems twoShelves (pt 5 5) [] 2 1 st1
       = Returned (inr (2, st2))
    /\ gScore st1 !! key = Some 0
    /\ gScore st2 !! key = Some 2
    /\ In (twoShelvesStart,
           [MOVE (pt 0 0) (pt 1 0) [pt 0 0; pt 1 0] 1;
            MOVE (pt 1 0) (pt 0 0) [pt 1 0; pt 0 0] 1],
           Num 42)
          (openSet st2).
Proof.
  cbv zeta.
  eexists _, _, _.
  split; [reflexivity|].
  split; [reflexivity|].
  split; [reflexivity|].
  split; [vm_compute; reflexivity|].
  split; [vm_compute; reflexivity|].
  vm_compute. left. reflexivity.
Qed.

(** ** The world model: the state invariant *)

Lemma get_loc_update_eq (locs : list (string * string)) (item loc : string) :
  is_Some (get_loc locs item) -> get_loc (update_loc locs item loc) item = Some loc.
Proof.
  induction locs as [|[k v] locs IH]; cbn; [intros [w Hw]; discriminate|].
  destruct (String.eqb k item) eqn:E; cbn; rewrite E; [reflexivity|exact IH].
Qed.

Lemma get_loc_update_ne (locs : list (string * string)) (item item' loc : string) :
  item <> item' -> get_loc (update_loc locs item loc) item' = get_loc locs item'.
Proof.
  intros Hne. induction locs as [|[k v] locs IH]; cbn; [reflexivity|].
  destruct (String.eqb_spec k item) as [->|Hk]; cbn.
  - destruct (String.eqb_spec item item'); [contradiction|reflexivity].
  - destruct (String.eqb k item'); [reflexivity|exact IH].
Qed.

Lemma insert_index_perm (i : Z) (e : string * string) (locs : list (string * string)) :
  Permutation (insert_index i e locs) (e :: locs).
Proof.
  induction locs as [|[k v] locs IH]; cbn; [reflexivity|].
  destruct (arrayIndex k) as [j|]; [|reflexivity].
  destruct (j <? i); [|reflexivity]. rewrite IH. apply perm_swap.
Qed.

Lemma get_loc_insert_index (i : Z) (k v : string) (locs : list (string * string))
    (item : string) :
  get_loc locs k = None ->
  get_loc (insert_index i (k, v) locs) item
  = if String.eqb k item then Some v else get_loc locs item.
Proof.
  induction locs as [|[k' v'] locs IH]; cbn; [reflexivity|].
  destruct (String.eqb_spec k' k) as [->|Hk]; [discriminate|]. intros Hnone.
  destruct (arrayIndex k') as [j|]; [|reflexivity].
  destruct (j <? i); [|reflexivity]. cbn. rewrite (IH Hnone).
  destruct (String.eqb_spec k' item) as [->|_]; [|reflexivity].
  destruct (String.eqb_spec k item); [congruence|reflexivity].
Qed.

Lemma get_loc_app (l1 l2 : list (string * string)) (item : string) :
  get_loc (l1 ++ l2) item
  = match get_loc l1 item with Some v => Some v | None => get_loc l2 item end.
Proof.
  induction l1 as [|[k v] l1 IH]; cbn; [reflexivity|].
  destruct (String.eqb k item); [reflexivity|exact IH].
Qed.

(** A write is read back, when the key is one the object stores under. *)
Lemma get_loc_set_loc_eq (locs : list (string * string)) (item loc : string) :
  storable locs item -> get_loc (set_loc locs item loc) item = Some loc.
Proof.
  intros Hst. unfold set_loc. destruct (get_loc locs item) as [w|] eqn:Hget.
  - apply get_loc_update_eq. rewrite Hget. eauto.
  - destruct (String.eqb_spec item "__proto__") as [->|_].
    + destruct Hst as [Hne|[w Hw]]; [contradiction|congruence].
    + destruct (arrayIndex item) as [i|].
      * rewrite get_loc_insert_index by exact Hget. rewrite String.eqb_refl. reflexivity.
      * rewrite get_loc_app, Hget. cbn. rewrite String.eqb_refl. reflexivity.
Qed.

(** A write leaves the other keys as they are. *)
Lemma get_loc_set_loc_ne (locs : list (string * string)) (item item' loc : string) :
  item <> item' -> get_loc (set_loc locs item loc) item' = get_loc locs item'.
Proof.
  intros Hne. unfold set_loc. destruct (get_loc locs item) as [w|] eqn:Hget.
  - apply get_loc_update_ne, Hne.
  - destruct (String.eqb item "__proto__"); [reflexivity|].
    destruct (arrayIndex item) as [i|].
    + rewrite get_loc_insert_index by exact Hget.
      destruct (String.eqb_spec item item'); [contradiction|reflexivity].
    + rewrite get_loc_app. destruct (get_loc locs item'); [reflexivity|]. cbn.
      destruct (String.eqb_spec item item'); [contradiction|reflexivity].
Qed.

(** A write without effect: the key [__proto__] that is no own entry. *)
Lemma set_loc_not_storable (locs : list (string * string)) (item loc : string) :
  ~ storable locs item -> set_loc locs item loc = locs.
Proof.
  intros Hnot. unfold set_loc. destruct (get_loc locs item) as [w|] eqn:Hget.
  - exfalso. apply Hnot. right. rewrite Hget. eauto.
  - destruct (String.eqb_spec item "__proto__") as [_|Hne]; [reflexivity|].
    exfalso. apply Hnot. left. exact Hne.
Qed.

(** No write makes or removes the own entry [__proto__]. *)
Lemma set_loc_proto_entry (locs : list (string * string)) (item loc : string) :
  is_Some (get_loc (set_loc locs item loc) "__proto__")
  <-> is_Some (get_loc locs "__proto__").
Proof.
  destruct (String.eqb_spec item "__proto__") as [->|Hne].
  - destruct (get_loc locs "__proto__") as [w|] eqn:Hget.
    + rewrite get_loc_set_loc_eq by (right; rewrite Hget; eauto). split; eauto.
    + rewrite set_loc_not_storable, Hget; [reflexivity|].
      intros [H|[w Hw]]; [contradiction|congruence].
  - rewrite get_loc_set_loc_ne by assumption. reflexivity.
Qed.

Lemma robot_count_update (locs : list (string * string)) (item loc : string) :
  is_Some (get_loc locs item) ->
  robot_count (update_loc locs item loc)
  = ((if bool_decide (loc = "robot") then 1 else 0)
     + (if loc_is locs item "robot" then pred (robot_count locs) else robot_count locs))%nat.
Proof.
  unfold robot_count, loc_is.
  induction locs as [|[k v] locs IH]; cbn [update_loc get_loc];
    [intros [w Hw]; discriminate|].
  destruct (String.eqb_spec k item) as [->|Hk]; intros Hsome.
  - rewrite !filter_cons; cbn [snd].
    destruct (String.eqb_spec v "robot") as [->|Hv].
    + rewrite (decide_True (P := "robot" = "robot")) by reflexivity. cbn [length pred].
      destruct (decide (loc = "robot")) as [->|Hloc].
      * rewrite bool_decide_eq_true_2 by reflexivity. reflexivity.
      * rewrite bool_decide_eq_false_2 by assumption. reflexivity.
    + rewrite (decide_False (P := v = "robot")) by assumption.
      destruct (decide (loc = "robot")) as [->|Hloc].
      * rewrite bool_decide_eq_true_2 by reflexivity. reflexivity.
      * rewrite bool_decide_eq_false_2 by assumption. reflexivity.
  - rewrite !filter_cons; cbn [snd]. specialize (IH Hsome).
    destruct (decide (v = "robot")); cbn [length]; rewrite IH; [|reflexivity].
    destruct (get_loc locs item) as [w|] eqn:Hget; [|lia].
    destruct (String.eqb_spec w "robot") as [->|]; [|lia].
    assert (0 < length (filter (fun e => e.2 = "robot") locs))%nat; [|lia].
    clear IH Hsome. induction locs as [|[k' v'] locs IH]; [discriminate|].
    cbn in Hget. rewrite filter_cons. cbn [snd].
    destruct (String.eqb k' item).
    + injection Hget as ->. rewrite decide_True by reflexivity. cbn. lia.
    + destruct (decide (v' = "robot")); cbn; [lia|]. apply IH, Hget.
Qed.

Lemma robot_count_perm (l1 l2 : list (string * string)) :
  Permutation l1 l2 -> robot_count l1 = robot_count l2.
Proof. intros Hperm. unfold robot_count. rewrite Hperm. reflexivity. Qed.

Lemma robot_count_new (locs : list (string * string)) (item loc : string) :
  get_loc locs item = None -> item <> "__proto__" ->
  robot_count (set_loc locs item loc)
  = ((if bool_decide (loc = "robot") then 1 else 0) + robot_count locs)%nat.
Proof.
  intros Hget Hne. unfold set_loc. rewrite Hget.
  destruct (String.eqb_spec item "__proto__"); [contradiction|].
  assert (Hcons : robot_count ((item, loc) :: locs)
                  = ((if bool_decide (loc = "robot") then 1 else 0)
                     + robot_count locs)%nat).
  { unfold robot_count. rewrite filter_cons. cbn [snd].
    destruct (decide (loc = "robot")) as [->|Hloc].
    - rewrite bool_decide_eq_true_2 by reflexivity. reflexivity.
    - rewrite bool_decide_eq_false_2 by assumption. reflexivity. }
  rewrite <- Hcons. apply robot_count_perm.
  destruct (arrayIndex item) as [i|]; [apply insert_index_perm|].
  symmetry. apply Permutation_cons_append.
Qed.

(** Setting an item to ['robot'] adds one to the count unless the item is
    there already. *)
Lemma robot_count_set_robot (locs : list (string * string)) (item : string) :
  storable locs item ->
  robot_count (set_loc locs item "robot")
  = if loc_is locs item "robot" then robot_count locs else S (robot_count locs).
Proof.
  intros Hst. destruct (get_loc locs item) as [w|] eqn:Hget.
  - unfold set_loc. rewrite Hget, robot_count_update by (rewrite Hget; eauto).
    rewrite bool_decide_eq_true_2 by reflexivity.
    unfold loc_is. rewrite Hget.
    destruct (String.eqb_spec w "robot") as [->|Hw]; [|reflexivity].
    assert (0 < robot_count locs)%nat; [|lia].
    clear Hst. unfold robot_count.
    induction locs as [|[k' v'] locs IH]; [discriminate|].
    cbn in Hget. rewrite filter_cons. cbn [snd].
    destruct (String.eqb k' item).
    + injection Hget as ->. rewrite decide_True by reflexivity. cbn. lia.
    + destruct (decide (v' = "robot")); cbn; [lia|]. apply IH, Hget.
  - destruct Hst as [Hne|[w Hw]]; [|congruence].
    rewrite robot_count_new by assumption.
    rewrite bool_decide_eq_true_2 by reflexivity.
    unfold loc_is. rewrite Hget. reflexivity.
Qed.

(** Setting an item to another tag takes one off the count when the item
    was at ['robot']. *)
Lemma robot_count_set_other (locs : list (string * string)) (item loc : string) :
  loc <> "robot" ->
  robot_count (set_loc locs item loc)
  = if loc_is locs item "robot" then pred (robot_count locs) else robot_count locs.
Proof.
  intros Hloc. destruct (get_loc locs item) as [w|] eqn:Hget.
  - unfold set_loc. rewrite Hget, robot_count_update by (rewrite Hget; eauto).
    rewrite bool_decide_eq_false_2 by assumption. reflexivity.
  - unfold loc_is. rewrite Hget.
    destruct (decide (item = "__proto__")) as [->|Hne].
    + rewrite set_loc_not_storable; [reflexivity|].
      intros [H|[w Hw]]; [contradiction|congruence].
    + rewrite robot_count_new by assumption.
      rewrite bool_decide_eq_false_2 by assumption. reflexivity.
Qed.

(** A loop that only appends to its accumulator keeps what holds of all its
    elements. *)
Lemma for_of_invariant {S A : Type} (P : S -> Prop) (body : S -> A -> outcome S)
    (l : list A) (s s' : S) :
  (forall s a s', P s -> body s a = Returned s' -> P s') ->
  P s -> for_of body l s = Returned s' -> P s'.
Proof.
  intros Hbody. revert s. induction l as [|a l IH]; cbn; intros s Hs Hrun.
  - congruence.
  - bind_inv Hrun. eapply IH; [|exact Hrun]. eapply Hbody; eassumption.
Qed.

Lemma includes_spec (l : list string) (s : string) :
  includes l s = true <-> In s l.
Proof.
  unfold includes. rewrite existsb_exists. split.
  - intros (s' & Hin & Heq). apply String.eqb_eq in Heq. congruence.
  - intros Hin. exists s. split; [exact Hin|apply String.eqb_refl].
Qed.

Lemma getSuccessors_produced (fuel : nat) (state : WorldState)
    (goalItems : list string) (shelves : list Shelf) (collectionPoint : Point)
    (obstacles : list Point) (gridSize : Z) (actions : list Action) :
  getSuccessors fuel state goalItems shelves collectionPoint obstacles gridSize
    = Returned actions ->
  Forall (produced_for state) actions.
Proof.
  unfold getSuccessors. destruct (held state) as [item|] eqn:Hheld; intros Hrun.
  - bind_inv Hrun. injection Hrun as <-.
    destruct r as [p|]; [|constructor].
    destruct (Z.of_nat (length p) >? 1); repeat constructor. exact Hheld.
  - eapply (for_of_invariant (Forall (produced_for state))); [| |exact Hrun].
    + intros acc shelf acc' Hacc Hbody. bind_inv Hbody. injection Hbody as <-.
      destruct r as [p|]; [|exact Hacc].
      destruct (Z.of_nat (length p) >? 1); [|exact Hacc].
      apply Forall_app. split; [exact Hacc|]. repeat constructor.
    + destruct (List.find _ shelves) as [s|]; [|constructor].
      destruct (List.find _ (items s)) as [itemToPick|] eqn:Hfind; [|constructor].
      destruct (truthy itemToPick); [|constructor].
      constructor; [|constructor]. cbn. split; [exact Hheld|].
      apply find_some in Hfind as [_ Hneeded].
      apply includes_spec, filter_In in Hneeded as [_ Hneeded].
      apply andb_true_iff in Hneeded as [_ Hneeded].
      apply negb_true_iff in Hneeded. exact Hneeded.
Qed.

(** [applyAction] keeps the invariant for what [getSuccessors] produces,
    provided the empty hand is told by [holding] being [null]. *)
Lemma applyAction_produced_invariant (state : WorldState) (action : Action) :
  holding state <> Some "" ->
  state_invariant state ->
  produced_for state action ->
  (forall item shelfId c, action = PICK item shelfId c ->
     storable (itemLocations state) item) ->
  state_invariant (applyAction state action).
Proof.
  intros Hname (Hle & Hiff & Hheld) Hprod Hstorable.
  destruct action as [from to p c|item shelfId c|item c]; cbn in Hprod |- *.
  - repeat split; assumption || apply Hiff.
  - destruct Hprod as [Hempty Hnot].
    assert (Hnone : holding state = None).
    { unfold held in Hempty. destruct (holding state) as [[|a s]|];
        [contradiction|discriminate|reflexivity]. }
    assert (Hzero : robot_count (itemLocations state) = 0%nat).
    { destruct (robot_count (itemLocations state)) as [|[|n]] eqn:E; [reflexivity| |lia].
      exfalso. apply Hiff; [reflexivity|exact Hnone]. }
    unfold state_invariant. cbn [applyAction itemLocations holding].
    specialize (Hstorable item shelfId c eq_refl).
    rewrite robot_count_set_robot, Hnot, Hzero, get_loc_set_loc_eq by exact Hstorable.
    repeat split; try lia; congruence.
  - assert (Hsome : holding state = Some item).
    { unfold held in Hprod. destruct (holding state) as [s|]; [|discriminate].
      destruct (truthy s); congruence. }
    rewrite Hsome in Hheld.
    assert (Hone : robot_count (itemLocations state) = 1%nat).
    { apply Hiff. congruence. }
    unfold state_invariant. cbn [applyAction itemLocations holding].
    rewrite robot_count_set_other by discriminate.
    apply loc_is_spec in Hheld. rewrite Hheld, Hone. cbn [pred].
    repeat split; try lia; congruence.
Qed.

(** C5, as stated, fails: the state holds an item named by the empty
    string and satisfies the invariant; [getSuccessors] takes its
    empty-hand branch and produces a Pick, and the state [applyAction]
    returns has two items at ['robot']. *)
Lemma applyAction_empty_name_two_at_robot :
  state_invariant holdingEmptyNameAtRobot
  /\ getSuccessors 20 holdingEmptyNameAtRobot ["ItemA"] twoShelves (pt 0 0) [] 2
     = Returned [PICK "ItemA" "S1" 1]
  /\ robot_count (itemLocations
                    (applyAction holdingEmptyNameAtRobot (PICK "ItemA" "S1" 1)))
     = 2%nat
  /\ ~ state_invariant (applyAction holdingEmptyNameAtRobot (PICK "ItemA" "S1" 1)).
Proof.
  split; [apply (bool_decide_unpack _); vm_compute; exact I|].
  split; [vm_compute; reflexivity|].
  split; [vm_compute; reflexivity|].
  apply (bool_decide_eq_false_1 _). vm_compute. reflexivity.
Qed.

(** The empty name is not the only one: [itemLocations] is a plain object,
    and a write to the key [__proto__] stores nothing unless the object has
    that entry already.  Picking an item of that name which has no entry
    leaves every location as it was, and the hand holds an item that is not
    at ['robot']. *)
Lemma applyAction_proto_pick_stores_nothing :
  state_invariant emptyHanded
  /\ getSuccessors 20 emptyHanded ["__proto__"] protoShelf (pt 0 0) [] 2
     = Returned [PICK "__proto__" "S1" 1]
  /\ applyAction emptyHanded (PICK "__proto__" "S1" 1)
     = {| robotPos := pt 0 0; holding := Some "__proto__"; itemLocations := [] |}
  /\ ~ state_invariant (applyAction emptyHanded (PICK "__proto__" "S1" 1)).
Proof.
  split; [apply (bool_decide_unpack _); vm_compute; exact I|].
  split; [vm_compute; reflexivity|]. split; [reflexivity|].
  apply (bool_decide_eq_false_1 (state_invariant _)). vm_compute. reflexivity.
Qed.

(** C5, amended. For every WorldState satisfying the state invariant whose
    [holding] is not the empty string, and every action [getSuccessors]
    produces for that state, other than the Pick of an item named
    [__proto__] that has no entry in [itemLocations], the state
    [applyAction] returns satisfies the invariant too: it never has two
    items at ['robot'], its [holding] is non-null iff exactly one item is at
    ['robot'], and that item is the held one. *)
Theorem applyAction_keeps_invariant (fuel : nat) (state : WorldState)
    (goalItems : list string) (shelves : list Shelf) (collectionPoint : Point)
    (obstacles : list Point) (gridSize : Z) (actions : list Action)
    (action : Action) :
  state_invariant state ->
  holding state <> Some "" ->
  getSuccessors fuel state goalItems shelves collectionPoint obstacles gridSize
    = Returned actions ->
  In action actions ->
  (forall shelfId c, action = PICK "__proto__" shelfId c ->
     is_Some (get_loc (itemLocations state) "__proto__")) ->
  state_invariant (applyAction state action).
Proof.
  intros Hinv Hname Hsucc Hin Hproto.
  apply applyAction_produced_invariant; [exact Hname|exact Hinv| |].
  - apply getSuccessors_produced in Hsucc.
    rewrite List.Forall_forall in Hsucc. apply Hsucc, Hin.
  - intros item shelfId c ->.
    destruct (decide (item = "__proto__")) as [->|Hne].
    + right. eapply Hproto. reflexivity.
    + left. exact Hne.
Qed.

Lemma applyAction_keeps_invariant_witness :
  state_invariant (applyAction twoShelvesStart (PICK "ItemA" "S1" 1)).
Proof.
  apply (applyAction_keeps_invariant 20 twoShelvesStart ["ItemA"; "ItemB"] twoShelves
           (pt 0 0) [] 2
           [PICK "ItemA" "S1" 1; MOVE (pt 0 0) (pt 1 0) [pt 0 0; pt 1 0] 1]).
  - apply (bool_decide_unpack _). vm_compute. exact I.
  - discriminate.
  - vm_compute. reflexivity.
  - left. reflexivity.
  - discriminate.
Defined.

(** ** The priority queue: elements *)

Lemma insert_sorted_perm {T : Type} (e : T * number) (l : PriorityQueue.t T) :
  Permutation (PriorityQueue.insert_sorted e l) (e :: l).
Proof.
  induction l as [|e' l IH]; cbn; [reflexivity|].
  destruct (num_sub_pos e.2 e'.2); [|reflexivity].
  rewrite IH. apply perm_swap.
Qed.

Lemma sort_perm {T : Type} (l : PriorityQueue.t T) :
  Permutation (PriorityQueue.sort l) l.
Proof.
  unfold PriorityQueue.sort. induction l as [|e l IH]; cbn; [reflexivity|].
  rewrite insert_sorted_perm, IH. reflexivity.
Qed.

Lemma enqueue_perm {T : Type} (q : PriorityQueue.t T) (item : T) (priority : number) :
  Permutation (PriorityQueue.enqueue q item priority) ((item, priority) :: q).
Proof.
  unfold PriorityQueue.enqueue. rewrite sort_perm.
  symmetry. apply Permutation_cons_append.
Qed.

Lemma dequeue_Some {T : Type} (q rest : PriorityQueue.t T) (item : T) :
  PriorityQueue.dequeue q = Some (item, rest) ->
  exists priority, q = (item, priority) :: rest.
Proof.
  destruct q as [|[i p] q]; cbn; [discriminate|].
  intros [= <- <-]. exists p. reflexivity.
Qed.

(** ** Soundness of the returned plan *)

Section Soundness.
Variable localeCompare : string -> string -> Z.
Variables (fuel : nat) (initialState : WorldState) (goalItems : list string)
  (shelves : list Shelf) (collectionPoint : Point) (obstacles : list Point)
  (gridSize : Z).

Lemma expand_frontier_sound (currentState : WorldState) (currentPath : list Action)
    (currentStateKey : string) (st st' : PlanSearch) (action : Action) :
  currentState = applyActions initialState currentPath ->
  frontier_sound initialState st ->
  expand localeCompare fuel goalItems collectionPoint obstacles gridSize
    currentState currentPath currentStateKey st action = Returned st' ->
  frontier_sound initialState st'.
Proof.
  intros Hcur Hst. unfold expand.
  destruct (num_lt _ _); [|congruence].
  intros Hrun. bind_inv Hrun. injection Hrun as <-.
  unfold frontier_sound, record_and_push. cbn [openSet].
  rewrite enqueue_perm. constructor; [|exact Hst].
  cbn. unfold applyActions. rewrite foldl_app. cbn. fold (applyActions initialState currentPath).
  congruence.
Qed.

Lemma plan_iteration_sound (iterations : Z) (st : PlanSearch)
    (r : PlannerExit + Z * PlanSearch) :
  frontier_sound initialState st ->
  plan_iteration localeCompare fuel goalItems shelves collectionPoint obstacles
    gridSize iterations st = Returned r ->
  match r with
  | inl (Found result) =>
      isGoal (applyActions initialState (path result)) goalItems = true
  | inl _ => True
  | inr (_, st') => frontier_sound initialState st'
  end.
Proof.
  intros Hst. unfold plan_iteration.
  destruct (PriorityQueue.isEmpty (openSet st)); [intros [= <-]; exact I|].
  destruct (_ >? maxIterations); [intros [= <-]; exact I|].
  destruct (PriorityQueue.dequeue (openSet st)) as [[[currentState currentPath] rest]|]
    eqn:Hdeq; [|intros [= <-]; exact I].
  apply dequeue_Some in Hdeq as [priority Hq].
  unfold frontier_sound in Hst. rewrite Hq in Hst.
  apply Forall_cons in Hst as [Hcur Hrest]. cbn in Hcur.
  destruct (isGoal currentState goalItems) eqn:Hgoal.
  - intros [= <-]. cbn. rewrite <- Hcur. exact Hgoal.
  - intros Hrun. bind_inv Hrun. bind_inv Hrun. injection Hrun as <-.
    eapply (for_of_invariant (frontier_sound initialState)); [| |exact Hr0].
    + intros s a s' Hs Hbody. eapply expand_frontier_sound; eassumption.
    + exact Hrest.
Qed.

Lemma plan_loop_sound (n : nat) (iterations : Z) (st : PlanSearch)
    (result : PlannerResult) :
  frontier_sound initialState st ->
  plan_loop localeCompare n fuel goalItems shelves collectionPoint obstacles gridSize
    iterations st = Returned (Found result) ->
  isGoal (applyActions initialState (path result)) goalItems = true.
Proof.
  revert iterations st. induction n as [|n IH]; intros iterations st Hst; cbn;
    [discriminate|].
  intros Hrun. bind_inv Hrun.
  pose proof (plan_iteration_sound iterations st r Hst Hr) as Hr'.
  destruct r as [e|[iterations' st']].
  - injection Hrun as ->. exact Hr'.
  - eapply IH; eassumption.
Qed.

End Soundness.

Lemma isGoal_spec (state : WorldState) (goalItems : list string) :
  isGoal state goalItems = true
  <-> forall item, In item goalItems ->
        get_loc (itemLocations state) item = Some "collectionPoint".
Proof.
  unfold isGoal. rewrite forallb_forall.
  split; intros H item Hin; apply loc_is_spec, H, Hin.
Qed.

(** C2. If [aStarPlanner] returns a PlannerResult, then applying its action
    list in order with [applyAction], starting from [initialState], yields a
    WorldState in which every item of [goalItems] has location-tag
    ['collectionPoint']: [isGoal] holds of the final state. *)
Theorem aStarPlanner_plan_reaches_goal (localeCompare : string -> string -> Z)
    (fuel : nat) (initialState : WorldState) (goalItems : list string)
    (shelves : list Shelf) (collectionPoint : Point) (obstacles : list Point)
    (gridSize : Z) (result : PlannerResult) :
  aStarPlanner localeCompare fuel initialState goalItems shelves collectionPoint
    obstacles gridSize = Returned (Some result) ->
  let final := foldl applyAction initialState (path result) in
  isGoal final goalItems = true
  /\ forall item, In item goalItems ->
       get_loc (itemLocations final) item = Some "collectionPoint".
Proof.
  intros Hrun final.
  assert (Hgoal : isGoal final goalItems = true); [|split; [exact Hgoal|]].
  2: { apply isGoal_spec, Hgoal. }
  unfold aStarPlanner in Hrun. bind_inv Hrun. injection Hrun as Hval.
  destruct r as [result'| |]; cbn in Hval; try discriminate.
  injection Hval as ->.
  unfold aStarPlanner_exit in Hr. bind_inv Hr.
  eapply plan_loop_sound; [|exact Hr].
  unfold aStarPlanner_init in Hr0. bind_inv Hr0. injection Hr0 as <-.
  unfold frontier_sound. cbn [openSet]. rewrite enqueue_perm.
  constructor; [reflexivity|constructor].
Qed.

Lemma aStarPlanner_plan_reaches_goal_witness :
  isGoal
    (foldl applyAction twoShelvesStart
       [PICK "ItemA" "S1" 1; DROP "ItemA" 1;
        MOVE (pt 0 0) (pt 1 0) [pt 0 0; pt 1 0] 1; PICK "ItemB" "S2" 1;
        MOVE (pt 1 0) (pt 0 0) [pt 1 0; pt 0 0] 1; DROP "ItemB" 1])
    ["ItemA"; "ItemB"] = true.
Proof.
  apply (aStarPlanner_plan_reaches_goal codePointCompare 20 twoShelvesStart
           ["ItemA"; "ItemB"] twoShelves (pt 0 0) [] 2
           {| path := [PICK "ItemA" "S1" 1; DROP "ItemA" 1;
                       MOVE (pt 0 0) (pt 1 0) [pt 0 0; pt 1 0] 1; PICK "ItemB" "S2" 1;
                       MOVE (pt 1 0) (pt 0 0) [pt 1 0; pt 0 0] 1; DROP "ItemB" 1];
              iterations := 7 |}).
  vm_compute. reflexivity.
Defined.

(** ** The canonical key *)

Section CanonicalKey.
Variable localeCompare : string -> string -> Z.

(** What is assumed of the collation: it is a total preorder.  It may well
    find two distinct identifiers equal, as a collation does that ignores
    some characters. *)
Hypothesis localeCompare_total :
  forall a b, localeCompare a b <= 0 \/ localeCompare b a <= 0.
Hypothesis localeCompare_trans :
  forall a b c, localeCompare a b <= 0 -> localeCompare b c <= 0 ->
                localeCompare a c <= 0.

Lemma insert_entry_perm (e : string * string) (l : list (string * string)) :
  Permutation (insert_entry localeCompare e l) (e :: l).
Proof.
  induction l as [|e' l IH]; cbn; [reflexivity|].
  destruct (localeCompare e.1 e'.1 >? 0); [|reflexivity].
  rewrite IH. apply perm_swap.
Qed.

Lemma sort_entries_perm (l : list (string * string)) :
  Permutation (sort_entries localeCompare l) l.
Proof.
  unfold sort_entries. induction l as [|e l IH]; cbn; [reflexivity|].
  rewrite insert_entry_perm, IH. reflexivity.
Qed.

Lemma insert_entry_sorted (e : string * string) (l : list (string * string)) :
  Sorted (entry_le localeCompare) l ->
  Sorted (entry_le localeCompare) (insert_entry localeCompare e l).
Proof.
  induction 1 as [|e' l Hl IH Hhd]; cbn; [repeat constructor|].
  destruct (Z.gtb_spec (localeCompare e.1 e'.1) 0) as [Hgt|Hle].
  - constructor; [exact IH|].
    destruct Hhd as [|e'' l Hle']; cbn.
    + constructor. unfold entry_le.
      destruct (localeCompare_total e.1 e'.1); [lia|assumption].
    + destruct (localeCompare e.1 e''.1 >? 0); constructor; [exact Hle'|].
      unfold entry_le. destruct (localeCompare_total e.1 e'.1); [lia|assumption].
  - repeat constructor; assumption.
Qed.

Lemma sort_entries_sorted (l : list (string * string)) :
  StronglySorted (entry_le localeCompare) (sort_entries localeCompare l).
Proof.
  apply Sorted.Sorted_StronglySorted.
  - intros a b c. unfold entry_le. apply localeCompare_trans.
  - unfold sort_entries. induction l as [|e l IH]; cbn; [constructor|].
    apply insert_entry_sorted, IH.
Qed.

Lemma NoDup_keys_entry_eq (l : list (string * string)) (a b : string * string) :
  NoDup l.*1 -> a ∈ l -> b ∈ l -> a.1 = b.1 -> a = b.
Proof.
  induction l as [|e l IH]; intros Hnd Ha Hb Hkey; [inv Ha|].
  cbn in Hnd. apply NoDup_cons in Hnd as [Hnotin Hnd].
  apply elem_of_cons in Ha as [->|Ha]; apply elem_of_cons in Hb as [->|Hb].
  - reflexivity.
  - exfalso. apply Hnotin. rewrite Hkey. apply list_elem_of_fmap. eauto.
  - exfalso. apply Hnotin. rewrite <- Hkey. apply list_elem_of_fmap. eauto.
  - apply IH; assumption.
Qed.

(** Sorting forgets the order of insertion, when the collation tells the
    keys apart. *)
Lemma sort_entries_insertion_order (l1 l2 : list (string * string)) :
  NoDup l1.*1 ->
  (forall a b, a ∈ l1.*1 -> b ∈ l1.*1 ->
     localeCompare a b <= 0 -> localeCompare b a <= 0 -> a = b) ->
  Permutation l1 l2 ->
  sort_entries localeCompare l1 = sort_entries localeCompare l2.
Proof.
  intros Hnd Hapart Hperm.
  apply (StronglySorted_unique_strong (entry_le localeCompare)).
  - intros a b Ha Hb Hab Hba.
    rewrite (sort_entries_perm l1) in Ha.
    rewrite (sort_entries_perm l2), <- Hperm in Hb.
    apply (NoDup_keys_entry_eq l1); [exact Hnd|exact Ha|exact Hb|].
    apply Hapart; [apply list_elem_of_fmap; eauto..|exact Hab|exact Hba].
  - apply sort_entries_sorted.
  - apply sort_entries_sorted.
  - rewrite !sort_entries_perm. exact Hperm.
Qed.

(** C10, amended. The canonical key does not depend on the insertion order
    of [itemLocations] as long as the collation tells the item identifiers
    of the state apart: two WorldStates with the same robot position, the
    same [holding] and the same item-to-location pairs, stored in whatever
    order, have the same [stateToString] when no two distinct identifiers
    among them compare equal under [localeCompare]. *)
Theorem stateToString_insertion_order (s1 s2 : WorldState) :
  robotPos s1 = robotPos s2 ->
  holding s1 = holding s2 ->
  NoDup (itemLocations s1).*1 ->
  Permutation (itemLocations s1) (itemLocations s2) ->
  (forall a b, a ∈ (itemLocations s1).*1 -> b ∈ (itemLocations s1).*1 ->
     localeCompare a b <= 0 -> localeCompare b a <= 0 -> a = b) ->
  stateToString localeCompare s1 = stateToString localeCompare s2.
Proof.
  intros Hpos Hhold Hnd Hperm Hapart. unfold stateToString.
  rewrite Hpos, Hhold, (sort_entries_insertion_order _ _ Hnd Hapart Hperm).
  reflexivity.
Qed.

End CanonicalKey.

Lemma codePointCompare_le (a b : string) :
  codePointCompare a b <= 0 <-> String.le a b.
Proof.
  unfold codePointCompare, String.le, String.leb.
  destruct (String.compare a b); cbn; intuition (lia || auto).
Qed.

Lemma codePointCompare_total (a b : string) :
  codePointCompare a b <= 0 \/ codePointCompare b a <= 0.
Proof. rewrite !codePointCompare_le. apply total, _. Qed.

Lemma codePointCompare_trans (a b c : string) :
  codePointCompare a b <= 0 -> codePointCompare b c <= 0 -> codePointCompare a c <= 0.
Proof. rewrite !codePointCompare_le. apply transitivity. Qed.

Lemma codePointCompare_antisym (a b : string) :
  codePointCompare a b <= 0 -> codePointCompare b a <= 0 -> a = b.
Proof. rewrite !codePointCompare_le. apply (anti_symm String.le). Qed.

(** C10, as stated, fails: the entries are sorted by what [localeCompare]
    makes of the identifiers, and the sort is stable.  Under a collation
    that ignores control characters, as the default one of the host does,
    the identifiers ["a"] and ["a"] followed by U+0001 compare equal; the
    sort leaves the two entries in the order of insertion, and two states
    with the same entries have different keys. *)
Lemma stateToString_tied_identifiers_keys_differ :
  controlBlindCompare "a" aWithControl = 0
  /\ controlBlindCompare aWithControl "a" = 0
  /\ robotPos tiedFirst = robotPos tiedSecond
  /\ holding tiedFirst = holding tiedSecond
  /\ Permutation (itemLocations tiedFirst) (itemLocations tiedSecond)
  /\ stateToString controlBlindCompare tiedFirst
     <> stateToString controlBlindCompare tiedSecond.
Proof.
  split; [reflexivity|]. split; [reflexivity|]. split; [reflexivity|].
  split; [reflexivity|]. split; [apply perm_swap|].
  vm_compute. discriminate.
Qed.

Lemma stateToString_insertion_order_witness :
  stateToString codePointCompare twoShelvesStart
  = stateToString codePointCompare
      {| robotPos := pt 0 0; holding := None;
         itemLocations := [("ItemB", "S2"); ("ItemA", "S1")] |}.
Proof.
  apply (stateToString_insertion_order codePointCompare codePointCompare_total
           codePointCompare_trans).
  - reflexivity.
  - reflexivity.
  - apply (bool_decide_unpack _). vm_compute. exact I.
  - apply perm_swap.
  - intros a b _ _. apply codePointCompare_antisym.
Defined.

(** ** Keys of points *)

Lemma comma_free_string_of_uint (d : Decimal.uint) :
  comma_free (NilEmpty.string_of_uint d) = true.
Proof. induction d; cbn; auto. Qed.

Lemma comma_free_numToString (z : Z) : comma_free (numToString z) = true.
Proof.
  unfold numToString, NilZero.string_of_int, NilZero.string_of_uint.
  destruct (Z.to_int z) as [d|d]; destruct d; cbn;
    auto using comma_free_string_of_uint.
Qed.

Lemma append_cons (c : ascii) (s t : string) :
  String c s +:+ t = String c (s +:+ t).
Proof. reflexivity. Qed.

Lemma append_empty_r (s : string) : s +:+ "" = s.
Proof.
  induction s as [|c s IH]; [reflexivity|]. rewrite append_cons, IH. reflexivity.
Qed.

Lemma rev_app_rev_app (s a b : string) :
  String.rev_app (String.rev_app s a) b = String.rev_app a (s +:+ b).
Proof.
  revert a b. induction s as [|c s IH]; intros a b; [reflexivity|].
  cbn [String.rev_app]. rewrite IH, append_cons. reflexivity.
Qed.

Lemma rev_rev_app_empty (s : string) : String.rev (String.rev_app s "") = s.
Proof.
  unfold String.rev. rewrite rev_app_rev_app. cbn [String.rev_app].
  apply append_empty_r.
Qed.

Lemma split_go_piece (s1 cur s2 : string) :
  comma_free s1 = true ->
  split_go cur (s1 +:+ String ","%char s2)
  = String.rev (String.rev_app s1 cur) :: split_go "" s2.
Proof.
  revert cur. induction s1 as [|c s1 IH]; intros cur Hfree; [reflexivity|].
  rewrite append_cons. cbn [split_go String.rev_app].
  cbn in Hfree. apply andb_true_iff in Hfree as [Hc Hfree].
  apply negb_true_iff in Hc. rewrite Hc. apply IH, Hfree.
Qed.

Lemma split_go_last (s cur : string) :
  comma_free s = true ->
  split_go cur s = [String.rev (String.rev_app s cur)].
Proof.
  revert cur. induction s as [|c s IH]; intros cur Hfree; cbn; [reflexivity|].
  cbn in Hfree. apply andb_true_iff in Hfree as [Hc Hfree].
  apply negb_true_iff in Hc. rewrite Hc. apply IH, Hfree.
Qed.

Lemma parseNumber_numToString (z : Z) : parseNumber (numToString z) = z.
Proof.
  unfold parseNumber, numToString. rewrite NilZero.isi.
  - apply DecimalZ.of_to.
  - destruct z; cbn; try discriminate.
    intros [= H]. exact (DecimalPos.Unsigned.to_uint_nonnil _ H).
  - destruct z; cbn; try discriminate.
    intros [= H]. exact (DecimalPos.Unsigned.to_uint_nonnil _ H).
Qed.

(** [stringToPoint] reads back what [pointToString] writes. *)
Lemma stringToPoint_pointToString (p : Point) :
  stringToPoint (pointToString p) = p.
Proof.
  unfold stringToPoint, pointToString, split_comma.
  change ("," +:+ numToString (y p)) with (String ","%char (numToString (y p))).
  rewrite split_go_piece by apply comma_free_numToString.
  rewrite split_go_last by apply comma_free_numToString.
  rewrite !rev_rev_app_empty. cbn.
  rewrite !parseNumber_numToString. destruct p; reflexivity.
Qed.

Lemma pointToString_inj (p q : Point) :
  pointToString p = pointToString q -> p = q.
Proof.
  intros H. rewrite <- (stringToPoint_pointToString p), H.
  apply stringToPoint_pointToString.
Qed.

(** ** The grid pathfinder: what a returned path is made of *)

Section PathShape.
Import GridPathfinder.
Variables (start end_ : Point) (obstacles : list Point) (gridSize : Z).

Abbreviation obstacleSet := (list_to_set (pointToString <$> obstacles) : gset string).

Lemma obstacleSet_spec (p : Point) :
  pointToString p ∈ obstacleSet <-> p ∈ obstacles.
Proof.
  rewrite elem_of_list_to_set, list_elem_of_fmap. split.
  - intros (q & Heq & Hq). apply pointToString_inj in Heq. congruence.
  - intros Hp. exists p. auto.
Qed.

(** The neighbours are the free cells one unit step away. *)
Lemma neighbors_spec (current p : Point) :
  In p (neighbors current obstacleSet gridSize)
  <-> unit_step current p /\ free obstacles gridSize p.
Proof.
  unfold neighbors. rewrite filter_In, !andb_true_iff, negb_true_iff.
  rewrite bool_decide_eq_false, obstacleSet_spec.
  unfold free, in_bounds, unit_step. rewrite !Z.geb_le, !Z.ltb_lt.
  destruct current as [cx cy], p as [a b]. cbn.
  split.
  - intros [Hin Hfree]. split; [|intuition lia].
    destruct Hin as [H|[H|[H|[H|[]]]]]; injection H as <- <-; lia.
  - intros [Hstep Hfree]. split; [|intuition lia].
    assert (a = cx + 1 /\ b = cy \/ a = cx - 1 /\ b = cy
            \/ a = cx /\ b = cy + 1 \/ a = cx /\ b = cy - 1) as Hcase by lia.
    destruct Hcase as [[-> ->]|[[-> ->]|[[-> ->]|[-> ->]]]]; auto.
Qed.

Lemma reached_insert (cf : gmap string string) (k v : string) (p : Point) :
  reached start cf p -> reached start (<[k := v]> cf) p.
Proof.
  intros [->|Hsome]; [left; reflexivity|right].
  destruct (decide (k = pointToString p)) as [->|Hne].
  - rewrite lookup_insert_eq. eauto.
  - rewrite lookup_insert_ne by assumption. exact Hsome.
Qed.

Lemma relax_shape (current : Point) (st : PathSearch) (neighbor : Point) :
  links_ok start obstacles gridSize (cameFrom st) ->
  frontier_reached start st ->
  reached start (cameFrom st) current ->
  In neighbor (neighbors current obstacleSet gridSize) ->
  let st' := relax end_ current st neighbor in
  links_ok start obstacles gridSize (cameFrom st')
  /\ frontier_reached start st'
  /\ reached start (cameFrom st') current.
Proof.
  intros Hlinks Hfront Hcur Hn. unfold relax.
  destruct (num_lt _ _); cbn zeta; [|auto].
  apply neighbors_spec in Hn as [Hstep Hfree]. cbn [cameFrom openSet].
  split; [|split].
  - intros k v. destruct (decide (pointToString neighbor = k)) as [<-|Hne].
    + rewrite lookup_insert_eq. intros [= <-].
      exists neighbor, current.
      split; [reflexivity|]. split; [reflexivity|]. split; [exact Hstep|].
      split; [exact Hfree|]. apply reached_insert, Hcur.
    + rewrite lookup_insert_ne by assumption. intros Hkv.
      destruct (Hlinks k v Hkv) as (p & c & -> & -> & Hs & Hf & Hc).
      exists p, c.
      split; [reflexivity|]. split; [reflexivity|]. split; [exact Hs|].
      split; [exact Hf|]. apply reached_insert, Hc.
  - intros e He.
    apply (Permutation_in _ (enqueue_perm _ _ _)) in He as [<-|He].
    + right. cbn. rewrite lookup_insert_eq. eauto.
    + apply reached_insert, Hfront, He.
  - apply reached_insert, Hcur.
Qed.

Lemma expand_shape (current : Point) (l : list Point) (st : PathSearch) :
  (forall n, In n l -> In n (neighbors current obstacleSet gridSize)) ->
  links_ok start obstacles gridSize (cameFrom st) ->
  frontier_reached start st ->
  reached start (cameFrom st) current ->
  let st' := foldl (relax end_ current) st l in
  links_ok start obstacles gridSize (cameFrom st') /\ frontier_reached start st'.
Proof.
  revert st. induction l as [|n l IH]; intros st Hl Hlinks Hfront Hcur; cbn.
  - auto.
  - destruct (relax_shape current st n Hlinks Hfront Hcur) as (H1 & H2 & H3).
    { apply Hl. left. reflexivity. }
    apply IH; auto. intros m Hm. apply Hl. right. exact Hm.
Qed.

(** Walking the links back from a reached point [p] ends at the start, and
    what it prepends proceeds by unit steps onto free cells. *)
Lemma reconstruct_shape (cf : gmap string string) (fuel : nat) (p : Point)
    (acc path : list Point) :
  links_ok start obstacles gridSize cf ->
  reached start cf p ->
  steps obstacles gridSize p acc ->
  reconstruct fuel cf (pointToString p) acc = Returned path ->
  steps obstacles gridSize start path
  /\ exists chain, path = chain ++ acc /\ last (start :: chain) = Some p.
Proof.
  intros Hlinks. revert p acc. induction fuel as [|fuel IH]; intros p acc Hp Hacc;
    cbn; [discriminate|].
  destruct (cf !! pointToString p) as [v|] eqn:Hlook.
  - destruct (Hlinks _ _ Hlook) as (p' & c & Hk & -> & Hstep & Hfree & Hc).
    apply pointToString_inj in Hk as <-.
    rewrite stringToPoint_pointToString. intros Hrun.
    assert (Hacc' : steps obstacles gridSize c (p :: acc)) by (cbn; auto).
    destruct (IH c (p :: acc) Hc Hacc' Hrun) as (Hsteps & chain & -> & Hlast).
    split; [exact Hsteps|].
    exists (chain ++ [p]). split; [rewrite <- app_assoc; reflexivity|].
    rewrite app_comm_cons, last_snoc. reflexivity.
  - intros [= <-]. destruct Hp as [->|[v Hv]]; [|congruence].
    split; [exact Hacc|]. exists []. split; reflexivity.
Qed.

End PathShape.

Lemma same_cell (a b : Point) :
  (x a =? x b) && (y a =? y b) = true <-> a = b.
Proof.
  rewrite andb_true_iff, !Z.eqb_eq. destruct a, b; cbn.
  split; [intros [-> ->]; reflexivity|intros [= -> ->]; auto].
Qed.

Lemma search_shape (start end_ : Point) (obstacles : list Point) (gridSize : Z)
    (fuel rfuel : nat) (st : GridPathfinder.PathSearch) (path : list Point) :
  links_ok start obstacles gridSize (GridPathfinder.cameFrom st) ->
  frontier_reached start st ->
  GridPathfinder.search fuel rfuel start end_
    (list_to_set (pointToString <$> obstacles)) gridSize st = Returned (Some path) ->
  exists rest, path = start :: rest
               /\ steps obstacles gridSize start rest
               /\ last path = Some end_.
Proof.
  revert st. induction fuel as [|fuel IH]; intros st Hlinks Hfront; cbn;
    [discriminate|].
  destruct (PriorityQueue.dequeue (GridPathfinder.openSet st)) as [[current rest]|]
    eqn:Hdeq; [|discriminate].
  apply dequeue_Some in Hdeq as [priority Hq].
  assert (Hcur : reached start (GridPathfinder.cameFrom st) current).
  { apply (Hfront (current, priority)). rewrite Hq. left. reflexivity. }
  destruct ((x current =? x end_) && (y current =? y end_)) eqn:Hend.
  - apply same_cell in Hend as ->. intros Hrun. bind_inv Hrun. injection Hrun as <-.
    destruct (reconstruct_shape start obstacles gridSize _ _ end_ [] r Hlinks Hcur I Hr)
      as (Hsteps & chain & -> & Hlast).
    rewrite app_nil_r in *. eauto.
  - destruct (expand_shape start end_ obstacles gridSize current
                (GridPathfinder.neighbors current
                   (list_to_set (pointToString <$> obstacles)) gridSize)
                {| GridPathfinder.openSet := rest;
                   GridPathfinder.cameFrom := GridPathfinder.cameFrom st;
                   GridPathfinder.gScore := GridPathfinder.gScore st |})
      as [Hlinks' Hfront'].
    + auto.
    + exact Hlinks.
    + intros e He. apply Hfront. rewrite Hq. right. exact He.
    + exact Hcur.
    + apply IH; assumption.
Qed.

Lemma steps_contiguous (obstacles : list Point) (gridSize : Z) (a : Point)
    (l : list Point) :
  steps obstacles gridSize a l ->
  forall (i : nat) (u v : Point),
    (a :: l) !! i = Some u -> (a :: l) !! S i = Some v -> unit_step u v.
Proof.
  revert a. induction l as [|b l IH]; intros a Hsteps i u v Hu Hv.
  - destruct i; discriminate.
  - destruct Hsteps as (Hstep & _ & Hsteps). destruct i as [|i].
    + cbn in Hu, Hv. congruence.
    + apply (IH b Hsteps i); assumption.
Qed.

Lemma steps_free (obstacles : list Point) (gridSize : Z) (a : Point)
    (l : list Point) :
  steps obstacles gridSize a l -> forall p, p ∈ l -> free obstacles gridSize p.
Proof.
  revert a. induction l as [|b l IH]; intros a Hsteps p Hp; [inv Hp|].
  destruct Hsteps as (_ & Hfree & Hsteps).
  apply elem_of_cons in Hp as [->|Hp]; [exact Hfree|]. eapply IH; eassumption.
Qed.

Lemma findPath_steps (fuel : nat) (start end_ : Point) (obstacles : list Point)
    (gridSize : Z) (path : list Point) :
  GridPathfinder.findPath fuel start end_ obstacles gridSize = Returned (Some path) ->
  exists rest, path = start :: rest
               /\ steps obstacles gridSize start rest
               /\ last path = Some end_.
Proof.
  unfold GridPathfinder.findPath. apply search_shape.
  - intros k v. cbn. rewrite lookup_empty. discriminate.
  - intros e He. left.
    apply (Permutation_in _ (enqueue_perm _ _ _)) in He as [<-|[]]. reflexivity.
Qed.

(** C6, as stated, fails: the start is never tested against the grid
    bounds either, and a start outside the grid is the first point of the
    returned path. *)
Lemma findPath_start_out_of_bounds :
  GridPathfinder.findPath 20 (pt (-1) 0) (pt 0 0) [] 1
    = Returned (Some [pt (-1) 0; pt 0 0])
  /\ ~ in_bounds 1 (pt (-1) 0).
Proof.
  split; [vm_compute; reflexivity|]. unfold in_bounds. cbn. lia.
Qed.

(** C6, amended. Every path returned by [findPath] begins at the start, ends
    at the goal and is contiguous (consecutive points differ by exactly one
    unit in exactly one coordinate); every point on it after the first lies
    within the gridSize x gridSize bounds and is not a member of the
    obstacle set.  The start cell is exempt from both tests, which are made
    at neighbour expansion only: it may be an obstacle, and it may lie
    outside the grid; when it lies inside, the whole path does. *)
Theorem findPath_path_shape (fuel : nat) (start end_ : Point)
    (obstacles : list Point) (gridSize : Z) (path : list Point) :
  GridPathfinder.findPath fuel start end_ obstacles gridSize = Returned (Some path) ->
  exists rest,
    path = start :: rest
    /\ last path = Some end_
    /\ (forall (i : nat) (a b : Point),
          path !! i = Some a -> path !! S i = Some b -> unit_step a b)
    /\ (forall p, p ∈ rest -> in_bounds gridSize p /\ p ∉ obstacles)
    /\ (in_bounds gridSize start -> forall p, p ∈ path -> in_bounds gridSize p).
Proof.
  intros Hrun. apply findPath_steps in Hrun as (rest & -> & Hsteps & Hlast).
  exists rest. split; [reflexivity|]. split; [exact Hlast|].
  split; [exact (steps_contiguous _ _ _ _ Hsteps)|].
  split; [exact (steps_free _ _ _ _ Hsteps)|].
  intros Hstart p Hp. apply elem_of_cons in Hp as [->|Hp]; [exact Hstart|].
  apply (steps_free _ _ _ _ Hsteps p Hp).
Qed.

Lemma findPath_path_shape_witness :
  exists rest,
    [pt 0 0; pt 1 0; pt 2 0; pt 2 1; pt 2 2] = pt 0 0 :: rest
    /\ last [pt 0 0; pt 1 0; pt 2 0; pt 2 1; pt 2 2] = Some (pt 2 2)
    /\ (forall (i : nat) (a b : Point),
          [pt 0 0; pt 1 0; pt 2 0; pt 2 1; pt 2 2] !! i = Some a ->
          [pt 0 0; pt 1 0; pt 2 0; pt 2 1; pt 2 2] !! S i = Some b ->
          unit_step a b)
    /\ (forall p, p ∈ rest -> in_bounds 3 p /\ p ∉ [pt 0 0; pt 1 1])
    /\ (in_bounds 3 (pt 0 0) ->
        forall p, p ∈ [pt 0 0; pt 1 0; pt 2 0; pt 2 1; pt 2 2] -> in_bounds 3 p).
Proof.
  apply (findPath_path_shape 50 (pt 0 0) (pt 2 2) [pt 0 0; pt 1 1] 3).
  vm_compute. reflexivity.
Defined.

(** ** The grid pathfinder: a start that gets a predecessor *)

(** Where every link leads to a point that has a link itself, the walk back
    along the links never ends. *)
Lemma reconstruct_never_leaves (cf : gmap string string) :
  (forall k v, cf !! k = Some v -> is_Some (cf !! v)) ->
  forall (fuel : nat) (k : string) (acc : list Point),
    is_Some (cf !! k) -> GridPathfinder.reconstruct fuel cf k acc = OutOfFuel.
Proof.
  intros Hclosed. induction fuel as [|fuel IH]; intros k acc [v Hv]; cbn;
    [reflexivity|].
  rewrite Hv. apply IH. eapply Hclosed, Hv.
Qed.

Lemma search_to_goal (n m : nat) :
  GridPathfinder.search (S (S (S n))) m (pt 0 0) (pt 2 0) ∅ 3
    (GridPathfinder.findPath_init (pt 0 0) (pt 2 0))
  = (path ← GridPathfinder.reconstruct m loopedLinks "2,0" [];
     Returned (Some (pt 0 0 :: path))).
Proof. vm_compute. reflexivity. Qed.

Lemma loopedLinks_closed (k v : string) :
  loopedLinks !! k = Some v -> is_Some (loopedLinks !! v).
Proof.
  assert (H : map_Forall (fun _ v => is_Some (loopedLinks !! v)) loopedLinks)
    by (apply (bool_decide_unpack _); vm_compute; exact I).
  exact (H k v).
Qed.

(** C1, on the code: on an open 3 x 3 grid the goal (2,0) is two steps from
    the start (0,0), and [findPath] returns nothing at all, whatever fuel it
    is given.  Expanding (1,0) finds the g-score 0 of the start, takes it
    for a missing one and gives the start the predecessor (1,0); once the
    goal is dequeued the walk back along the predecessors cycles between
    (0,0) and (1,0). *)
Theorem findPath_open_grid_never_returns (fuel : nat) :
  GridPathfinder.findPath fuel (pt 0 0) (pt 2 0) [] 3 = OutOfFuel.
Proof.
  destruct fuel as [|[|[|n]]]; [reflexivity..|].
  unfold GridPathfinder.findPath. cbn [fmap list_fmap list_to_set foldr].
  change (list_to_set []) with (∅ : gset string).
  rewrite search_to_goal, reconstruct_never_leaves; [reflexivity| |].
  - apply loopedLinks_closed.
  - vm_compute. eauto.
Qed.

(** ** The grid pathfinder: the main loop as an invariant rule *)

Section SearchRule.
Import GridPathfinder.
Variables (start end_ : Point) (obstacleSet : gset string) (gridSize : Z).
Variable I : PathSearch -> Prop.

Hypothesis I_step :
  forall st current priority rest,
    I st -> openSet st = (current, priority) :: rest -> current <> end_ ->
    I (foldl (relax end_ current)
             {| openSet := rest; cameFrom := cameFrom st; gScore := gScore st |}
             (neighbors current obstacleSet gridSize)).

(** What holds at every loop head holds when the goal is dequeued, and the
    returned path is the start followed by what the walk back returns. *)
Lemma search_invariant (fuel rfuel : nat) (st : PathSearch) (path : list Point) :
  I st ->
  search fuel rfuel start end_ obstacleSet gridSize st = Returned (Some path) ->
  exists st' priority rest chain,
    I st' /\ openSet st' = (end_, priority) :: rest
    /\ reconstruct rfuel (cameFrom st') (pointToString end_) [] = Returned chain
    /\ path = start :: chain.
Proof.
  revert st. induction fuel as [|fuel IH]; intros st Hst; cbn; [discriminate|].
  destruct (PriorityQueue.dequeue (openSet st)) as [[current rest]|] eqn:Hdeq;
    [|discriminate].
  apply dequeue_Some in Hdeq as [priority Hq].
  destruct ((x current =? x end_) && (y current =? y end_)) eqn:Hend.
  - apply same_cell in Hend as ->. intros Hrun. bind_inv Hrun. injection Hrun as <-.
    eauto 10.
  - intros Hrun. eapply IH; [|exact Hrun]. eapply I_step; [exact Hst|exact Hq|].
    intros ->. rewrite (proj2 (same_cell end_ end_) eq_refl) in Hend. discriminate.
Qed.

End SearchRule.

(** ** The grid pathfinder: a free start and the length of a returned path *)

Lemma unit_step_sym (a b : Point) : unit_step a b -> unit_step b a.
Proof. unfold unit_step. lia. Qed.

Lemma unit_step_ne (a b : Point) : unit_step a b -> a <> b.
Proof. unfold unit_step. intros H ->. lia. Qed.

Lemma pointToString_ne (p q : Point) : p <> q -> pointToString p <> pointToString q.
Proof. intros Hne Heq. apply Hne, pointToString_inj, Heq. Qed.

Section ShortPaths.
Import GridPathfinder.
Variables (start end_ : Point) (obstacles : list Point) (gridSize : Z).
Hypothesis start_free : free obstacles gridSize start.

Abbreviation obstacleSet := (list_to_set (pointToString <$> obstacles) : gset string).

Lemma relax_start_linked (current : Point) (st : PathSearch) (n : Point) :
  start_linked start st -> start_linked start (relax end_ current st n).
Proof.
  unfold start_linked, relax. destruct (num_lt _ _); cbn [cameFrom]; [|auto].
  intros [v Hv]. destruct (decide (pointToString n = pointToString start)) as [->|Hne].
  - rewrite lookup_insert_eq. eauto.
  - rewrite lookup_insert_ne by assumption. eauto.
Qed.

Lemma expand_start_linked (current : Point) (l : list Point) (st : PathSearch) :
  start_linked start st -> start_linked start (foldl (relax end_ current) st l).
Proof.
  revert st. induction l as [|n l IH]; intros st Hst; cbn; [exact Hst|].
  apply IH, relax_start_linked, Hst.
Qed.

(** Relaxing the start itself, whose g-score is still 0, gives it a
    predecessor. *)
Lemma relax_links_start (current : Point) (st : PathSearch) :
  gScore st !! pointToString start = Some 0 ->
  start_linked start (relax end_ current st start).
Proof.
  intros Hg. unfold start_linked, relax. rewrite Hg. cbn [or_else Z.eqb num_lt].
  cbn [cameFrom]. rewrite lookup_insert_eq. eauto.
Qed.

(** Expanding a point keeps the g-score 0 of the start until the start is
    itself relaxed, which happens when it is among the neighbours. *)
Lemma expand_links_start (current : Point) (l : list Point) (st : PathSearch) :
  gScore st !! pointToString start = Some 0 ->
  let st' := foldl (relax end_ current) st l in
  (In start l -> start_linked start st')
  /\ (~ In start l -> gScore st' !! pointToString start = Some 0).
Proof.
  revert st. induction l as [|n l IH]; intros st Hg; cbn zeta; cbn [foldl].
  - split; [intros []|auto].
  - destruct (decide (n = start)) as [->|Hne].
    + split; [|intros Hout; exfalso; apply Hout; left; reflexivity].
      intros _. apply expand_start_linked, relax_links_start, Hg.
    + assert (Hg' : gScore (relax end_ current st n) !! pointToString start = Some 0).
      { unfold relax. destruct (num_lt _ _); cbn [gScore]; [|exact Hg].
        rewrite lookup_insert_ne by (apply pointToString_ne; exact Hne). exact Hg. }
      destruct (IH _ Hg') as [Hin Hout]. split.
      * intros [Heq|Hl]; [contradiction|auto].
      * intros Hnot. apply Hout. intros Hl. apply Hnot. right. exact Hl.
Qed.

(** Expanding the start itself links its neighbours to it. *)
Lemma expand_from_start (l : list Point) (st : PathSearch) :
  (forall n, In n l -> unit_step start n) ->
  only_start_expanded start st ->
  only_start_expanded start (foldl (relax end_ start) st l).
Proof.
  revert st. induction l as [|n l IH]; intros st Hl Hst; cbn [foldl]; [exact Hst|].
  apply IH; [intros m Hm; apply Hl; right; exact Hm|].
  assert (Hstep : unit_step start n) by (apply Hl; left; reflexivity).
  destruct Hst as (Hg & Hlinks & Hfront). unfold relax.
  destruct (num_lt _ _); [|repeat split; assumption].
  split; [|split]; cbn [gScore cameFrom openSet].
  - rewrite lookup_insert_ne; [exact Hg|].
    apply pointToString_ne. intros ->. exact (unit_step_ne _ _ Hstep eq_refl).
  - intros k v. destruct (decide (pointToString n = k)) as [<-|Hne].
    + rewrite lookup_insert_eq. congruence.
    + rewrite lookup_insert_ne by assumption. apply Hlinks.
  - intros e He. apply (Permutation_in _ (enqueue_perm _ _ _)) in He as [<-|He].
    + right. apply unit_step_sym, Hstep.
    + apply Hfront, He.
Qed.

Lemma short_step (st : PathSearch) (current : Point) (priority : number)
    (rest : PriorityQueue.t Point) :
  start_linked start st \/ only_start_expanded start st ->
  openSet st = (current, priority) :: rest ->
  current <> end_ ->
  let st' := foldl (relax end_ current)
               {| openSet := rest; cameFrom := cameFrom st; gScore := gScore st |}
               (neighbors current obstacleSet gridSize) in
  start_linked start st' \/ only_start_expanded start st'.
Proof.
  intros [Hlinked|Hst] Hq _; cbn zeta.
  { left. apply expand_start_linked. exact Hlinked. }
  destruct Hst as (Hg & Hlinks & Hfront).
  assert (Hcur : current = start \/ unit_step current start).
  { apply (Hfront (current, priority)). rewrite Hq. left. reflexivity. }
  destruct Hcur as [->|Hstep].
  - right. apply expand_from_start.
    + intros n Hn. apply neighbors_spec in Hn as [Hn _]. exact Hn.
    + split; [exact Hg|]. split; [exact Hlinks|].
      intros e He. apply Hfront. rewrite Hq. right. exact He.
  - left.
    apply (expand_links_start current (neighbors current obstacleSet gridSize)
             {| openSet := rest; cameFrom := cameFrom st; gScore := gScore st |} Hg).
    apply neighbors_spec. split; assumption.
Qed.

End ShortPaths.

Lemma links_closed (start : Point) (obstacles : list Point) (gridSize : Z)
    (cf : gmap string string) :
  links_ok start obstacles gridSize cf ->
  is_Some (cf !! pointToString start) ->
  forall k v, cf !! k = Some v -> is_Some (cf !! v).
Proof.
  intros Hlinks Hstart k v Hkv.
  destruct (Hlinks k v Hkv) as (p & c & _ & -> & _ & _ & [->|Hc]); assumption.
Qed.

(** Once the start has a predecessor, the walk back from any linked point
    never returns. *)
Lemma reconstruct_start_linked (start : Point) (obstacles : list Point)
    (gridSize : Z) (cf : gmap string string) (fuel : nat) (k : string)
    (acc : list Point) :
  links_ok start obstacles gridSize cf ->
  is_Some (cf !! pointToString start) ->
  is_Some (cf !! k) ->
  GridPathfinder.reconstruct fuel cf k acc = OutOfFuel.
Proof.
  intros Hlinks Hstart Hk. apply reconstruct_never_leaves; [|exact Hk].
  eapply links_closed; eassumption.
Qed.

Lemma findPath_init_shape (start end_ : Point) (obstacles : list Point)
    (gridSize : Z) :
  let st := GridPathfinder.findPath_init start end_ in
  links_ok start obstacles gridSize (GridPathfinder.cameFrom st)
  /\ frontier_reached start st
  /\ only_start_expanded start st.
Proof.
  cbn zeta. split; [|split].
  - intros k v. cbn. rewrite lookup_empty. discriminate.
  - intros e He. left.
    apply (Permutation_in _ (enqueue_perm _ _ _)) in He as [<-|[]]. reflexivity.
  - split; [|split].
    + cbn. apply lookup_insert_eq.
    + intros k v. cbn. rewrite lookup_empty. discriminate.
    + intros e He. left.
      apply (Permutation_in _ (enqueue_perm _ _ _)) in He as [<-|[]]. reflexivity.
Qed.

(** When the start is a free cell, a path [findPath] returns has two points
    at most: a goal further away makes the start its own ancestor, and the
    walk back never ends. *)
Theorem findPath_free_start_short (fuel : nat) (start end_ : Point)
    (obstacles : list Point) (gridSize : Z) (path : list Point) :
  free obstacles gridSize start ->
  GridPathfinder.findPath fuel start end_ obstacles gridSize = Returned (Some path) ->
  (length path <= 2)%nat.
Proof.
  intros Hfree Hrun. unfold GridPathfinder.findPath in Hrun.
  apply (search_invariant start end_ _ gridSize
           (fun st => links_ok start obstacles gridSize (GridPathfinder.cameFrom st)
                      /\ frontier_reached start st
                      /\ (start_linked start st \/ only_start_expanded start st)))
    in Hrun as (st & priority & rest & chain & (Hlinks & Hfront & Hshort) & Hq & Hrec & ->).
  - destruct fuel as [|fuel]; [discriminate|]. cbn in Hrec.
    destruct (GridPathfinder.cameFrom st !! pointToString end_) as [v|] eqn:Hend;
      [|injection Hrec as <-; cbn; lia].
    destruct Hshort as [Hlinked|(_ & Hpred & _)].
    + rewrite (reconstruct_start_linked start obstacles gridSize) in Hrec;
        try assumption; [discriminate|].
      eapply links_closed; eassumption.
    + rewrite (Hpred _ _ Hend) in Hrec. destruct fuel as [|fuel]; [discriminate|].
      cbn in Hrec.
      destruct (GridPathfinder.cameFrom st !! pointToString start) as [w|] eqn:Hstart.
      * rewrite (reconstruct_start_linked start obstacles gridSize) in Hrec;
          try assumption; [discriminate|rewrite Hstart; eauto|].
        eapply links_closed; [eassumption|rewrite Hstart; eauto|exact Hstart].
      * injection Hrec as <-. cbn. lia.
  - intros st current priority rest (Hlinks & Hfront & Hshort) Hq Hne.
    assert (Hcur : reached start (GridPathfinder.cameFrom st) current).
    { apply (Hfront (current, priority)). rewrite Hq. left. reflexivity. }
    destruct (expand_shape start end_ obstacles gridSize current
                (GridPathfinder.neighbors current
                   (list_to_set (pointToString <$> obstacles)) gridSize)
                {| GridPathfinder.openSet := rest;
                   GridPathfinder.cameFrom := GridPathfinder.cameFrom st;
                   GridPathfinder.gScore := GridPathfinder.gScore st |})
      as [Hlinks' Hfront']; auto.
    { intros e He. apply Hfront. rewrite Hq. right. exact He. }
    split; [exact Hlinks'|]. split; [exact Hfront'|].
    eapply short_step; eassumption.
  - destruct (findPath_init_shape start end_ obstacles gridSize) as (H1 & H2 & H3).
    auto.
Qed.

Lemma findPath_free_start_short_witness :
  (length [pt 0 0; pt 1 0] <= 2)%nat.
Proof.
  apply (findPath_free_start_short 20 (pt 0 0) (pt 1 0) [] 3).
  - unfold free, in_bounds. cbn. split; [lia|]. apply not_elem_of_nil.
  - vm_compute. reflexivity.
Defined.

(** ** The priority queue: order *)

Lemma num_le_refl (a : number) : num_le a a.
Proof. destruct a; cbn; [apply Z.ltb_irrefl|reflexivity]. Qed.

Lemma num_le_trans (a b c : number) : num_le a b -> num_le b c -> num_le a c.
Proof.
  unfold num_le. destruct a, b, c; cbn; try congruence.
  rewrite !Z.ltb_ge. lia.
Qed.

Lemma num_le_total (a b : number) : num_sub_pos a b = true -> num_le b a.
Proof.
  unfold num_le. destruct a, b; cbn; try congruence.
  rewrite Z.ltb_lt, Z.ltb_ge. lia.
Qed.

Lemma num_le_Num (a b : Z) : num_le (Num a) (Num b) <-> a <= b.
Proof. unfold num_le. cbn. rewrite Z.ltb_ge. reflexivity. Qed.

#[local] Instance by_priority_trans {T : Type} : Transitive (@by_priority T).
Proof. intros a b c. apply num_le_trans. Qed.

Lemma insert_sorted_Sorted {T : Type} (e : T * number) (l : PriorityQueue.t T) :
  Sorted by_priority l -> Sorted by_priority (PriorityQueue.insert_sorted e l).
Proof.
  induction 1 as [|e' l Hl IH Hhd]; cbn; [repeat constructor|].
  destruct (num_sub_pos e.2 e'.2) eqn:Hcmp.
  - constructor; [exact IH|].
    destruct Hhd as [|e'' l Hle]; cbn.
    + constructor. apply num_le_total, Hcmp.
    + destruct (num_sub_pos e.2 e''.2); constructor;
        [exact Hle|apply num_le_total, Hcmp].
  - repeat constructor; assumption.
Qed.

Lemma enqueue_sorted {T : Type} (q : PriorityQueue.t T) (item : T) (priority : number) :
  StronglySorted by_priority (PriorityQueue.enqueue q item priority).
Proof.
  apply Sorted_StronglySorted; [apply _|].
  unfold PriorityQueue.enqueue, PriorityQueue.sort.
  induction (q ++ [(item, priority)]) as [|e l IH]; cbn; [constructor|].
  apply insert_sorted_Sorted, IH.
Qed.

Lemma enqueue_In {T : Type} (q : PriorityQueue.t T) (item : T) (priority : number)
    (e : T * number) :
  In e (PriorityQueue.enqueue q item priority) <-> e = (item, priority) \/ In e q.
Proof.
  split; intros H.
  - apply (Permutation_in _ (enqueue_perm _ _ _)) in H as [<-|H]; auto.
  - apply (Permutation_in _ (Permutation_sym (enqueue_perm _ _ _))).
    destruct H as [->|H]; [left; reflexivity|right; exact H].
Qed.

Lemma or_zero_Some (g : Z) : or_zero (Some g) = g.
Proof. unfold or_zero. destruct (Z.eqb_spec g 0); congruence. Qed.

(** ** Distances on the grid *)

Lemma manhattan_unit_step (a b c : Point) :
  unit_step a b -> manhattanDistance a c <= manhattanDistance b c + 1.
Proof. unfold unit_step, manhattanDistance. lia. Qed.

(** A walk to the goal has at least as many steps as the Manhattan distance:
    the heuristic never overestimates. *)
Lemma manhattan_le_steps (obstacles : list Point) (gridSize : Z) (end_ : Point)
    (w : list Point) :
  forall p, steps obstacles gridSize p w -> last (p :: w) = Some end_ ->
            manhattanDistance p end_ <= Z.of_nat (length w).
Proof.
  induction w as [|b w IH]; intros p Hsteps Hlast.
  - cbn in Hlast. injection Hlast as ->. unfold manhattanDistance. cbn. lia.
  - destruct Hsteps as (Hstep & _ & Hsteps).
    rewrite last_cons_cons in Hlast. specialize (IH b Hsteps Hlast).
    pose proof (manhattan_unit_step p b end_ Hstep). cbn [length]. lia.
Qed.

(** With a goal two steps away or more, a free start never gets a path. *)
Theorem findPath_far_goal_no_path (fuel : nat) (start end_ : Point)
    (obstacles : list Point) (gridSize : Z) (path : list Point) :
  free obstacles gridSize start ->
  2 <= manhattanDistance start end_ ->
  GridPathfinder.findPath fuel start end_ obstacles gridSize <> Returned (Some path).
Proof.
  intros Hfree Hfar Hrun.
  pose proof (findPath_free_start_short _ _ _ _ _ _ Hfree Hrun) as Hshort.
  apply findPath_steps in Hrun as (rest & -> & Hsteps & Hlast).
  pose proof (manhattan_le_steps _ _ _ _ _ Hsteps Hlast). cbn [length] in Hshort. lia.
Qed.

(** ** The grid pathfinder: the g-scores while the start has no predecessor *)

Section Scores.
Import GridPathfinder.
Variables (start end_ : Point) (obstacles : list Point) (gridSize : Z).

Abbreviation obstacleSet := (list_to_set (pointToString <$> obstacles) : gset string).
Abbreviation h := (fun p => manhattanDistance p end_).

Lemma scores_nonneg (skip : option Point) (st : PathSearch) (p : Point) (g : Z) :
  scores_ok start end_ obstacleSet gridSize skip st ->
  gScore st !! pointToString p = Some g -> 0 <= g.
Proof.
  intros Hok Hg. destruct (decide (p = start)) as [->|Hne].
  - rewrite (so_start _ _ _ _ _ _ Hok) in Hg. injection Hg as <-. lia.
  - pose proof (so_pos _ _ _ _ _ _ Hok p g Hg Hne). lia.
Qed.

(** A relaxation that fires, on a neighbour other than the start. *)
Lemma relax_fired_scores (current n : Point) (done : list Point) (st : PathSearch)
    (gc : Z) :
  n <> current -> n <> start ->
  scores_ok start end_ obstacleSet gridSize (Some current) st ->
  gScore st !! pointToString current = Some gc ->
  (forall m, In m done ->
     exists gm, gScore st !! pointToString m = Some gm /\ gm <= gc + 1) ->
  (forall g, gScore st !! pointToString n = Some g -> gc + 1 < g) ->
  let st' :=
    {| cameFrom := <[pointToString n := pointToString current]> (cameFrom st);
       gScore := <[pointToString n := gc + 1]> (gScore st);
       openSet := PriorityQueue.enqueue (openSet st) n (Num (gc + 1 + h n)) |} in
  scores_ok start end_ obstacleSet gridSize (Some current) st'
  /\ expanding current (done ++ [n]) st'.
Proof.
  intros Hnc Hns Hok Hgc Hdone Himp st'.
  pose proof (scores_nonneg _ _ _ _ Hok Hgc) as Hgc0.
  assert (Hlook : forall p, p <> n ->
            gScore st' !! pointToString p = gScore st !! pointToString p).
  { intros p Hp. cbn. apply lookup_insert_ne, pointToString_ne. congruence. }
  assert (Hlook_n : gScore st' !! pointToString n = Some (gc + 1)).
  { cbn. apply lookup_insert_eq. }
  assert (Hdown : forall p g, gScore st !! pointToString p = Some g ->
            exists g', gScore st' !! pointToString p = Some g' /\ g' <= g).
  { intros p g Hg. destruct (decide (p = n)) as [->|Hp].
    - exists (gc + 1). split; [exact Hlook_n|]. specialize (Himp g Hg). lia.
    - exists g. rewrite (Hlook p Hp). split; [exact Hg|lia]. }
  split; [constructor|].
  - rewrite (Hlook start) by congruence. apply (so_start _ _ _ _ _ _ Hok).
  - intros p g Hg Hp. destruct (decide (p = n)) as [->|Hpn].
    + rewrite Hlook_n in Hg. injection Hg as <-. lia.
    + rewrite (Hlook p Hpn) in Hg. apply (so_pos _ _ _ _ _ _ Hok p g Hg Hp).
  - intros e He. cbn [openSet st'] in He. apply enqueue_In in He as [->|He].
    + exists (gc + 1). split; [exact Hlook_n|]. apply num_le_refl.
    + destruct (so_front _ _ _ _ _ _ Hok e He) as (g & Hg & Hle).
      destruct (Hdown _ _ Hg) as (g' & Hg' & Hle').
      exists g'. split; [exact Hg'|].
      eapply num_le_trans; [|exact Hle]. apply num_le_Num. lia.
  - intros p g Hg Hskip. destruct (decide (p = n)) as [->|Hpn].
    + rewrite Hlook_n in Hg. injection Hg as <-.
      left. cbn [openSet st']. apply enqueue_In. left. reflexivity.
    + rewrite (Hlook p Hpn) in Hg.
      destruct (so_live _ _ _ _ _ _ Hok p g Hg Hskip) as [Hin|[Hpe Hset]].
      * left. cbn [openSet st']. apply enqueue_In. right. exact Hin.
      * right. split; [exact Hpe|]. intros m Hm.
        destruct (Hset m Hm) as (gm & Hgm & Hle).
        destruct (Hdown _ _ Hgm) as (gm' & Hgm' & Hle'). exists gm'. split; [exact Hgm'|lia].
  - intros p v Hv. cbn [cameFrom st'] in Hv.
    destruct (decide (p = n)) as [->|Hpn].
    + rewrite lookup_insert_eq in Hv. injection Hv as <-.
      exists current, (gc + 1), gc. split; [reflexivity|]. split; [exact Hlook_n|].
      split; [rewrite (Hlook current) by congruence; exact Hgc|lia].
    + rewrite lookup_insert_ne in Hv by (apply pointToString_ne; congruence).
      destruct (so_links _ _ _ _ _ _ Hok p v Hv) as (c & gp & gcc & -> & Hgp & Hgcc & Hle).
      destruct (Hdown _ _ Hgcc) as (gcc' & Hgcc' & Hle').
      exists c, gp, gcc'. split; [reflexivity|].
      split; [rewrite (Hlook p Hpn); exact Hgp|]. split; [exact Hgcc'|lia].
  - cbn [openSet st']. apply enqueue_sorted.
  - exists gc. split; [rewrite (Hlook current) by congruence; exact Hgc|].
    intros m Hm. apply in_app_iff in Hm as [Hm|[<-|[]]].
    + destruct (Hdone m Hm) as (gm & Hgm & Hle).
      destruct (Hdown _ _ Hgm) as (gm' & Hgm' & Hle'). exists gm'. split; [exact Hgm'|lia].
    + exists (gc + 1). split; [exact Hlook_n|lia].
Qed.

Lemma relax_scores (current n : Point) (done : list Point) (st : PathSearch) :
  n <> current ->
  scores_ok start end_ obstacleSet gridSize (Some current) st ->
  expanding current done st ->
  let st' := relax end_ current st n in
  start_linked start st'
  \/ (scores_ok start end_ obstacleSet gridSize (Some current) st'
      /\ expanding current (done ++ [n]) st').
Proof.
  intros Hnc Hok (gc & Hgc & Hdone). cbn zeta.
  destruct (decide (n = start)) as [->|Hns].
  { left. apply relax_links_start, (so_start _ _ _ _ _ _ Hok). }
  right. unfold relax. rewrite Hgc, or_zero_Some.
  destruct (gScore st !! pointToString n) as [gn|] eqn:Hgn.
  - pose proof (so_pos _ _ _ _ _ _ Hok n gn Hgn Hns) as Hpos.
    unfold or_else. destruct (Z.eqb_spec gn 0) as [|_]; [lia|]. cbn [num_lt].
    destruct (Z.ltb_spec (gc + 1) gn) as [Hlt|Hge].
    + apply relax_fired_scores; try assumption.
      intros g Hg. rewrite Hgn in Hg. injection Hg as <-. exact Hlt.
    + split; [exact Hok|]. exists gc. split; [exact Hgc|].
      intros m Hm. apply in_app_iff in Hm as [Hm|[<-|[]]]; [apply Hdone, Hm|].
      exists gn. split; [exact Hgn|lia].
  - cbn [or_else num_lt].
    apply relax_fired_scores; try assumption.
    intros g Hg. rewrite Hgn in Hg. discriminate.
Qed.

Lemma expand_scores (current : Point) (todo : list Point) :
  forall (done : list Point) (st : PathSearch),
    (forall n, In n todo -> n <> current) ->
    scores_ok start end_ obstacleSet gridSize (Some current) st ->
    expanding current done st ->
    let st' := foldl (relax end_ current) st todo in
    start_linked start st'
    \/ (scores_ok start end_ obstacleSet gridSize (Some current) st'
        /\ expanding current (done ++ todo) st').
Proof.
  induction todo as [|n todo IH]; intros done st Hne Hok Hexp; cbn zeta; cbn [foldl].
  - right. rewrite app_nil_r. auto.
  - destruct (relax_scores current n done st) as [Hlinked|[Hok' Hexp']]; auto.
    { apply Hne. left. reflexivity. }
    { left. apply expand_start_linked, Hlinked. }
    replace (done ++ n :: todo) with ((done ++ [n]) ++ todo)
      by (rewrite <- app_assoc; reflexivity).
    apply IH; auto. intros m Hm. apply Hne. right. exact Hm.
Qed.

End Scores.

Section Optimal.
Import GridPathfinder.
Variables (start end_ : Point) (obstacles : list Point) (gridSize : Z).

Abbreviation obstacleSet := (list_to_set (pointToString <$> obstacles) : gset string).

(** One turn of the main loop, from loop head to loop head. *)
Lemma scores_step (st : PathSearch) (current : Point) (priority : number)
    (rest : PriorityQueue.t Point) :
  start_linked start st \/ scores_ok start end_ obstacleSet gridSize None st ->
  openSet st = (current, priority) :: rest ->
  current <> end_ ->
  let st' := foldl (relax end_ current)
               {| openSet := rest; cameFrom := cameFrom st; gScore := gScore st |}
               (neighbors current obstacleSet gridSize) in
  start_linked start st' \/ scores_ok start end_ obstacleSet gridSize None st'.
Proof.
  intros [Hlinked|Hok] Hq Hend; cbn zeta.
  { left. apply expand_start_linked. exact Hlinked. }
  destruct (so_front _ _ _ _ _ _ Hok (current, priority)) as (gc & Hgc & _).
  { rewrite Hq. left. reflexivity. }
  cbn [fst] in Hgc.
  destruct (expand_scores start end_ obstacles gridSize current
              (neighbors current obstacleSet gridSize) []
              {| openSet := rest; cameFrom := cameFrom st; gScore := gScore st |})
    as [Hlinked|[Hok' (gc' & Hgc' & Hdone)]].
  - intros n Hn Heq. subst n. apply neighbors_spec in Hn as [Hn _].
    exact (unit_step_ne _ _ Hn eq_refl).
  - constructor; cbn [gScore cameFrom openSet].
    + apply (so_start _ _ _ _ _ _ Hok).
    + apply (so_pos _ _ _ _ _ _ Hok).
    + intros e He. apply (so_front _ _ _ _ _ _ Hok). rewrite Hq. right. exact He.
    + intros p g Hg Hskip.
      destruct (so_live _ _ _ _ _ _ Hok p g Hg) as [Hin|Hset]; [discriminate| |].
      * left. rewrite Hq in Hin. destruct Hin as [Heq|Hin]; [|exact Hin].
        injection Heq as Heq _. congruence.
      * right. exact Hset.
    + apply (so_links _ _ _ _ _ _ Hok).
    + pose proof (so_sorted _ _ _ _ _ _ Hok) as Hs. rewrite Hq in Hs.
      apply StronglySorted_inv in Hs as [Hs _]. exact Hs.
  - exists gc. split; [exact Hgc|]. intros n [].
  - left. exact Hlinked.
  - right. constructor.
    + apply (so_start _ _ _ _ _ _ Hok').
    + apply (so_pos _ _ _ _ _ _ Hok').
    + apply (so_front _ _ _ _ _ _ Hok').
    + intros p g Hg _. destruct (decide (p = current)) as [->|Hp].
      * right. split; [exact Hend|]. intros n Hn.
        rewrite Hgc' in Hg. injection Hg as <-. apply Hdone. exact Hn.
      * apply (so_live _ _ _ _ _ _ Hok' p g Hg). congruence.
    + apply (so_links _ _ _ _ _ _ Hok').
    + apply (so_sorted _ _ _ _ _ _ Hok').
Qed.

(** Along any walk to the goal from a point with a g-score, the frontier
    holds an element whose priority is at most that g-score plus the number
    of steps left. *)
Lemma frontier_on_walk (st : PathSearch) (w : list Point) :
  scores_ok start end_ obstacleSet gridSize None st ->
  forall (p : Point) (g : Z),
    steps obstacles gridSize p w -> last (p :: w) = Some end_ ->
    gScore st !! pointToString p = Some g ->
    exists e, In e (openSet st) /\ num_le e.2 (Num (g + Z.of_nat (length w))).
Proof.
  intros Hok. induction w as [|b w IH]; intros p g Hsteps Hlast Hg.
  - cbn in Hlast. injection Hlast as ->.
    destruct (so_live _ _ _ _ _ _ Hok end_ g Hg) as [Hin|[Hne _]];
      [discriminate| |contradiction].
    eexists. split; [exact Hin|]. cbn [snd]. apply num_le_Num.
    unfold manhattanDistance. cbn. lia.
  - pose proof (manhattan_le_steps _ _ _ _ _ Hsteps Hlast) as Hadm.
    destruct Hsteps as (Hstep & Hfree & Hsteps). rewrite last_cons_cons in Hlast.
    destruct (so_live _ _ _ _ _ _ Hok p g Hg) as [Hin|[_ Hset]]; [discriminate| |].
    + eexists. split; [exact Hin|]. cbn [snd]. apply num_le_Num. lia.
    + destruct (Hset b) as (gb & Hgb & Hle).
      { apply neighbors_spec. split; assumption. }
      destruct (IH b gb Hsteps Hlast Hgb) as (e & He & Hpr).
      exists e. split; [exact He|]. eapply num_le_trans; [exact Hpr|].
      apply num_le_Num. cbn [length]. lia.
Qed.

(** The walk back from a point prepends no more points than its g-score. *)
Lemma reconstruct_length (st : PathSearch) (fuel : nat) :
  scores_ok start end_ obstacleSet gridSize None st ->
  forall (p : Point) (acc path : list Point) (g : Z),
    reconstruct fuel (cameFrom st) (pointToString p) acc = Returned path ->
    gScore st !! pointToString p = Some g ->
    exists chain, path = chain ++ acc /\ Z.of_nat (length chain) <= g.
Proof.
  intros Hok. induction fuel as [|fuel IH]; intros p acc path g Hrun Hg; cbn in Hrun;
    [discriminate|].
  destruct (cameFrom st !! pointToString p) as [v|] eqn:Hv.
  - destruct (so_links _ _ _ _ _ _ Hok p v Hv) as (c & gp & gc & -> & Hgp & Hgc & Hle).
    rewrite stringToPoint_pointToString in Hrun.
    destruct (IH c (p :: acc) path gc Hrun Hgc) as (chain & -> & Hlen).
    exists (chain ++ [p]). split; [rewrite <- app_assoc; reflexivity|].
    rewrite length_app. cbn [length]. rewrite Hg in Hgp. injection Hgp as <-. lia.
  - injection Hrun as <-. exists []. split; [reflexivity|].
    pose proof (scores_nonneg _ _ _ _ _ _ _ _ Hok Hg). cbn. lia.
Qed.

Lemma findPath_init_scores :
  scores_ok start end_ obstacleSet gridSize None (findPath_init start end_).
Proof.
  unfold findPath_init. constructor; cbn [gScore cameFrom openSet].
  - apply lookup_insert_eq.
  - intros p g Hg Hne. rewrite lookup_insert_ne, lookup_empty in Hg
      by (apply pointToString_ne; congruence). discriminate.
  - intros e He. apply enqueue_In in He as [->|[]]. cbn [fst snd].
    exists 0. split; [apply lookup_insert_eq|]. apply num_le_Num. lia.
  - intros p g Hg _. left. apply enqueue_In. left.
    destruct (decide (p = start)) as [->|Hne].
    + rewrite lookup_insert_eq in Hg. injection Hg as <-. reflexivity.
    + rewrite lookup_insert_ne, lookup_empty in Hg
        by (apply pointToString_ne; congruence). discriminate.
  - intros p v Hv. rewrite lookup_empty in Hv. discriminate.
  - apply enqueue_sorted.
Qed.

End Optimal.

(** X5. Whenever [findPath] returns a path, no walk from the start to the goal
    by unit steps onto free cells has fewer points: the length of the
    returned path minus 1 is the minimum number of steps. *)
Theorem findPath_returned_path_is_shortest (fuel : nat) (start end_ : Point)
    (obstacles : list Point) (gridSize : Z) (path w : list Point) :
  GridPathfinder.findPath fuel start end_ obstacles gridSize = Returned (Some path) ->
  steps obstacles gridSize start w ->
  last (start :: w) = Some end_ ->
  (length path <= length (start :: w))%nat.
Proof.
  intros Hrun Hsteps Hlast. unfold GridPathfinder.findPath in Hrun.
  apply (search_invariant start end_ _ gridSize
           (fun st => links_ok start obstacles gridSize (GridPathfinder.cameFrom st)
                      /\ frontier_reached start st
                      /\ (start_linked start st
                          \/ scores_ok start end_
                               (list_to_set (pointToString <$> obstacles)) gridSize
                               None st)))
    in Hrun as (st & priority & rest & chain & (Hlinks & Hfront & Hscores) & Hq & Hrec & ->).
  - cbn [length]. apply le_n_S.
    destruct Hscores as [Hlinked|Hok].
    + destruct fuel as [|fuel]; [discriminate|]. cbn in Hrec.
      destruct (GridPathfinder.cameFrom st !! pointToString end_) as [v|] eqn:Hend;
        [|injection Hrec as <-; cbn; lia].
      rewrite (reconstruct_start_linked start obstacles gridSize) in Hrec;
        try assumption; [discriminate|].
      eapply links_closed; eassumption.
    + destruct (so_front _ _ _ _ _ _ Hok (end_, priority)) as (ge & Hge & Hle).
      { rewrite Hq. left. reflexivity. }
      cbn [fst snd] in Hge, Hle.
      destruct (reconstruct_length start end_ obstacles gridSize st fuel Hok
                  end_ [] chain ge Hrec Hge) as (chain' & -> & Hlen).
      rewrite app_nil_r.
      destruct (frontier_on_walk start end_ obstacles gridSize st w Hok start 0
                  Hsteps Hlast (so_start _ _ _ _ _ _ Hok)) as (e & He & Hpr).
      assert (Hmin : num_le priority e.2).
      { pose proof (so_sorted _ _ _ _ _ _ Hok) as Hs. rewrite Hq in Hs, He.
        apply StronglySorted_inv in Hs as [_ Hall].
        destruct He as [<-|He]; [apply num_le_refl|].
        rewrite List.Forall_forall in Hall. apply (Hall e He). }
      pose proof (num_le_trans _ _ _ Hle (num_le_trans _ _ _ Hmin Hpr)) as Hfinal.
      apply num_le_Num in Hfinal.
      assert (manhattanDistance end_ end_ = 0) by (unfold manhattanDistance; lia).
      lia.
  - intros st current priority rest (Hlinks & Hfront & Hscores) Hq Hne.
    assert (Hcur : reached start (GridPathfinder.cameFrom st) current).
    { apply (Hfront (current, priority)). rewrite Hq. left. reflexivity. }
    destruct (expand_shape start end_ obstacles gridSize current
                (GridPathfinder.neighbors current
                   (list_to_set (pointToString <$> obstacles)) gridSize)
                {| GridPathfinder.openSet := rest;
                   GridPathfinder.cameFrom := GridPathfinder.cameFrom st;
                   GridPathfinder.gScore := GridPathfinder.gScore st |})
      as [Hlinks' Hfront']; auto.
    { intros e He. apply Hfront. rewrite Hq. right. exact He. }
    split; [exact Hlinks'|]. split; [exact Hfront'|].
    eapply scores_step; eassumption.
  - destruct (findPath_init_shape start end_ obstacles gridSize) as (H1 & H2 & _).
    split; [exact H1|]. split; [exact H2|]. right. apply findPath_init_scores.
Qed.

(** On a grid without obstacles, whenever [findPath] returns a path from a
    start inside the grid, the length of the path minus 1 is the Manhattan
    distance between the start and the goal. *)
Theorem findPath_open_grid_manhattan (fuel : nat) (start end_ : Point)
    (gridSize : Z) (path : list Point) :
  in_bounds gridSize start ->
  GridPathfinder.findPath fuel start end_ [] gridSize = Returned (Some path) ->
  path_cost path = manhattanDistance start end_.
Proof.
  intros Hstart Hrun.
  assert (Hfree : free [] gridSize start) by (split; [exact Hstart|apply not_elem_of_nil]).
  pose proof (findPath_free_start_short _ _ _ _ _ _ Hfree Hrun) as Hshort.
  apply findPath_steps in Hrun as (rest & -> & Hsteps & Hlast).
  destruct rest as [|b [|c rest]]; cbn [length] in Hshort; [| |lia].
  - cbn in Hlast. injection Hlast as <-. unfold path_cost, manhattanDistance. cbn. lia.
  - cbn in Hlast. injection Hlast as <-. destruct Hsteps as (Hstep & _).
    unfold path_cost, manhattanDistance. unfold unit_step in Hstep. cbn. lia.
Qed.

Lemma findPath_returned_path_is_shortest_witness :
  (length [pt 0 0; pt 1 0; pt 2 0; pt 2 1; pt 2 2]
   <= length [pt 0 0; pt 0 1; pt 0 2; pt 1 2; pt 2 2])%nat.
Proof.
  apply (findPath_returned_path_is_shortest 50 (pt 0 0) (pt 2 2) [pt 0 0; pt 1 1] 3
           [pt 0 0; pt 1 0; pt 2 0; pt 2 1; pt 2 2] [pt 0 1; pt 0 2; pt 1 2; pt 2 2]).
  - vm_compute. reflexivity.
  - unfold steps, free, in_bounds, unit_step. cbn.
    repeat split; try lia; apply (bool_decide_unpack _); vm_compute; exact I.
  - reflexivity.
Defined.

Lemma findPath_open_grid_manhattan_witness :
  path_cost [pt 0 0; pt 1 0] = manhattanDistance (pt 0 0) (pt 1 0).
Proof.
  apply (findPath_open_grid_manhattan 20 (pt 0 0) (pt 1 0) 3).
  - unfold in_bounds. cbn. lia.
  - vm_compute. reflexivity.
Defined.

(** ** More fuel never changes a result *)

Lemma reconstruct_fuel_mono (cf : gmap string string) (n m : nat) :
  (n <= m)%nat ->
  forall (k : string) (acc path : list Point),
    GridPathfinder.reconstruct n cf k acc = Returned path ->
    GridPathfinder.reconstruct m cf k acc = Returned path.
Proof.
  revert m. induction n as [|n IH]; intros m Hle k acc path; cbn; [discriminate|].
  destruct m as [|m]; [lia|]. cbn.
  destruct (cf !! k); [|auto]. apply IH. lia.
Qed.

Lemma search_fuel_mono (start end_ : Point) (obstacleSet : gset string) (gridSize : Z)
    (n m rn rm : nat) :
  (n <= m)%nat -> (rn <= rm)%nat ->
  forall (st : GridPathfinder.PathSearch) (r : option (list Point)),
    GridPathfinder.search n rn start end_ obstacleSet gridSize st = Returned r ->
    GridPathfinder.search m rm start end_ obstacleSet gridSize st = Returned r.
Proof.
  intros Hnm Hr. revert m Hnm. induction n as [|n IH]; intros m Hnm st r; cbn;
    [discriminate|].
  destruct m as [|m]; [lia|]. cbn.
  destruct (PriorityQueue.dequeue (GridPathfinder.openSet st)) as [[current rest]|];
    [|auto].
  destruct ((x current =? x end_) && (y current =? y end_)).
  - intros Hrun. bind_inv Hrun.
    rewrite (reconstruct_fuel_mono _ rn rm Hr _ _ _ Hr0). exact Hrun.
  - apply IH. lia.
Qed.

Lemma findPath_fuel_mono (n m : nat) (start end_ : Point) (obstacles : list Point)
    (gridSize : Z) (r : option (list Point)) :
  (n <= m)%nat ->
  GridPathfinder.findPath n start end_ obstacles gridSize = Returned r ->
  GridPathfinder.findPath m start end_ obstacles gridSize = Returned r.
Proof. intros Hle. apply search_fuel_mono; exact Hle. Qed.

Lemma for_of_mono {S A : Type} (body body' : S -> A -> outcome S) (l : list A) :
  (forall s a s', body s a = Returned s' -> body' s a = Returned s') ->
  forall s s', for_of body l s = Returned s' -> for_of body' l s = Returned s'.
Proof.
  intros Hbody. induction l as [|a l IH]; intros s s'; cbn; [auto|].
  intros Hrun. bind_inv Hrun. rewrite (Hbody _ _ _ Hr). cbn. apply IH, Hrun.
Qed.

Lemma getSuccessors_fuel_mono (n m : nat) (state : WorldState)
    (goalItems : list string) (shelves : list Shelf) (collectionPoint : Point)
    (obstacles : list Point) (gridSize : Z) (actions : list Action) :
  (n <= m)%nat ->
  getSuccessors n state goalItems shelves collectionPoint obstacles gridSize
    = Returned actions ->
  getSuccessors m state goalItems shelves collectionPoint obstacles gridSize
    = Returned actions.
Proof.
  intros Hle. unfold getSuccessors. destruct (held state).
  - intros Hrun. bind_inv Hrun. rewrite (findPath_fuel_mono n m _ _ _ _ _ Hle Hr).
    exact Hrun.
  - apply for_of_mono. intros acc shelf acc' Hrun. bind_inv Hrun.
    rewrite (findPath_fuel_mono n m _ _ _ _ _ Hle Hr). exact Hrun.
Qed.

Lemma heuristic_fuel_mono (n m : nat) (state : WorldState) (goalItems : list string)
    (collectionPoint : Point) (obstacles : list Point) (gridSize : Z) (h : number) :
  (n <= m)%nat ->
  heuristic n state goalItems collectionPoint obstacles gridSize = Returned h ->
  heuristic m state goalItems collectionPoint obstacles gridSize = Returned h.
Proof.
  intros Hle. unfold heuristic. destruct (held state); [|auto].
  intros Hrun. bind_inv Hrun. rewrite (findPath_fuel_mono n m _ _ _ _ _ Hle Hr).
  exact Hrun.
Qed.

Section PlannerFuel.
Variable localeCompare : string -> string -> Z.
Variables (n m : nat) (goalItems : list string) (shelves : list Shelf)
  (collectionPoint : Point) (obstacles : list Point) (gridSize : Z).
Hypothesis fuel_le : (n <= m)%nat.

Lemma expand_fuel_mono (currentState : WorldState) (currentPath : list Action)
    (currentStateKey : string) (st st' : PlanSearch) (action : Action) :
  expand localeCompare n goalItems collectionPoint obstacles gridSize currentState
    currentPath currentStateKey st action = Returned st' ->
  expand localeCompare m goalItems collectionPoint obstacles gridSize currentState
    currentPath currentStateKey st action = Returned st'.
Proof.
  unfold expand. destruct (num_lt _ _); [|auto].
  intros Hrun. bind_inv Hrun. rewrite (heuristic_fuel_mono n m _ _ _ _ _ _ fuel_le Hr).
  exact Hrun.
Qed.

Lemma plan_iteration_fuel_mono (iterations : Z) (st : PlanSearch)
    (r : PlannerExit + Z * PlanSearch) :
  plan_iteration localeCompare n goalItems shelves collectionPoint obstacles gridSize
    iterations st = Returned r ->
  plan_iteration localeCompare m goalItems shelves collectionPoint obstacles gridSize
    iterations st = Returned r.
Proof.
  unfold plan_iteration.
  destruct (PriorityQueue.isEmpty (openSet st)); [auto|].
  destruct (_ >? maxIterations); [auto|].
  destruct (PriorityQueue.dequeue (openSet st)) as [[[currentState currentPath] rest]|];
    [|auto].
  destruct (isGoal currentState goalItems); [auto|].
  intros Hrun. bind_inv Hrun. bind_inv Hrun.
  rewrite (getSuccessors_fuel_mono n m _ _ _ _ _ _ _ fuel_le Hr). cbn.
  assert (Hfor : for_of
            (expand localeCompare m goalItems collectionPoint obstacles gridSize
               currentState currentPath (stateToString localeCompare currentState))
            r0 {| openSet := rest; gScore := gScore st; fScore := fScore st |}
          = Returned r1).
  { eapply for_of_mono; [|exact Hr0]. intros s a s'. apply expand_fuel_mono. }
  rewrite Hfor. exact Hrun.
Qed.

Lemma plan_loop_fuel_mono (k : nat) (iterations : Z) (st : PlanSearch)
    (e : PlannerExit) :
  plan_loop localeCompare k n goalItems shelves collectionPoint obstacles gridSize
    iterations st = Returned e ->
  plan_loop localeCompare k m goalItems shelves collectionPoint obstacles gridSize
    iterations st = Returned e.
Proof.
  revert iterations st. induction k as [|k IH]; intros iterations st; cbn; [auto|].
  intros Hrun. bind_inv Hrun. rewrite (plan_iteration_fuel_mono _ _ _ Hr). cbn.
  destruct r as [e'|[iterations' st']]; [exact Hrun|]. apply IH, Hrun.
Qed.

(** A result [aStarPlanner] returns with some fuel is the result it returns
    with any larger fuel. *)
Lemma aStarPlanner_fuel_mono (initialState : WorldState)
    (r : option PlannerResult) :
  aStarPlanner localeCompare n initialState goalItems shelves collectionPoint
    obstacles gridSize = Returned r ->
  aStarPlanner localeCompare m initialState goalItems shelves collectionPoint
    obstacles gridSize = Returned r.
Proof.
  unfold aStarPlanner, aStarPlanner_exit, aStarPlanner_init.
  intros Hrun. bind_inv Hrun. bind_inv Hr. bind_inv Hr0.
  rewrite (heuristic_fuel_mono n m _ _ _ _ _ _ fuel_le Hr1). cbn [mbind outcome_bind].
  injection Hr0 as <-. rewrite (plan_loop_fuel_mono _ _ _ _ Hr). exact Hrun.
Qed.

End PlannerFuel.

(** The main loop counts its turns up to [maxIterations]: once it may make
    the turns left to that count and one more, more turns change nothing. *)
Lemma plan_loop_turns_enough (localeCompare : string -> string -> Z) (fuel : nat)
    (goalItems : list string) (shelves : list Shelf) (collectionPoint : Point)
    (obstacles : list Point) (gridSize : Z) (n : nat) :
  forall (k : nat) (iterations : Z) (st : PlanSearch),
    (n <= k)%nat ->
    iterations <= maxIterations ->
    maxIterations - iterations < Z.of_nat n ->
    plan_loop localeCompare k fuel goalItems shelves collectionPoint obstacles gridSize
      iterations st
    = plan_loop localeCompare n fuel goalItems shelves collectionPoint obstacles
        gridSize iterations st.
Proof.
  induction n as [|n IH]; intros k iterations st Hnk Hit Hn; [lia|].
  destruct k as [|k]; [lia|]. cbn [plan_loop].
  destruct (plan_iteration localeCompare fuel goalItems shelves collectionPoint
              obstacles gridSize iterations st) as [[e|[iterations' st']]|] eqn:Hturn;
    cbn [mbind outcome_bind]; try reflexivity.
  assert (iterations' = iterations + 1 /\ iterations + 1 <= maxIterations)
    as [-> Hle].
  { unfold plan_iteration in Hturn.
    destruct (PriorityQueue.isEmpty (openSet st)); [discriminate|].
    destruct (Z.gtb_spec (iterations + 1) maxIterations); [discriminate|].
    destruct (PriorityQueue.dequeue (openSet st)) as [[[s p] rest]|]; [|discriminate].
    destruct (isGoal s goalItems); [discriminate|].
    bind_inv Hturn. bind_inv Hturn. injection Hturn as <- _. lia. }
  apply IH; lia.
Qed.

(** ** A run that exhausts the iteration budget *)

Lemma length_append (s t : string) :
  String.length (s +:+ t) = (String.length s + String.length t)%nat.
Proof.
  induction s as [|c s IH]; [reflexivity|].
  rewrite append_cons. cbn. rewrite IH. reflexivity.
Qed.

Lemma entries_weight_perm (l1 l2 : list (string * string)) :
  Permutation l1 l2 -> entries_weight l1 = entries_weight l2.
Proof.
  unfold entries_weight. induction 1; cbn; try lia.
Qed.

Lemma entries_weight_app (l1 l2 : list (string * string)) :
  entries_weight (l1 ++ l2) = (entries_weight l1 + entries_weight l2)%nat.
Proof.
  unfold entries_weight. induction l1 as [|e l1 IH]; cbn; [reflexivity|].
  rewrite IH. lia.
Qed.

Lemma join_comma_length (l : list (string * string)) :
  String.length (join_comma ((fun e => e.1 +:+ ":" +:+ e.2) <$> l))
  = (entries_weight l - 1)%nat.
Proof.
  induction l as [|e l IH]; [reflexivity|].
  destruct l as [|e' l].
  - cbn. rewrite !length_append. cbn. lia.
  - change (String.length
              ((e.1 +:+ ":" +:+ e.2) +:+ "," +:+
               join_comma ((fun e => e.1 +:+ ":" +:+ e.2) <$> e' :: l))
            = (entries_weight (e :: e' :: l) - 1)%nat).
    rewrite !length_append, IH. cbn. lia.
Qed.

(** The length of a key, from the lengths of its parts. *)
Lemma stateToString_length (localeCompare : string -> string -> Z)
    (state : WorldState) :
  String.length (stateToString localeCompare state)
  = (String.length (numToString (x (robotPos state)))
     + String.length (numToString (y (robotPos state)))
     + String.length (match holding state with Some item => item | None => "null" end)
     + 3 + (entries_weight (itemLocations state) - 1))%nat.
Proof.
  unfold stateToString. rewrite !length_append, join_comma_length.
  rewrite (entries_weight_perm _ _ (sort_entries_perm localeCompare (itemLocations state))).
  cbn. lia.
Qed.

Lemma delivered_cons (name : string) (done : list string) :
  delivered (name :: done) = (name, "collectionPoint") :: delivered done.
Proof. reflexivity. Qed.

Lemma get_loc_delivered_in (done : list string) (item : string) :
  In item done -> get_loc (delivered done) item = Some "collectionPoint".
Proof.
  induction done as [|name done IH]; intros Hin; [destruct Hin|].
  rewrite delivered_cons. cbn [get_loc].
  destruct (String.eqb_spec name item) as [_|Hne]; [reflexivity|].
  destruct Hin as [Heq|Hin]; [contradiction|]. apply IH, Hin.
Qed.

Lemma get_loc_delivered_out (done : list string) (item loc : string) :
  ~ In item done ->
  get_loc (delivered done ++ [(item, loc)]) item = Some loc
  /\ get_loc (delivered done) item = None.
Proof.
  induction done as [|name done IH]; intros Hout.
  - cbn. rewrite String.eqb_refl. auto.
  - rewrite delivered_cons. cbn [get_loc app].
    destruct (String.eqb_spec name item) as [->|_].
    + exfalso. apply Hout. left. reflexivity.
    + apply IH. intros Hin. apply Hout. right. exact Hin.
Qed.

Lemma set_loc_delivered_new (done : list string) (item loc : string) :
  ~ In item done -> item <> "__proto__" -> arrayIndex item = None ->
  set_loc (delivered done) item loc = delivered done ++ [(item, loc)].
Proof.
  intros Hout Hne Hindex. unfold set_loc.
  destruct (get_loc_delivered_out done item loc Hout) as [_ ->].
  destruct (String.eqb_spec item "__proto__"); [contradiction|].
  rewrite Hindex. reflexivity.
Qed.

Lemma update_loc_delivered_last (done : list string) (item loc loc' : string) :
  ~ In item done ->
  update_loc (delivered done ++ [(item, loc)]) item loc'
  = delivered done ++ [(item, loc')].
Proof.
  induction done as [|name done IH]; intros Hout.
  - cbn. rewrite String.eqb_refl. reflexivity.
  - rewrite delivered_cons. cbn [update_loc app].
    destruct (String.eqb_spec name item) as [->|_].
    + exfalso. apply Hout. left. reflexivity.
    + rewrite IH; [reflexivity|]. intros Hin. apply Hout. right. exact Hin.
Qed.

Lemma set_loc_delivered_last (done : list string) (item loc loc' : string) :
  ~ In item done ->
  set_loc (delivered done ++ [(item, loc)]) item loc' = delivered done ++ [(item, loc')].
Proof.
  intros Hout. unfold set_loc.
  destruct (get_loc_delivered_out done item loc Hout) as [-> _].
  apply update_loc_delivered_last, Hout.
Qed.

Lemma delivered_snoc (done : list string) (name : string) :
  delivered (done ++ [name]) = delivered done ++ [(name, "collectionPoint")].
Proof. unfold delivered. rewrite fmap_app. reflexivity. Qed.

Lemma entries_weight_delivered_pos (done : list string) (e : string * string) :
  (0 < entries_weight (delivered done ++ [e]))%nat.
Proof. rewrite entries_weight_app. cbn. lia. Qed.

Lemma find_pointwise {A : Type} (f g : A -> bool) (l : list A) :
  (forall a, f a = g a) -> List.find f l = List.find g l.
Proof.
  intros Hfg. induction l as [|a l IH]; cbn; [reflexivity|].
  rewrite Hfg, IH. reflexivity.
Qed.

Lemma find_after_prefix (done rest : list string) (name : string) :
  (forall item, item ∈ done -> item ∉ name :: rest) ->
  List.find (fun item => bool_decide (item ∈ name :: rest)) (done ++ name :: rest)
  = Some name.
Proof.
  induction done as [|d done IH]; intros Hdisj; cbn [app List.find].
  - rewrite bool_decide_true by left. reflexivity.
  - rewrite bool_decide_false by (apply Hdisj; left).
    apply IH. intros item Hd. apply Hdisj. right. exact Hd.
Qed.

Section Chain.
Variable localeCompare : string -> string -> Z.
Variables (fuel : nat) (obstacles : list Point) (gridSize : Z).
Variable names : list string.
Hypothesis names_NoDup : NoDup names.
Hypothesis names_short :
  forall name, In name names -> name <> "" /\ (String.length name < 14)%nat.
Hypothesis names_plain :
  forall name, In name names -> name <> "__proto__" /\ arrayIndex name = None.

(** With [done] delivered and the hand empty, the one successor is the Pick
    of the next item of the shelf. *)
Lemma getSuccessors_deliveredState (done rest : list string) (name : string) :
  names = done ++ name :: rest ->
  getSuccessors (S fuel) (deliveredState done) names (oneShelf names) (pt 0 0)
    obstacles gridSize
  = Returned [PICK name "S" 1].
Proof.
  intros Hnames.
  assert (Hnd : NoDup (done ++ name :: rest)) by (rewrite <- Hnames; exact names_NoDup).
  apply NoDup_app in Hnd as (_ & Hdisj & _).
  assert (Hneeded : forall item,
            includes
              (List.filter
                 (fun item =>
                    negb (loc_is (delivered done) item "collectionPoint")
                    && negb (loc_is (delivered done) item "robot")) names) item
            = bool_decide (item ∈ name :: rest)).
  { intros item. apply eq_true_iff_eq.
    rewrite includes_spec, filter_In, bool_decide_eq_true, Hnames, in_app_iff.
    rewrite list_elem_of_In.
    rewrite andb_true_iff, !negb_true_iff. unfold loc_is. split.
    - intros [[Hin|Hin] [Hcp _]]; [|exact Hin].
      rewrite (get_loc_delivered_in done item Hin) in Hcp. discriminate.
    - intros Hin. split; [right; exact Hin|].
      assert (Hout : ~ In item done).
      { intros Hd. apply (Hdisj item); apply list_elem_of_In; assumption. }
      destruct (get_loc_delivered_out done item "" Hout) as [_ ->]. auto. }
  unfold getSuccessors, oneShelf.
  cbn [held deliveredState holding robotPos itemLocations].
  cbn [List.find pos x y pt]. rewrite !Z.eqb_refl. cbn [andb items id].
  assert (Hfind : List.find
            (includes
               (List.filter
                  (fun item =>
                     negb (loc_is (delivered done) item "collectionPoint")
                     && negb (loc_is (delivered done) item "robot")) names))
            names = Some name).
  { rewrite (find_pointwise _ _ names Hneeded), Hnames.
    apply find_after_prefix, Hdisj. }
  rewrite Hfind.
  assert (Hname : In name names) by (rewrite Hnames; apply in_elt).
  destruct (names_short name Hname) as [Hne _].
  apply truthy_spec in Hne. rewrite Hne.
  assert (Hexists : existsb
            (includes
               (List.filter
                  (fun item =>
                     negb (loc_is (delivered done) item "collectionPoint")
                     && negb (loc_is (delivered done) item "robot")) names))
            names = true).
  { apply existsb_exists. exists name. split; [exact Hname|].
    rewrite Hneeded. apply bool_decide_eq_true. left. }
  cbn [List.filter items]. rewrite Hexists. cbn [for_of pos pt].
  rewrite (findPath_same_cell fuel (pt 0 0) obstacles gridSize).
  reflexivity.
Qed.

(** With an item in the hand, the one successor is its Drop. *)
Lemma getSuccessors_carryingState (done : list string) (name : string) :
  In name names ->
  getSuccessors (S fuel) (carryingState done name) names (oneShelf names) (pt 0 0)
    obstacles gridSize
  = Returned [DROP name 1].
Proof.
  intros Hname. destruct (names_short name Hname) as [Hne _].
  unfold getSuccessors.
  rewrite (held_Some (carryingState done name) name eq_refl Hne).
  cbn [carryingState robotPos].
  rewrite (findPath_same_cell fuel (pt 0 0) obstacles gridSize).
  reflexivity.
Qed.

Lemma heuristic_returns (state : WorldState) :
  robotPos state = pt 0 0 ->
  exists h, heuristic (S fuel) state names (pt 0 0) obstacles gridSize = Returned h.
Proof.
  intros Hpos. unfold heuristic. destruct (held state); [|eauto].
  rewrite Hpos.
  rewrite (findPath_same_cell fuel (pt 0 0) obstacles gridSize).
  cbn. eauto.
Qed.

Lemma applyAction_pick (done : list string) (name shelfId : string) (c : Z) :
  In name names -> ~ In name done ->
  applyAction (deliveredState done) (PICK name shelfId c) = carryingState done name.
Proof.
  intros Hname Hout. destruct (names_plain name Hname) as [Hne Hindex].
  unfold applyAction, deliveredState, carryingState. cbn.
  rewrite set_loc_delivered_new by assumption. reflexivity.
Qed.

Lemma applyAction_drop (done : list string) (name : string) (c : Z) :
  ~ In name done ->
  applyAction (carryingState done name) (DROP name c) = deliveredState (done ++ [name]).
Proof.
  intros Hout. unfold applyAction, deliveredState, carryingState. cbn.
  rewrite set_loc_delivered_last by assumption. rewrite delivered_snoc. reflexivity.
Qed.

Lemma isGoal_deliveredState (done rest : list string) (name : string) :
  names = done ++ name :: rest ->
  isGoal (deliveredState done) names = false.
Proof.
  intros Hnames. apply not_true_is_false. intros Hgoal.
  assert (Hnd : NoDup (done ++ name :: rest)) by (rewrite <- Hnames; exact names_NoDup).
  apply NoDup_app in Hnd as (_ & Hdisj & _).
  assert (Hname : In name names) by (rewrite Hnames; apply in_elt).
  pose proof (proj1 (isGoal_spec _ _) Hgoal name Hname) as Hloc. cbn in Hloc.
  assert (Hout : ~ In name done).
  { intros Hd. apply (Hdisj name); [apply list_elem_of_In; exact Hd|left]. }
  destruct (get_loc_delivered_out done name "" Hout) as [_ Hnone]. congruence.
Qed.

Lemma isGoal_carryingState (done : list string) (name : string) :
  In name names -> ~ In name done ->
  isGoal (carryingState done name) names = false.
Proof.
  intros Hname Hout. apply not_true_is_false. intros Hgoal.
  pose proof (proj1 (isGoal_spec _ _) Hgoal name Hname) as Hloc. cbn in Hloc.
  destruct (get_loc_delivered_out done name "robot" Hout) as [Hrobot _]. congruence.
Qed.

(** Picking makes the key longer, and so does dropping an item whose name
    is shorter than the 14 characters the drop adds. *)
Lemma key_longer_pick (done : list string) (name : string) :
  (String.length (stateToString localeCompare (deliveredState done))
   < String.length (stateToString localeCompare (carryingState done name)))%nat.
Proof.
  rewrite !stateToString_length. cbn [deliveredState carryingState robotPos holding
                                       itemLocations].
  rewrite entries_weight_app. cbn. lia.
Qed.

Lemma key_longer_drop (done : list string) (name : string) :
  (String.length name < 14)%nat ->
  (String.length (stateToString localeCompare (carryingState done name))
   < String.length (stateToString localeCompare (deliveredState (done ++ [name]))))%nat.
Proof.
  intros Hshort.
  rewrite !stateToString_length. cbn [deliveredState carryingState robotPos holding
                                       itemLocations].
  rewrite delivered_snoc, !entries_weight_app. cbn. lia.
Qed.

End Chain.

(** A successor whose key is longer than every recorded key is recorded and
    pushed. *)
Lemma expand_longer_key (localeCompare : string -> string -> Z) (fuel : nat)
    (goalItems : list string) (collectionPoint : Point) (obstacles : list Point)
    (gridSize : Z) (currentState : WorldState) (currentPath : list Action)
    (st : PlanSearch) (action : Action) (h : number) :
  let nextState := applyAction currentState action in
  keys_within localeCompare (gScore st) currentState ->
  (String.length (stateToString localeCompare currentState)
   < String.length (stateToString localeCompare nextState))%nat ->
  heuristic fuel nextState goalItems collectionPoint obstacles gridSize = Returned h ->
  exists st',
    expand localeCompare fuel goalItems collectionPoint obstacles gridSize
      currentState currentPath (stateToString localeCompare currentState) st action
    = Returned st'
    /\ openSet st' = PriorityQueue.enqueue (openSet st)
                       (nextState, currentPath ++ [action])
                       (num_add (Num (or_zero (gScore st !! stateToString localeCompare
                                                                currentState)
                                      + cost action)) h)
    /\ keys_within localeCompare (gScore st') nextState.
Proof.
  intros nextState Hkeys Hlonger Hh. unfold expand. fold nextState.
  destruct (gScore st !! stateToString localeCompare nextState) as [g|] eqn:Hlook.
  { exfalso. specialize (Hkeys _ (mk_is_Some _ _ Hlook)). lia. }
  cbn [or_else num_lt]. rewrite Hh. cbn.
  eexists. split; [reflexivity|]. split; [reflexivity|].
  cbn [record_and_push gScore]. intros k.
  destruct (decide (stateToString localeCompare nextState = k)) as [<-|Hne].
  - intros _. lia.
  - rewrite lookup_insert_ne by assumption. intros Hsome.
    specialize (Hkeys _ Hsome). lia.
Qed.

(** A turn of the main loop on a frontier of one state with one successor,
    whose key is longer. *)
Lemma plan_iteration_single (localeCompare : string -> string -> Z) (fuel : nat)
    (goalItems : list string) (shelves : list Shelf) (collectionPoint : Point)
    (obstacles : list Point) (gridSize : Z) (iterations : Z)
    (state : WorldState) (p : list Action) (priority : number)
    (g : gmap string Z) (f : gmap string number) (action : Action) (h : number) :
  let nextState := applyAction state action in
  iterations < maxIterations ->
  isGoal state goalItems = false ->
  getSuccessors fuel state goalItems shelves collectionPoint obstacles gridSize
    = Returned [action] ->
  keys_within localeCompare g state ->
  (String.length (stateToString localeCompare state)
   < String.length (stateToString localeCompare nextState))%nat ->
  heuristic fuel nextState goalItems collectionPoint obstacles gridSize = Returned h ->
  exists priority' g' f',
    plan_iteration localeCompare fuel goalItems shelves collectionPoint obstacles
      gridSize iterations {| openSet := [(state, p, priority)]; gScore := g; fScore := f |}
    = Returned (inr (iterations + 1,
                     {| openSet := [(nextState, p ++ [action], priority')];
                        gScore := g'; fScore := f' |}))
    /\ keys_within localeCompare g' nextState.
Proof.
  intros nextState Hbudget Hgoal Hsucc Hkeys Hlonger Hh.
  unfold plan_iteration. cbn [openSet PriorityQueue.isEmpty PriorityQueue.dequeue fst].
  destruct (Z.gtb_spec (iterations + 1) maxIterations) as [Hgt|_]; [lia|].
  rewrite Hgoal, Hsucc. cbn [mbind outcome_bind for_of gScore fScore].
  destruct (expand_longer_key localeCompare fuel goalItems collectionPoint obstacles
              gridSize state p {| openSet := []; gScore := g; fScore := f |} action h
              Hkeys Hlonger Hh) as (st' & -> & Hopen & Hkeys').
  destruct st' as [q' g' f']. cbn [openSet gScore] in Hopen, Hkeys'.
  cbn. rewrite Hopen. eexists _, g', f'. split; [reflexivity|exact Hkeys'].
Qed.

(** Once the count has reached the budget, the next turn is the budget
    exit, provided the frontier is not empty. *)
Lemma plan_loop_budget_spent (localeCompare : string -> string -> Z) (n fuel : nat)
    (goalItems : list string) (shelves : list Shelf) (collectionPoint : Point)
    (obstacles : list Point) (gridSize : Z) (st : PlanSearch) :
  openSet st <> [] ->
  plan_loop localeCompare (S n) fuel goalItems shelves collectionPoint obstacles
    gridSize maxIterations st = Returned TimedOut.
Proof.
  intros Hq. cbn [plan_loop]. unfold plan_iteration.
  destruct (openSet st); [contradiction|]. reflexivity.
Qed.

Section ChainRun.
Variable localeCompare : string -> string -> Z.
Variables (fuel : nat) (obstacles : list Point) (gridSize : Z).
Variable names : list string.
Hypothesis names_NoDup : NoDup names.
Hypothesis names_short :
  forall name, In name names -> name <> "" /\ (String.length name < 14)%nat.
Hypothesis names_plain :
  forall name, In name names -> name <> "__proto__" /\ arrayIndex name = None.

(** From a frontier holding the one state with [done] delivered, the loop
    goes on two turns per item, and leaves by the budget when the items
    outlast it. *)
Lemma plan_loop_chain (rest : list string) :
  forall (done : list string) (p : list Action) (priority : number)
         (g : gmap string Z) (f : gmap string number) (iterations : Z) (n : nat),
    names = done ++ rest ->
    0 <= iterations <= maxIterations ->
    maxIterations - iterations <= 2 * Z.of_nat (length rest) ->
    maxIterations - iterations < Z.of_nat n ->
    keys_within localeCompare g (deliveredState done) ->
    plan_loop localeCompare n (S fuel) names (oneShelf names) (pt 0 0) obstacles
      gridSize iterations
      {| openSet := [(deliveredState done, p, priority)]; gScore := g; fScore := f |}
    = Returned TimedOut.
Proof.
  induction rest as [|name rest IH];
    intros done p priority g f iterations n Hnames Hit Hrest Hn Hkeys.
  - cbn in Hrest. assert (iterations = maxIterations) as -> by lia.
    destruct n as [|n]; [lia|]. apply plan_loop_budget_spent. discriminate.
  - destruct (decide (iterations = maxIterations)) as [->|Hne].
    { destruct n as [|n]; [lia|]. apply plan_loop_budget_spent. discriminate. }
    assert (Hnd : NoDup (done ++ name :: rest)) by (rewrite <- Hnames; exact names_NoDup).
    apply NoDup_app in Hnd as (_ & Hdisj & _).
    assert (Hout : ~ In name done).
    { intros Hd. apply (Hdisj name); [apply list_elem_of_In; exact Hd|left]. }
    assert (Hname : In name names) by (rewrite Hnames; apply in_elt).
    destruct (names_short name Hname) as [_ Hshort].
    (* the turn that picks [name] *)
    destruct n as [|n]; [lia|]. cbn [plan_loop].
    destruct (heuristic_returns fuel obstacles gridSize names (carryingState done name)
                eq_refl) as [h1 Hh1].
    destruct (plan_iteration_single localeCompare (S fuel) names (oneShelf names)
                (pt 0 0) obstacles gridSize iterations (deliveredState done) p priority
                g f (PICK name "S" 1) h1) as (pr1 & g1 & f1 & -> & Hkeys1).
    { lia. }
    { eapply isGoal_deliveredState; eassumption. }
    { eapply getSuccessors_deliveredState; eassumption. }
    { exact Hkeys. }
    { rewrite (applyAction_pick names names_plain) by assumption. apply key_longer_pick. }
    { rewrite (applyAction_pick names names_plain) by assumption. exact Hh1. }
    cbn [mbind outcome_bind]. rewrite (applyAction_pick names names_plain) in * by assumption.
    destruct (decide (iterations + 1 = maxIterations)) as [->|Hne1].
    { destruct n as [|n]; [lia|]. apply plan_loop_budget_spent. discriminate. }
    (* the turn that drops it *)
    destruct n as [|n]; [lia|]. cbn [plan_loop].
    destruct (heuristic_returns fuel obstacles gridSize names
                (deliveredState (done ++ [name])) eq_refl) as [h2 Hh2].
    destruct (plan_iteration_single localeCompare (S fuel) names (oneShelf names)
                (pt 0 0) obstacles gridSize (iterations + 1) (carryingState done name)
                (p ++ [PICK name "S" 1]) pr1 g1 f1 (DROP name 1) h2)
      as (pr2 & g2 & f2 & -> & Hkeys2).
    { lia. }
    { apply isGoal_carryingState; assumption. }
    { apply getSuccessors_carryingState; assumption. }
    { exact Hkeys1. }
    { rewrite applyAction_drop by assumption. apply key_longer_drop, Hshort. }
    { rewrite applyAction_drop by assumption. exact Hh2. }
    cbn [mbind outcome_bind]. rewrite applyAction_drop in * by assumption.
    apply IH.
    + rewrite <- app_assoc. exact Hnames.
    + lia.
    + cbn [length] in Hrest. lia.
    + lia.
    + exact Hkeys2.
Qed.

(** A goal of 2500 items or more on the one shelf exhausts the budget of
    5000 iterations. *)
Lemma aStarPlanner_chain_times_out :
  (2500 <= length names)%nat ->
  aStarPlanner_exit localeCompare (S fuel) (deliveredState []) names (oneShelf names)
    (pt 0 0) obstacles gridSize
  = Returned TimedOut.
Proof.
  intros Hmany. unfold aStarPlanner_exit, aStarPlanner_init.
  destruct (heuristic_returns fuel obstacles gridSize names (deliveredState []) eq_refl)
    as [h ->].
  cbn [mbind outcome_bind].
  apply (plan_loop_chain names []).
  - reflexivity.
  - unfold maxIterations. lia.
  - unfold maxIterations. lia.
  - rewrite Nat2Z.inj_succ, Z2Nat.id; unfold maxIterations; lia.
  - intros k [v Hv]. destruct (decide (stateToString localeCompare (deliveredState []) = k))
      as [<-|Hne]; [lia|].
    rewrite lookup_insert_ne, lookup_empty in Hv by assumption. discriminate.
Qed.

End ChainRun.

Lemma numToString_inj (a b : Z) : numToString a = numToString b -> a = b.
Proof.
  intros H. rewrite <- (parseNumber_numToString a), H. apply parseNumber_numToString.
Qed.

Lemma itemNames_NoDup (pre : string) (n : nat) : NoDup (itemNames pre n).
Proof.
  unfold itemNames. apply NoDup_fmap_2; [|apply NoDup_seq].
  intros i j H. apply String.app_inj, numToString_inj in H. lia.
Qed.

Lemma manyNames_short (name : string) :
  In name manyNames -> name <> "" /\ (String.length name < 14)%nat.
Proof.
  assert (H : forallb (fun name => truthy name && (String.length name <? 14)%nat)
                manyNames = true) by (vm_compute; reflexivity).
  rewrite forallb_forall in H. intros Hin. specialize (H name Hin).
  apply andb_true_iff in H as [Htruthy Hlen].
  apply truthy_spec in Htruthy. apply Nat.ltb_lt in Hlen. auto.
Qed.

Lemma manyNames_plain (name : string) :
  In name manyNames -> name <> "__proto__" /\ arrayIndex name = None.
Proof.
  assert (H : forallb (fun name => negb (String.eqb name "__proto__")
                                   && bool_decide (arrayIndex name = None))
                manyNames = true) by (vm_compute; reflexivity).
  rewrite forallb_forall in H. intros Hin. specialize (H name Hin).
  apply andb_true_iff in H as [Hne Hindex].
  apply negb_true_iff, String.eqb_neq in Hne. apply bool_decide_eq_true in Hindex. auto.
Qed.

(** ** The two failures of the planner *)

(** The run for 2500 items on one shelf leaves by the iteration budget. *)
Lemma manyNames_times_out :
  aStarPlanner_exit codePointCompare 1 emptyHanded manyNames (oneShelf manyNames)
    (pt 0 0) [] 1
  = Returned TimedOut.
Proof.
  apply (aStarPlanner_chain_times_out codePointCompare 0 [] 1 manyNames).
  - apply itemNames_NoDup.
  - apply manyNames_short.
  - apply manyNames_plain.
  - unfold manyNames, itemNames. rewrite length_fmap, length_seq. reflexivity.
Qed.

(** The run towards an unreachable collection point leaves by the empty
    frontier. *)
Lemma unreachable_collection_point_no_path :
  aStarPlanner_exit codePointCompare 20 twoShelvesStart ["ItemA"; "ItemB"]
    twoShelves (pt 5 5) [] 2
  = Returned NoPathFound.
Proof. vm_compute. reflexivity. Qed.

(** C3, as stated, fails: one run leaves by the iteration budget, the other
    by the empty frontier, and both return the same value. *)
Lemma aStarPlanner_failures_return_the_same :
  aStarPlanner_exit codePointCompare 1 emptyHanded manyNames (oneShelf manyNames)
    (pt 0 0) [] 1
    = Returned TimedOut
  /\ aStarPlanner_exit codePointCompare 20 twoShelvesStart ["ItemA"; "ItemB"]
       twoShelves (pt 5 5) [] 2
     = Returned NoPathFound
  /\ aStarPlanner codePointCompare 1 emptyHanded manyNames (oneShelf manyNames)
       (pt 0 0) [] 1
     = aStarPlanner codePointCompare 20 twoShelvesStart ["ItemA"; "ItemB"]
         twoShelves (pt 5 5) [] 2.
Proof.
  split; [exact manyNames_times_out|].
  split; [exact unreachable_collection_point_no_path|].
  unfold aStarPlanner.
  rewrite manyNames_times_out, unreachable_collection_point_no_path. reflexivity.
Qed.

(** C3, amended. When [aStarPlanner] fails, its return value does not
    distinguish the two causes: for every pair of runs where one fails by
    exceeding the 5000-iteration budget and the other by emptying the
    frontier, both return [null].  The causes differ in the console only,
    where the budget exit alone has written a message. *)
Theorem aStarPlanner_failures_both_null
    (localeCompare1 localeCompare2 : string -> string -> Z) (fuel1 fuel2 : nat)
    (initialState1 initialState2 : WorldState) (goalItems1 goalItems2 : list string)
    (shelves1 shelves2 : list Shelf) (collectionPoint1 collectionPoint2 : Point)
    (obstacles1 obstacles2 : list Point) (gridSize1 gridSize2 : Z) :
  aStarPlanner_exit localeCompare1 fuel1 initialState1 goalItems1 shelves1
    collectionPoint1 obstacles1 gridSize1 = Returned TimedOut ->
  aStarPlanner_exit localeCompare2 fuel2 initialState2 goalItems2 shelves2
    collectionPoint2 obstacles2 gridSize2 = Returned NoPathFound ->
  aStarPlanner localeCompare1 fuel1 initialState1 goalItems1 shelves1
    collectionPoint1 obstacles1 gridSize1 = Returned None
  /\ aStarPlanner localeCompare2 fuel2 initialState2 goalItems2 shelves2
       collectionPoint2 obstacles2 gridSize2 = Returned None
  /\ console_output TimedOut <> [] /\ console_output NoPathFound = [].
Proof.
  intros Hbudget Hempty. unfold aStarPlanner. rewrite Hbudget, Hempty.
  repeat split. discriminate.
Qed.

Lemma aStarPlanner_failures_both_null_witness :
  aStarPlanner codePointCompare 1 emptyHanded manyNames (oneShelf manyNames)
    (pt 0 0) [] 1 = Returned None
  /\ aStarPlanner codePointCompare 20 twoShelvesStart ["ItemA"; "ItemB"]
       twoShelves (pt 5 5) [] 2 = Returned None
  /\ console_output TimedOut <> [] /\ console_output NoPathFound = [].
Proof.
  apply aStarPlanner_failures_both_null.
  - exact manyNames_times_out.
  - exact unreachable_collection_point_no_path.
Defined.

(** * Further properties of the code *)

(** ** The priority queue *)

Lemma sort_sorted_all {T : Type} (l : PriorityQueue.t T) :
  StronglySorted by_priority (PriorityQueue.sort l).
Proof.
  apply Sorted_StronglySorted; [apply _|].
  unfold PriorityQueue.sort. induction l as [|e l IH]; cbn; [constructor|].
  apply insert_sorted_Sorted, IH.
Qed.

(** X1. After [enqueue], the queue is never empty; [dequeue] takes out an
    item whose priority is least among all the elements, and what it leaves
    are, with that item, exactly the old elements and the new one, still in
    ascending order of priority.  This holds whatever order the queue was in
    before. *)
Theorem enqueue_dequeue_least {T : Type} (q : PriorityQueue.t T) (item : T)
    (priority : number) :
  exists (x : T) (px : number) (rest : PriorityQueue.t T),
    PriorityQueue.dequeue (PriorityQueue.enqueue q item priority) = Some (x, rest)
    /\ Permutation ((x, px) :: rest) ((item, priority) :: q)
    /\ Forall (fun e => num_le px e.2) rest
    /\ StronglySorted by_priority rest.
Proof.
  pose proof (enqueue_perm q item priority) as Hperm.
  pose proof (sort_sorted_all (q ++ [(item, priority)])) as Hsorted.
  fold (PriorityQueue.enqueue q item priority) in Hsorted.
  destruct (PriorityQueue.enqueue q item priority) as [|[x px] rest] eqn:Hq.
  - apply Permutation_nil_cons in Hperm. contradiction.
  - exists x, px, rest. split; [reflexivity|]. split; [exact Hperm|].
    apply StronglySorted_inv in Hsorted as [Hrest Hall]. split; [exact Hall|exact Hrest].
Qed.

Lemma by_priority_below {T : Type} (a : T * number) (p : number) (l : PriorityQueue.t T) :
  Forall (by_priority a) l -> num_sub_pos a.2 p = true ->
  List.filter (fun e => negb (num_sub_pos e.2 p)) l = []
  /\ List.filter (fun e => num_sub_pos e.2 p) l = l.
Proof.
  intros Hall Ha. induction Hall as [|e l He Hall IH]; cbn; [auto|].
  assert (Hep : num_sub_pos e.2 p = true).
  { unfold by_priority, num_le in He.
    destruct a.2, e.2, p; cbn in *; try congruence.
    rewrite Z.ltb_lt in *. rewrite Z.ltb_ge in He. lia. }
  rewrite Hep. cbn. destruct IH as [-> ->]. auto.
Qed.

Lemma insert_sorted_front {T : Type} (a : T * number) (l : PriorityQueue.t T) :
  match l with [] => True | e :: _ => by_priority a e end ->
  PriorityQueue.insert_sorted a l = a :: l.
Proof.
  destruct l as [|e l]; [reflexivity|]. cbn. unfold by_priority, num_le.
  intros ->. reflexivity.
Qed.

Lemma enqueue_sorted_split {T : Type} (q : PriorityQueue.t T) (item : T)
    (priority : number) :
  StronglySorted by_priority q ->
  foldr PriorityQueue.insert_sorted [(item, priority)] q
  = List.filter (fun e => negb (num_sub_pos e.2 priority)) q
    ++ (item, priority) :: List.filter (fun e => num_sub_pos e.2 priority) q.
Proof.
  induction 1 as [|a q Hq IH Hall]; [reflexivity|].
  cbn [foldr List.filter]. rewrite IH.
  destruct (num_sub_pos a.2 priority) eqn:Ha; cbn [negb].
  - destruct (by_priority_below a priority q Hall Ha) as [-> ->]. cbn [app].
    cbn [PriorityQueue.insert_sorted snd]. rewrite Ha.
    rewrite insert_sorted_front; [reflexivity|].
    destruct q as [|e q]; [exact I|]. apply Forall_inv in Hall. exact Hall.
  - cbn [app]. apply insert_sorted_front.
    destruct (List.filter _ q) as [|e l] eqn:Hf; cbn [app].
    + exact Ha.
    + assert (He : In e q).
      { apply (proj1 (filter_In (fun e => negb (num_sub_pos e.2 priority)) e q)).
        rewrite Hf. left. reflexivity. }
      rewrite List.Forall_forall in Hall. apply Hall, He.
Qed.

(** X2. Ties are served first in, first out: on a queue in ascending order
    of priority, [enqueue] puts the new element after every element whose
    priority is not greater than its own, the ones of equal priority
    included, and before all the others, whose order it keeps. *)
Theorem enqueue_after_ties {T : Type} (q : PriorityQueue.t T) (item : T)
    (priority : number) :
  StronglySorted by_priority q ->
  PriorityQueue.enqueue q item priority
  = List.filter (fun e => negb (num_sub_pos e.2 priority)) q
    ++ (item, priority) :: List.filter (fun e => num_sub_pos e.2 priority) q.
Proof.
  intros Hsorted. unfold PriorityQueue.enqueue, PriorityQueue.sort.
  rewrite foldr_app. cbn [foldr PriorityQueue.insert_sorted].
  apply enqueue_sorted_split, Hsorted.
Qed.

Lemma enqueue_after_ties_witness :
  PriorityQueue.enqueue [("a", Num 1); ("b", Num 3); ("c", Infinity)] "d" (Num 3)
  = [("a", Num 1); ("b", Num 3); ("d", Num 3); ("c", Infinity)].
Proof.
  apply (enqueue_after_ties [("a", Num 1); ("b", Num 3); ("c", Infinity)] "d" (Num 3)).
  repeat constructor.
Defined.

(** ** Distances and keys *)

(** X3. [manhattanDistance] is a metric on points: it is never negative, it
    is 0 exactly between a point and itself, it is symmetric, and it obeys
    the triangle inequality.  As an estimate it is admissible: no walk by
    unit steps leads from a point to another in fewer steps than their
    distance, whatever the obstacles. *)
Theorem manhattanDistance_metric (a b c : Point) :
  0 <= manhattanDistance a b
  /\ (manhattanDistance a b = 0 <-> a = b)
  /\ manhattanDistance a b = manhattanDistance b a
  /\ manhattanDistance a c <= manhattanDistance a b + manhattanDistance b c
  /\ forall obstacles gridSize w,
       steps obstacles gridSize a w -> last (a :: w) = Some b ->
       manhattanDistance a b <= Z.of_nat (length w).
Proof.
  split; [|split; [|split; [|split]]].
  - unfold manhattanDistance. lia.
  - unfold manhattanDistance. destruct a as [ax ay], b as [bx by_]. cbn. split.
    + intros H. f_equal; lia.
    + intros [= -> ->]. lia.
  - unfold manhattanDistance. lia.
  - unfold manhattanDistance. lia.
  - intros obstacles gridSize w. revert a.
    induction w as [|p w IH]; intros a Hsteps Hlast.
    + cbn in Hlast. injection Hlast as ->. unfold manhattanDistance. cbn. lia.
    + destruct Hsteps as (Hstep & _ & Hsteps). rewrite last_cons_cons in Hlast.
      specialize (IH p Hsteps Hlast). cbn [length].
      unfold unit_step in Hstep. unfold manhattanDistance in *. lia.
Qed.

(** X4. [stringToPoint] reads back every key [pointToString] writes, so two
    points have the same key only when they are the same point: the maps of
    [findPath] never confuse two cells. *)
Theorem point_key_round_trip (p q : Point) :
  stringToPoint (pointToString p) = p
  /\ (pointToString p = pointToString q <-> p = q).
Proof.
  split; [apply stringToPoint_pointToString|].
  split; [apply pointToString_inj|intros ->; reflexivity].
Qed.

(** ** The grid pathfinder: a goal that can be walked to is never given up *)

Section SearchExit.
Import GridPathfinder.
Variables (start end_ : Point) (obstacleSet : gset string) (gridSize : Z).
Variable I : PathSearch -> Prop.

Hypothesis I_step :
  forall st current priority rest,
    I st -> openSet st = (current, priority) :: rest -> current <> end_ ->
    I (foldl (relax end_ current)
             {| openSet := rest; cameFrom := cameFrom st; gScore := gScore st |}
             (neighbors current obstacleSet gridSize)).

(** What holds at every loop head holds when the loop ends on an empty
    frontier. *)
Lemma search_invariant_null (fuel rfuel : nat) (st : PathSearch) :
  I st ->
  search fuel rfuel start end_ obstacleSet gridSize st = Returned None ->
  exists st', I st' /\ openSet st' = [].
Proof.
  revert st. induction fuel as [|fuel IH]; intros st Hst; cbn; [discriminate|].
  destruct (PriorityQueue.dequeue (openSet st)) as [[current rest]|] eqn:Hdeq.
  - apply dequeue_Some in Hdeq as [priority Hq].
    destruct ((x current =? x end_) && (y current =? y end_)) eqn:Hend.
    + intros Hrun. bind_inv Hrun. discriminate.
    + intros Hrun. eapply IH; [|exact Hrun]. eapply I_step; [exact Hst|exact Hq|].
      intros ->. rewrite (proj2 (same_cell end_ end_) eq_refl) in Hend. discriminate.
  - intros _. exists st. split; [exact Hst|].
    destruct (openSet st); [reflexivity|discriminate].
Qed.

End SearchExit.

Section Coverage.
Import GridPathfinder.
Variables (start end_ : Point) (obstacles : list Point) (gridSize : Z).

Abbreviation obstacleSet := (list_to_set (pointToString <$> obstacles) : gset string).

Lemma relax_seen (current n p : Point) (st : PathSearch) :
  seen st p -> seen (relax end_ current st n) p.
Proof.
  unfold seen, relax. destruct (num_lt _ _); cbn [gScore]; [|auto].
  intros Hp. destruct (decide (pointToString n = pointToString p)) as [->|Hne].
  - rewrite lookup_insert_eq. eauto.
  - rewrite lookup_insert_ne by assumption. exact Hp.
Qed.

Lemma relax_seen_neighbor (current n : Point) (st : PathSearch) :
  seen (relax end_ current st n) n.
Proof.
  unfold seen, relax. destruct (num_lt _ _) eqn:Hlt; cbn [gScore].
  - rewrite lookup_insert_eq. eauto.
  - destruct (gScore st !! pointToString n) as [g|]; [eauto|].
    cbn in Hlt. discriminate.
Qed.

Lemma expand_seen (current p : Point) (l : list Point) (st : PathSearch) :
  seen st p -> seen (foldl (relax end_ current) st l) p.
Proof.
  revert st. induction l as [|n l IH]; intros st Hp; cbn [foldl]; [exact Hp|].
  apply IH, relax_seen, Hp.
Qed.

Lemma expand_seen_neighbors (current : Point) (l : list Point) (st : PathSearch) :
  forall n, In n l -> seen (foldl (relax end_ current) st l) n.
Proof.
  revert st. induction l as [|m l IH]; intros st n Hn; [destruct Hn|].
  cbn [foldl]. destruct Hn as [->|Hn]; [|apply IH, Hn].
  apply expand_seen, relax_seen_neighbor.
Qed.

Lemma expanded_mono (current n p : Point) (st : PathSearch) :
  expanded end_ obstacleSet gridSize st p ->
  expanded end_ obstacleSet gridSize (relax end_ current st n) p.
Proof.
  intros [Hne Hall]. split; [exact Hne|]. intros m Hm. apply relax_seen, Hall, Hm.
Qed.

Lemma relax_complete (current n : Point) (st : PathSearch) :
  frontier_complete end_ obstacleSet gridSize (Some current) st ->
  frontier_complete end_ obstacleSet gridSize (Some current) (relax end_ current st n).
Proof.
  intros Hst p Hp.
  destruct (decide (seen st p)) as [Hold|Hnew].
  - destruct (Hst p Hold) as [Hskip|[[priority Hq]|Hexp]].
    + left. exact Hskip.
    + right. left. exists priority. unfold relax.
      destruct (num_lt _ _); cbn [openSet]; [|exact Hq].
      apply enqueue_In. right. exact Hq.
    + right. right. apply expanded_mono, Hexp.
  - right. left. revert Hp. unfold seen, relax in *.
    destruct (num_lt _ _); cbn [gScore openSet]; [|contradiction].
    destruct (decide (pointToString n = pointToString p)) as [Heq|Hne].
    + apply pointToString_inj in Heq as ->. intros _. eexists.
      apply enqueue_In. left. reflexivity.
    + rewrite lookup_insert_ne by assumption. contradiction.
Qed.

Lemma expand_complete (current : Point) (l : list Point) (st : PathSearch) :
  frontier_complete end_ obstacleSet gridSize (Some current) st ->
  frontier_complete end_ obstacleSet gridSize (Some current)
    (foldl (relax end_ current) st l).
Proof.
  revert st. induction l as [|n l IH]; intros st Hst; cbn [foldl]; [exact Hst|].
  apply IH, relax_complete, Hst.
Qed.

Lemma complete_step (st : PathSearch) (current : Point) (priority : number)
    (rest : PriorityQueue.t Point) :
  frontier_complete end_ obstacleSet gridSize None st ->
  openSet st = (current, priority) :: rest ->
  current <> end_ ->
  frontier_complete end_ obstacleSet gridSize None
    (foldl (relax end_ current)
       {| openSet := rest; cameFrom := cameFrom st; gScore := gScore st |}
       (neighbors current obstacleSet gridSize)).
Proof.
  intros Hst Hq Hne p Hp.
  destruct (expand_complete current (neighbors current obstacleSet gridSize)
              {| openSet := rest; cameFrom := cameFrom st; gScore := gScore st |})
    with (p := p) as [Hskip|[Hqueued|Hexp]].
  - intros q Hq'. destruct (Hst q Hq') as [Hskip|[[pr Hin]|Hexp]].
    + discriminate.
    + rewrite Hq in Hin. destruct Hin as [[= -> ->]|Hin].
      * left. reflexivity.
      * right. left. exists pr. exact Hin.
    + right. right. exact Hexp.
  - exact Hp.
  - injection Hskip as ->. right. right. split; [exact Hne|].
    apply expand_seen_neighbors.
  - right. left. exact Hqueued.
  - right. right. exact Hexp.
Qed.

Lemma findPath_init_complete :
  frontier_complete end_ obstacleSet gridSize None (findPath_init start end_).
Proof.
  intros p [g Hg]. right. left. cbn in Hg.
  destruct (decide (pointToString start = pointToString p)) as [Heq|Hne].
  - apply pointToString_inj in Heq as <-. eexists. cbn. left. reflexivity.
  - rewrite lookup_insert_ne, lookup_empty in Hg by assumption. discriminate.
Qed.

(** With an empty frontier, every cell that can be walked to from a point
    with a g-score has one too, and none of them is the goal. *)
Lemma empty_frontier_closed (st : PathSearch) (w : list Point) :
  frontier_complete end_ obstacleSet gridSize None st ->
  openSet st = [] ->
  forall p, seen st p -> steps obstacles gridSize p w -> last (p :: w) <> Some end_.
Proof.
  intros Hst Hq. induction w as [|b w IH]; intros p Hp Hsteps.
  - cbn. intros [= ->]. destruct (Hst end_ Hp) as [Hskip|[[pr Hin]|[Hne _]]].
    + discriminate.
    + rewrite Hq in Hin. destruct Hin.
    + contradiction.
  - destruct Hsteps as (Hstep & Hfree & Hsteps). rewrite last_cons_cons.
    apply IH; [|exact Hsteps].
    destruct (Hst p Hp) as [Hskip|[[pr Hin]|[_ Hall]]].
    + discriminate.
    + rewrite Hq in Hin. destruct Hin.
    + apply Hall, neighbors_spec. split; assumption.
Qed.

Lemma findPath_connected_not_null (fuel : nat) :
  connected obstacles gridSize start end_ ->
  findPath fuel start end_ obstacles gridSize <> Returned None.
Proof.
  intros (w & Hsteps & Hlast) Hrun. unfold findPath in Hrun.
  apply (search_invariant_null start end_ _ gridSize
           (fun st => frontier_complete end_ obstacleSet gridSize None st
                      /\ seen st start))
    in Hrun as (st & [Hst Hstart] & Hq).
  - exact (empty_frontier_closed st w Hst Hq start Hstart Hsteps Hlast).
  - intros st current priority rest [Hst Hstart] Hq Hne. split.
    + eapply complete_step; eassumption.
    + apply expand_seen. exact Hstart.
  - split; [apply findPath_init_complete|].
    unfold seen. cbn. rewrite lookup_insert_eq. eauto.
Qed.

End Coverage.

(** X6. From a free start, a goal that can be walked to and lies two steps
    away or more makes [findPath] run forever, obstacles or not: it returns
    neither a path nor [null], whatever the fuel.  The g-score 0 of the
    start is taken for a missing one, the start gets a predecessor, and the
    walk back from the goal cycles through the start. *)
Theorem findPath_far_goal_never_returns (fuel : nat) (start end_ : Point)
    (obstacles : list Point) (gridSize : Z) :
  free obstacles gridSize start ->
  connected obstacles gridSize start end_ ->
  2 <= manhattanDistance start end_ ->
  GridPathfinder.findPath fuel start end_ obstacles gridSize = OutOfFuel.
Proof.
  intros Hfree Hconn Hfar.
  destruct (GridPathfinder.findPath fuel start end_ obstacles gridSize)
    as [[path|]|] eqn:Hrun; [| |reflexivity].
  - exfalso. exact (findPath_far_goal_no_path _ _ _ _ _ _ Hfree Hfar Hrun).
  - exfalso. exact (findPath_connected_not_null _ _ _ _ fuel Hconn Hrun).
Qed.

(** ** The grid pathfinder: the main loop ends *)

Lemma grid_cells_spec (gridSize : Z) (p : Point) :
  in_bounds gridSize p -> In p (grid_cells gridSize).
Proof.
  intros [Hx Hy]. unfold grid_cells. apply in_flat_map. exists (x p). split.
  - apply list_elem_of_In, elem_of_seqZ. lia.
  - apply list_elem_of_In, list_elem_of_fmap. exists (y p). split.
    + destruct p; reflexivity.
    + apply elem_of_seqZ. lia.
Qed.

Lemma sum_over_le (f f' : Point -> nat) (cells : list Point) :
  (forall c, In c cells -> (f' c <= f c)%nat) ->
  (sum_over f' cells <= sum_over f cells)%nat.
Proof.
  induction cells as [|c cells IH]; intros Hle; cbn; [lia|].
  pose proof (Hle c (or_introl eq_refl)).
  assert (sum_over f' cells <= sum_over f cells)%nat
    by (apply IH; intros d Hd; apply Hle; right; exact Hd).
  unfold sum_over in *. lia.
Qed.

Lemma sum_over_lt (f f' : Point -> nat) (cells : list Point) (n : Point) :
  (forall c, In c cells -> (f' c <= f c)%nat) ->
  In n cells -> (f' n < f n)%nat ->
  (sum_over f' cells < sum_over f cells)%nat.
Proof.
  induction cells as [|c cells IH]; intros Hle Hn Hlt; [destruct Hn|].
  assert (Hrest : (sum_over f' cells <= sum_over f cells)%nat)
    by (apply sum_over_le; intros d Hd; apply Hle; right; exact Hd).
  cbn. destruct Hn as [->|Hn].
  - unfold sum_over in *. lia.
  - pose proof (Hle c (or_introl eq_refl)).
    assert (sum_over f' cells < sum_over f cells)%nat
      by (apply IH; [intros d Hd; apply Hle; right; exact Hd|exact Hn|exact Hlt]).
    unfold sum_over in *. lia.
Qed.

Section Measure.
Import GridPathfinder.
Variables (end_ : Point) (cells : list Point).

Abbreviation todo := (fun st => sum_over (unscored (gScore st)) cells).
Abbreviation work := (fun st =>
  (2 * sum_over (score (gScore st)) cells + length (openSet st))%nat).

Lemma relax_nonneg (current n : Point) (st : PathSearch) :
  gscores_nonneg st -> gscores_nonneg (relax end_ current st n).
Proof.
  intros Hst. unfold relax. destruct (num_lt _ _); [|exact Hst].
  intros k g. cbn [gScore]. destruct (decide (pointToString n = k)) as [<-|Hne].
  - rewrite lookup_insert_eq. intros [= <-].
    destruct (gScore st !! pointToString current) as [gc|] eqn:Hgc; cbn; [|lia].
    pose proof (Hst _ _ Hgc). destruct (gc =? 0); lia.
  - rewrite lookup_insert_ne by assumption. apply Hst.
Qed.

(** A relaxation leaves everything as it is, or gives a usable g-score to a
    cell that had none, or lowers one; in both cases the frontier grows by
    one. *)
Lemma relax_measure (current n : Point) (st : PathSearch) :
  gscores_nonneg st -> In n cells ->
  let st' := relax end_ current st n in
  (todo st' < todo st)%nat
  \/ (todo st' = todo st /\ (work st' <= work st)%nat).
Proof.
  intros Hst Hn. cbn zeta. unfold relax.
  set (t := or_zero (gScore st !! pointToString current) + 1).
  assert (Ht : 1 <= t).
  { unfold t. destruct (gScore st !! pointToString current) as [gc|] eqn:Hgc; cbn;
      [|lia]. pose proof (Hst _ _ Hgc). destruct (gc =? 0); lia. }
  destruct (num_lt _ _) eqn:Hlt; [|right; split; [reflexivity|lia]].
  cbn [gScore openSet].
  assert (Hother : forall c, c <> n ->
            <[pointToString n := t]> (gScore st) !! pointToString c
            = gScore st !! pointToString c).
  { intros c Hc. apply lookup_insert_ne, pointToString_ne. congruence. }
  assert (Hlen : length (PriorityQueue.enqueue (openSet st) n
                           (Num (t + manhattanDistance n end_)))
                 = S (length (openSet st))).
  { rewrite (Permutation_length (enqueue_perm _ _ _)). reflexivity. }
  destruct (gScore st !! pointToString n) as [g0|] eqn:Hg0.
  - destruct (g0 =? 0) eqn:Hz.
    + left. apply (sum_over_lt _ _ cells n); [|exact Hn|].
      * intros c _. destruct (decide (c = n)) as [->|Hc].
        -- unfold unscored. rewrite lookup_insert_eq, Hg0. cbn. rewrite Hz.
           destruct (t =? 0); lia.
        -- unfold unscored. rewrite Hother by assumption. lia.
      * unfold unscored. rewrite lookup_insert_eq, Hg0. cbn. rewrite Hz.
        destruct (t =? 0) eqn:Ht0; [lia|]. lia.
    + right. cbn in Hlt. rewrite Hz in Hlt. cbn in Hlt. apply Z.ltb_lt in Hlt.
      split.
      * assert (Heq : forall c, unscored (<[pointToString n := t]> (gScore st)) c
                                = unscored (gScore st) c).
        { intros c. destruct (decide (c = n)) as [->|Hc].
          - unfold unscored. rewrite lookup_insert_eq, Hg0. cbn. rewrite Hz.
            destruct (t =? 0) eqn:Ht0; [lia|reflexivity].
          - unfold unscored. rewrite Hother by assumption. reflexivity. }
        apply Nat.le_antisymm; apply sum_over_le; intros c _; rewrite Heq; lia.
      * rewrite Hlen.
        assert (sum_over (score (<[pointToString n := t]> (gScore st))) cells
                < sum_over (score (gScore st)) cells)%nat; [|lia].
        apply (sum_over_lt _ _ cells n); [|exact Hn|].
        -- intros c _. destruct (decide (c = n)) as [->|Hc].
           ++ unfold score. rewrite lookup_insert_eq, Hg0. cbn. rewrite Hz.
              destruct (t =? 0); lia.
           ++ unfold score. rewrite Hother by assumption. lia.
        -- unfold score. rewrite lookup_insert_eq, Hg0. cbn. rewrite Hz.
           destruct (t =? 0) eqn:Ht0; lia.
  - left. apply (sum_over_lt _ _ cells n); [|exact Hn|].
    + intros c _. destruct (decide (c = n)) as [->|Hc].
      * unfold unscored. rewrite lookup_insert_eq, Hg0. cbn.
        destruct (t =? 0); lia.
      * unfold unscored. rewrite Hother by assumption. lia.
    + unfold unscored. rewrite lookup_insert_eq, Hg0. cbn.
      destruct (t =? 0) eqn:Ht0; lia.
Qed.

Lemma expand_measure (current : Point) (l : list Point) (st : PathSearch) :
  gscores_nonneg st -> (forall n, In n l -> In n cells) ->
  let st' := foldl (relax end_ current) st l in
  gscores_nonneg st'
  /\ ((todo st' < todo st)%nat
      \/ (todo st' = todo st /\ (work st' <= work st)%nat)).
Proof.
  revert st. induction l as [|n l IH]; intros st Hst Hl; cbn zeta; cbn [foldl].
  - split; [exact Hst|]. right. split; [reflexivity|lia].
  - destruct (IH (relax end_ current st n)) as [Hnn Hm].
    + apply relax_nonneg, Hst.
    + intros m Hm. apply Hl. right. exact Hm.
    + split; [exact Hnn|].
      pose proof (relax_measure current n st Hst (Hl n (or_introl eq_refl))) as H1.
      cbv beta zeta in H1, Hm |- *. lia.
Qed.

End Measure.

Section SearchEnds.
Import GridPathfinder.
Variables (start end_ : Point) (obstacles : list Point) (gridSize : Z).
Variable I : PathSearch -> Prop.

Abbreviation obstacleSet := (list_to_set (pointToString <$> obstacles) : gset string).

Hypothesis I_step :
  forall st current priority rest,
    I st -> openSet st = (current, priority) :: rest -> current <> end_ ->
    I (foldl (relax end_ current)
             {| openSet := rest; cameFrom := cameFrom st; gScore := gScore st |}
             (neighbors current obstacleSet gridSize)).

(** The main loop reaches, after some number [n] of turns, a state it
    leaves by: each turn either gives a usable g-score to a cell that had
    none, or lowers a g-score, or shortens the frontier. *)
Lemma search_reaches_exit (st : PathSearch) :
  I st -> gscores_nonneg st ->
  exists (n : nat) (st' : PathSearch),
    I st' /\ at_exit end_ st'
    /\ forall m rfuel,
         search (n + S m) rfuel start end_ obstacleSet gridSize st
         = search (S m) rfuel start end_ obstacleSet gridSize st'.
Proof.
  remember (sum_over (unscored (gScore st)) (grid_cells gridSize)) as a eqn:Ha.
  remember (2 * sum_over (score (gScore st)) (grid_cells gridSize)
            + length (openSet st))%nat as w eqn:Hw.
  revert w st Ha Hw. induction a as [a IHa] using lt_wf_ind.
  intros w. induction w as [w IHw] using lt_wf_ind. intros st Ha Hw Hst Hnn.
  destruct (openSet st) as [|[current priority] rest] eqn:Hq.
  { exists 0%nat, st. split; [exact Hst|]. split; [|reflexivity].
    unfold at_exit. rewrite Hq. constructor. }
  destruct (decide (current = end_)) as [->|Hne].
  { exists 0%nat, st. split; [exact Hst|]. split; [|reflexivity].
    unfold at_exit. rewrite Hq. reflexivity. }
  set (st0 := {| openSet := rest; cameFrom := cameFrom st; gScore := gScore st |}).
  set (st1 := foldl (relax end_ current) st0 (neighbors current obstacleSet gridSize)).
  destruct (expand_measure end_ (grid_cells gridSize) current
              (neighbors current obstacleSet gridSize) st0) as [Hnn1 Hm].
  { exact Hnn. }
  { intros n Hn. apply neighbors_spec in Hn as [_ [Hb _]]. apply grid_cells_spec, Hb. }
  fold st1 in Hnn1, Hm. cbn zeta in Hm. cbn [gScore openSet st0] in Hm.
  assert (Hst1 : I st1) by (eapply I_step; eassumption).
  assert (Hnext : exists n st', I st' /\ at_exit end_ st'
            /\ forall m rfuel,
                 search (n + S m) rfuel start end_ obstacleSet gridSize st1
                 = search (S m) rfuel start end_ obstacleSet gridSize st').
  { destruct Hm as [Hlt|[Heq Hle]].
    - apply (IHa (sum_over (unscored (gScore st1)) (grid_cells gridSize)))
        with (w := (2 * sum_over (score (gScore st1)) (grid_cells gridSize)
                    + length (openSet st1))%nat) (st := st1);
        [rewrite Ha; exact Hlt|reflexivity|reflexivity|exact Hst1|exact Hnn1].
    - apply (IHw (2 * sum_over (score (gScore st1)) (grid_cells gridSize)
                  + length (openSet st1))%nat) with (st := st1);
        [rewrite Hw; cbn [length]; lia|rewrite Ha; symmetry; exact Heq
        |reflexivity|exact Hst1|exact Hnn1]. }
  destruct Hnext as (n & st' & Hst' & Hexit & Hrun).
  exists (S n), st'. split; [exact Hst'|]. split; [exact Hexit|].
  intros m rfuel. cbn [Nat.add search]. rewrite Hq. cbn [PriorityQueue.dequeue fst].
  destruct ((x current =? x end_) && (y current =? y end_)) eqn:Hend.
  - apply same_cell in Hend. contradiction.
  - apply Hrun.
Qed.

End SearchEnds.

(** ** The grid pathfinder: a goal next to the start *)

Section Adjacent.
Import GridPathfinder.
Variables (start end_ : Point) (obstacles : list Point) (gridSize : Z).

Abbreviation obstacleSet := (list_to_set (pointToString <$> obstacles) : gset string).

Lemma relax_first_turn (st : PathSearch) (n : Point) :
  n <> start -> first_turn start end_ st ->
  first_turn start end_ (relax end_ start st n).
Proof.
  intros Hn Hst. unfold relax. rewrite (ft_start _ _ _ Hst). cbn [or_zero Z.eqb Z.add].
  destruct (num_lt _ _) eqn:Hlt; [|exact Hst].
  assert (Hfresh : gScore st !! pointToString n = None).
  { destruct (gScore st !! pointToString n) as [g|] eqn:Hg; [|reflexivity].
    destruct (ft_scored _ _ _ Hst n g Hg Hn) as [-> _]. cbn in Hlt. discriminate. }
  assert (Hkey : pointToString n <> pointToString start)
    by (apply pointToString_ne, Hn).
  constructor; cbn [gScore cameFrom openSet].
  - rewrite lookup_insert_ne by assumption. apply (ft_start _ _ _ Hst).
  - rewrite lookup_insert_ne by assumption. apply (ft_unlinked _ _ _ Hst).
  - intros p g Hg Hp. destruct (decide (p = n)) as [->|Hpn].
    + rewrite lookup_insert_eq in Hg. injection Hg as <-.
      rewrite lookup_insert_eq. split; [reflexivity|]. split; [reflexivity|].
      apply enqueue_In. left. reflexivity.
    + assert (pointToString n <> pointToString p)
        by (apply pointToString_ne; congruence).
      rewrite lookup_insert_ne in Hg by assumption.
      destruct (ft_scored _ _ _ Hst p g Hg Hp) as (Hg1 & Hlink & Hin).
      split; [exact Hg1|]. split; [rewrite lookup_insert_ne by assumption; exact Hlink|].
      apply enqueue_In. right. exact Hin.
  - intros e He. apply enqueue_In in He as [->|He]; [reflexivity|].
    apply (ft_front _ _ _ Hst), He.
  - apply enqueue_sorted.
Qed.

Lemma expand_first_turn (l : list Point) (st : PathSearch) :
  (forall n, In n l -> n <> start) -> first_turn start end_ st ->
  first_turn start end_ (foldl (relax end_ start) st l).
Proof.
  revert st. induction l as [|n l IH]; intros st Hl Hst; cbn [foldl]; [exact Hst|].
  apply IH; [intros m Hm; apply Hl; right; exact Hm|].
  apply relax_first_turn; [apply Hl; left; reflexivity|exact Hst].
Qed.

Lemma manhattan_zero (p : Point) : manhattanDistance p end_ <= 0 -> p = end_.
Proof.
  unfold manhattanDistance. destruct p as [a b], end_ as [c d]. cbn.
  intros H. f_equal; lia.
Qed.

(** X7. A goal on a free cell one step from the start is reached: with fuel
    for two turns of the loop, [findPath] returns the two-point path from
    the start to the goal, whatever else is on the grid. *)
Theorem findPath_adjacent_goal (fuel : nat) :
  unit_step start end_ ->
  free obstacles gridSize end_ ->
  findPath (S (S fuel)) start end_ obstacles gridSize = Returned (Some [start; end_]).
Proof.
  intros Hstep Hfree.
  assert (Hne : start <> end_) by (apply unit_step_ne, Hstep).
  unfold findPath, findPath_init.
  change (PriorityQueue.enqueue [] start (Num (manhattanDistance start end_)))
    with [(start, Num (manhattanDistance start end_))].
  cbn [search openSet cameFrom gScore PriorityQueue.dequeue fst].
  destruct ((x start =? x end_) && (y start =? y end_)) eqn:Hsame;
    [apply same_cell in Hsame; contradiction|].
  set (st0 := {| openSet := []; cameFrom := ∅;
                 gScore := <[pointToString start := 0]> ∅ |}).
  set (st1 := foldl (relax end_ start) st0 (neighbors start obstacleSet gridSize)).
  assert (Hst1 : first_turn start end_ st1).
  { apply expand_first_turn.
    - intros n Hn. apply neighbors_spec in Hn as [Hn _]. intros ->.
      exact (unit_step_ne _ _ Hn eq_refl).
    - constructor; cbn [gScore cameFrom openSet st0].
      + apply lookup_insert_eq.
      + apply lookup_empty.
      + intros p g Hg Hp. rewrite lookup_insert_ne, lookup_empty in Hg
          by (apply pointToString_ne; congruence). discriminate.
      + intros e [].
      + constructor. }
  assert (Hseen : seen st1 end_).
  { apply expand_seen_neighbors, neighbors_spec. split; assumption. }
  destruct Hseen as [g Hg].
  destruct (ft_scored _ _ _ Hst1 end_ g Hg) as (_ & Hlink & Hin); [congruence|].
  destruct (openSet st1) as [|[current priority] rest] eqn:Hq; [destruct Hin|].
  assert (Hcur : current = end_).
  { pose proof (ft_front _ _ _ Hst1 (current, priority)) as Hpr.
    rewrite Hq in Hpr. specialize (Hpr (or_introl eq_refl)). cbn [fst snd] in Hpr.
    pose proof (ft_sorted _ _ _ Hst1) as Hs. rewrite Hq in Hs.
    apply StronglySorted_inv in Hs as [_ Hall].
    assert (Hle : num_le priority (Num (1 + manhattanDistance end_ end_))).
    { destruct Hin as [[= _ <-]|Hin]; [apply num_le_refl|].
      rewrite List.Forall_forall in Hall. apply (Hall _ Hin). }
    rewrite Hpr in Hle. apply num_le_Num in Hle.
    apply manhattan_zero.
    assert (manhattanDistance end_ end_ = 0) by (unfold manhattanDistance; lia).
    lia. }
  subst current. cbn [PriorityQueue.dequeue fst].
  rewrite (proj2 (same_cell end_ end_) eq_refl).
  cbn [reconstruct]. rewrite Hlink. cbn [reconstruct].
  rewrite (ft_unlinked _ _ _ Hst1). rewrite stringToPoint_pointToString. reflexivity.
Qed.

End Adjacent.

Lemma findPath_adjacent_goal_witness :
  GridPathfinder.findPath 2 (pt 0 0) (pt 0 1) [pt 1 0; pt 1 1] 8
  = Returned (Some [pt 0 0; pt 0 1]).
Proof.
  apply (findPath_adjacent_goal (pt 0 0) (pt 0 1) [pt 1 0; pt 1 1] 8 0).
  - right. cbn. lia.
  - split; [unfold in_bounds; cbn; lia|].
    apply (bool_decide_unpack _). vm_compute. exact I.
Defined.

(** ** The grid pathfinder: a goal that cannot be walked to *)

Lemma steps_snoc (obstacles : list Point) (gridSize : Z) (w : list Point) :
  forall a b c,
    steps obstacles gridSize a w -> last (a :: w) = Some b ->
    unit_step b c -> free obstacles gridSize c ->
    steps obstacles gridSize a (w ++ [c]) /\ last (a :: w ++ [c]) = Some c.
Proof.
  induction w as [|d w IH]; intros a b c Hsteps Hlast Hstep Hfree.
  - cbn in Hlast. injection Hlast as ->. cbn. auto.
  - destruct Hsteps as (Hd & Hfd & Hsteps). rewrite last_cons_cons in Hlast.
    destruct (IH d b c Hsteps Hlast Hstep Hfree) as [Hs Hl].
    split; [cbn; auto|]. cbn [app]. rewrite last_cons_cons. exact Hl.
Qed.

Lemma connected_step (obstacles : list Point) (gridSize : Z) (a b c : Point) :
  connected obstacles gridSize a b -> unit_step b c -> free obstacles gridSize c ->
  connected obstacles gridSize a c.
Proof.
  intros (w & Hsteps & Hlast) Hstep Hfree. exists (w ++ [c]).
  eapply steps_snoc; eassumption.
Qed.

Section Unreachable.
Import GridPathfinder.
Variables (start end_ : Point) (obstacles : list Point) (gridSize : Z).

Abbreviation obstacleSet := (list_to_set (pointToString <$> obstacles) : gset string).

Lemma expand_connected (current : Point) (l : list Point) (st : PathSearch) :
  connected obstacles gridSize start current ->
  (forall n, In n l -> In n (neighbors current obstacleSet gridSize)) ->
  frontier_connected start obstacles gridSize st ->
  frontier_connected start obstacles gridSize (foldl (relax end_ current) st l).
Proof.
  intros Hcur. revert st. induction l as [|n l IH]; intros st Hl Hst; cbn [foldl];
    [exact Hst|].
  apply IH; [intros m Hm; apply Hl; right; exact Hm|].
  unfold relax. destruct (num_lt _ _); [|exact Hst].
  intros e He. cbn [openSet] in He. apply enqueue_In in He as [->|He].
  - cbn [fst]. specialize (Hl n (or_introl eq_refl)).
    apply neighbors_spec in Hl as [Hstep Hfree]. eapply connected_step; eassumption.
  - apply Hst, He.
Qed.

Lemma connected_search_step (st : PathSearch) (current : Point) (priority : number)
    (rest : PriorityQueue.t Point) :
  frontier_connected start obstacles gridSize st ->
  openSet st = (current, priority) :: rest ->
  frontier_connected start obstacles gridSize
    (foldl (relax end_ current)
       {| openSet := rest; cameFrom := cameFrom st; gScore := gScore st |}
       (neighbors current obstacleSet gridSize)).
Proof.
  intros Hst Hq. apply expand_connected.
  - apply (Hst (current, priority)). rewrite Hq. left. reflexivity.
  - auto.
  - intros e He. apply Hst. rewrite Hq. right. exact He.
Qed.

Lemma findPath_init_connected :
  frontier_connected start obstacles gridSize (findPath_init start end_).
Proof.
  intros e He. apply enqueue_In in He as [->|[]]. exists []. cbn. auto.
Qed.

Lemma findPath_init_nonneg : gscores_nonneg (findPath_init start end_).
Proof.
  intros k g. cbn. destruct (decide (pointToString start = k)) as [<-|Hne].
  - rewrite lookup_insert_eq. intros [= <-]. lia.
  - rewrite lookup_insert_ne, lookup_empty by assumption. discriminate.
Qed.

(** X8. When no walk by unit steps onto free cells leads from the start to
    the goal, [findPath] ends and returns [null]: the main loop stops on an
    empty frontier, and any fuel from some bound on is enough. *)
Theorem findPath_unreachable_goal_returns_null :
  ~ connected obstacles gridSize start end_ ->
  exists fuel0, forall fuel, (fuel0 <= fuel)%nat ->
    findPath fuel start end_ obstacles gridSize = Returned None.
Proof.
  intros Hnot.
  destruct (search_reaches_exit start end_ obstacles gridSize
              (frontier_connected start obstacles gridSize))
    with (st := findPath_init start end_) as (n & st & Hst & Hexit & Hrun).
  - intros st current priority rest Hst Hq _. eapply connected_search_step; eassumption.
  - apply findPath_init_connected.
  - apply findPath_init_nonneg.
  - exists (S n). intros fuel Hfuel. unfold findPath.
    replace fuel with (n + S (fuel - S n))%nat by lia. rewrite Hrun.
    unfold at_exit in Hexit. cbn [search].
    destruct (openSet st) as [|[current priority] rest] eqn:Hq; [reflexivity|].
    cbn [fst] in Hexit. subst current. exfalso. apply Hnot.
    apply (Hst (end_, priority)). rewrite Hq. left. reflexivity.
Qed.

End Unreachable.

Lemma last_in (a b : Point) (w : list Point) :
  last (a :: w) = Some b -> b = a \/ b ∈ w.
Proof.
  revert a. induction w as [|c w IH]; intros a.
  - cbn. intros [= ->]. left. reflexivity.
  - rewrite last_cons_cons. intros H. right.
    destruct (IH c H) as [->|Hin]; [left|right; exact Hin].
Qed.

(** A goal that is not the start can be walked to only if its cell is
    free. *)
Lemma connected_free (obstacles : list Point) (gridSize : Z) (a b : Point) :
  connected obstacles gridSize a b -> b = a \/ free obstacles gridSize b.
Proof.
  intros (w & Hsteps & Hlast). apply last_in in Hlast as [->|Hin]; [left; reflexivity|].
  right. eapply steps_free; eassumption.
Qed.

Lemma findPath_unreachable_goal_returns_null_witness :
  exists fuel0, forall fuel, (fuel0 <= fuel)%nat ->
    GridPathfinder.findPath fuel (pt 0 0) (pt 3 3) [pt 3 3] 8 = Returned None.
Proof.
  apply (findPath_unreachable_goal_returns_null (pt 0 0) (pt 3 3) [pt 3 3] 8).
  intros Hc. apply connected_free in Hc as [Heq|[_ Hfree]]; [discriminate|].
  apply Hfree. left.
Defined.

(** ** The grid pathfinder: a start that is not a free cell *)

Section BlockedStart.
Import GridPathfinder.
Variables (start end_ : Point) (obstacles : list Point) (gridSize : Z).

Abbreviation obstacleSet := (list_to_set (pointToString <$> obstacles) : gset string).

(** While the start has no predecessor, the walk back from a point ends
    within as many steps as its g-score. *)
Lemma reconstruct_returns (st : PathSearch) :
  scores_ok start end_ obstacleSet gridSize None st ->
  forall (rfuel : nat) (p : Point) (g : Z) (acc : list Point),
    gScore st !! pointToString p = Some g -> (Z.to_nat g < rfuel)%nat ->
    exists path, reconstruct rfuel (cameFrom st) (pointToString p) acc = Returned path.
Proof.
  intros Hok. induction rfuel as [|rfuel IH]; intros p g acc Hg Hlt; [lia|].
  cbn [reconstruct]. destruct (cameFrom st !! pointToString p) as [v|] eqn:Hv; [|eauto].
  destruct (so_links _ _ _ _ _ _ Hok p v Hv) as (c & gp & gc & -> & Hgp & Hgc & Hle).
  rewrite Hg in Hgp. injection Hgp as <-.
  pose proof (scores_nonneg _ _ _ _ _ _ _ _ Hok Hgc).
  apply (IH c gc); [exact Hgc|lia].
Qed.

Lemma blocked_start_unlinked (st : PathSearch) :
  ~ free obstacles gridSize start ->
  links_ok start obstacles gridSize (cameFrom st) ->
  ~ start_linked start st.
Proof.
  intros Hblocked Hlinks [v Hv].
  destruct (Hlinks _ _ Hv) as (p & c & Heq & _ & _ & Hfree & _).
  apply pointToString_inj in Heq as <-. contradiction.
Qed.

(** X9. From a start that is not a free cell, on an obstacle or outside the
    grid, no neighbour ever relaxes the start, and [findPath] works as
    intended: when the goal can be walked to, it ends and returns a path, the
    same for any fuel from some bound on. *)
Theorem findPath_blocked_start_returns_path :
  ~ free obstacles gridSize start ->
  connected obstacles gridSize start end_ ->
  exists fuel0 path, forall fuel, (fuel0 <= fuel)%nat ->
    findPath fuel start end_ obstacles gridSize = Returned (Some path).
Proof.
  intros Hblocked (w & Hsteps & Hlast).
  destruct (search_reaches_exit start end_ obstacles gridSize
              (fun st => links_ok start obstacles gridSize (cameFrom st)
                         /\ frontier_reached start st
                         /\ scores_ok start end_ obstacleSet gridSize None st
                         /\ frontier_complete end_ obstacleSet gridSize None st
                         /\ seen st start))
    with (st := findPath_init start end_)
    as (n & st & (Hlinks & Hfront & Hok & Hcomplete & Hstart) & Hexit & Hrun).
  - intros st current priority rest (Hlinks & Hfront & Hok & Hcomplete & Hstart) Hq Hne.
    assert (Hcur : reached start (cameFrom st) current).
    { apply (Hfront (current, priority)). rewrite Hq. left. reflexivity. }
    destruct (expand_shape start end_ obstacles gridSize current
                (neighbors current obstacleSet gridSize)
                {| openSet := rest; cameFrom := cameFrom st; gScore := gScore st |})
      as [Hlinks' Hfront']; auto.
    { intros e He. apply Hfront. rewrite Hq. right. exact He. }
    split; [exact Hlinks'|]. split; [exact Hfront'|]. split; [|split].
    + destruct (scores_step start end_ obstacles gridSize st current priority rest
                  (or_intror Hok) Hq Hne) as [Hlinked|Hok']; [|exact Hok'].
      exfalso. eapply blocked_start_unlinked; eassumption.
    + eapply complete_step; eassumption.
    + apply expand_seen, Hstart.
  - destruct (findPath_init_shape start end_ obstacles gridSize) as (H1 & H2 & _).
    split; [exact H1|]. split; [exact H2|]. split; [apply findPath_init_scores|].
    split; [apply findPath_init_complete|].
    unfold seen. cbn. rewrite lookup_insert_eq. eauto.
  - apply findPath_init_nonneg.
  - unfold at_exit in Hexit.
    destruct (openSet st) as [|[current priority] rest] eqn:Hq.
    { exfalso.
      exact (empty_frontier_closed end_ obstacles gridSize st w Hcomplete Hq start
               Hstart Hsteps Hlast). }
    cbn [fst] in Hexit. subst current.
    destruct (so_front _ _ _ _ _ _ Hok (end_, priority)) as (g & Hg & _).
    { rewrite Hq. left. reflexivity. }
    cbn [fst] in Hg.
    destruct (reconstruct_returns st Hok (S (Z.to_nat g)) end_ g [] Hg) as [chain Hchain];
      [lia|].
    exists (S n + S (Z.to_nat g))%nat, (start :: chain). intros fuel Hfuel.
    unfold findPath. replace fuel with (n + S (fuel - S n))%nat at 1 by lia.
    rewrite Hrun. cbn [search]. rewrite Hq. cbn [PriorityQueue.dequeue fst].
    rewrite (proj2 (same_cell end_ end_) eq_refl).
    rewrite (reconstruct_fuel_mono _ (S (Z.to_nat g)) fuel) with (path := chain);
      [reflexivity|lia|exact Hchain].
Qed.

End BlockedStart.

Lemma findPath_blocked_start_returns_path_witness :
  exists fuel0 path, forall fuel, (fuel0 <= fuel)%nat ->
    GridPathfinder.findPath fuel (pt 0 0) (pt 2 2) [pt 0 0; pt 1 1] 3
    = Returned (Some path).
Proof.
  apply (findPath_blocked_start_returns_path (pt 0 0) (pt 2 2) [pt 0 0; pt 1 1] 3).
  - intros [_ Hfree]. apply Hfree. left.
  - exists [pt 1 0; pt 2 0; pt 2 1; pt 2 2].
    unfold steps, free, in_bounds, unit_step. cbn.
    repeat split; try lia; apply (bool_decide_unpack _); vm_compute; exact I.
Defined.

(** ** The successors of a state *)

Lemma for_of_invariant_in {S A : Type} (P : S -> Prop) (body : S -> A -> outcome S)
    (l : list A) :
  (forall s a s', In a l -> P s -> body s a = Returned s' -> P s') ->
  forall s s', P s -> for_of body l s = Returned s' -> P s'.
Proof.
  induction l as [|a l IH]; intros Hbody s s' Hs Hrun; cbn in Hrun.
  - congruence.
  - bind_inv Hrun. apply (IH (fun s a s' Ha => Hbody s a s' (or_intror Ha)) r s');
      [|exact Hrun].
    apply (Hbody s a r); [left; reflexivity|exact Hs|exact Hr].
Qed.

Lemma findPath_needs_fuel (start end_ : Point) (obstacles : list Point) (gridSize : Z)
    (r : option (list Point)) (fuel : nat) :
  GridPathfinder.findPath fuel start end_ obstacles gridSize = Returned r ->
  exists fuel', fuel = S fuel'.
Proof. destruct fuel as [|fuel']; [discriminate|eauto]. Qed.

Section Successors.
Variables (fuel : nat) (state : WorldState) (goalItems : list string)
  (shelves : list Shelf) (collectionPoint : Point) (obstacles : list Point)
  (gridSize : Z).

(** The path [findPath] returns for a move has more than one point. *)
Lemma move_applicable (to : Point) (p : list Point) :
  GridPathfinder.findPath fuel (robotPos state) to obstacles gridSize
    = Returned (Some p) ->
  (Z.of_nat (length p) >? 1) = true ->
  match held state with
  | Some _ => to = collectionPoint
  | None => exists shelf item,
      In shelf shelves /\ pos shelf = to /\ In item (items shelf)
      /\ needed state goalItems item
  end ->
  applicable goalItems shelves collectionPoint obstacles gridSize state
    (MOVE (robotPos state) to p (path_cost p)).
Proof.
  intros Hrun Hlen Htarget. apply Z.gtb_lt in Hlen.
  split; [reflexivity|]. split; [|split; [reflexivity|]].
  - intros ->. destruct (findPath_needs_fuel _ _ _ _ _ _ Hrun) as [fuel' ->].
    rewrite findPath_same_cell in Hrun. injection Hrun as <-. cbn in Hlen. lia.
  - split; [unfold path_cost; lia|]. split; [eauto|]. split; [|exact Htarget].
    apply findPath_steps in Hrun. exact Hrun.
Qed.

Lemma getSuccessors_applicable (actions : list Action) :
  getSuccessors fuel state goalItems shelves collectionPoint obstacles gridSize
    = Returned actions ->
  Forall (applicable goalItems shelves collectionPoint obstacles gridSize state) actions.
Proof.
  unfold getSuccessors. destruct (held state) as [item|] eqn:Hheld; intros Hrun.
  - bind_inv Hrun. injection Hrun as <-. destruct r as [p|]; [|constructor].
    destruct (Z.of_nat (length p) >? 1) eqn:Hlen; (constructor; [|constructor]).
    + apply move_applicable; [exact Hr|exact Hlen|]. rewrite Hheld. reflexivity.
    + split; [reflexivity|]. split; [exact Hheld|].
      apply findPath_steps in Hr as (rest & -> & _ & Hlast).
      rewrite Z.gtb_ltb in Hlen. apply Z.ltb_ge in Hlen. cbn [length] in Hlen.
      destruct rest; [|cbn [length] in Hlen; lia]. cbn in Hlast. congruence.
  - revert Hrun. apply for_of_invariant_in.
    + intros acc shelf acc' Hshelf Hacc Hbody. bind_inv Hbody. injection Hbody as <-.
      destruct r as [p|]; [|exact Hacc].
      destruct (Z.of_nat (length p) >? 1) eqn:Hlen; [|exact Hacc].
      apply Forall_app. split; [exact Hacc|]. constructor; [|constructor].
      apply move_applicable; [exact Hr|exact Hlen|]. rewrite Hheld.
      apply filter_In in Hshelf as [Hin Hstock].
      apply existsb_exists in Hstock as (item & Hitem & Hneeded).
      apply includes_spec, filter_In in Hneeded as [Hgoal Hloc].
      apply andb_true_iff in Hloc as [Hcp Hrobot]. apply negb_true_iff in Hcp, Hrobot.
      exists shelf, item. repeat split; assumption.
    + destruct (find _ shelves) as [s|] eqn:Hshelf; [|constructor].
      destruct (find _ (items s)) as [item|] eqn:Hitem; [|constructor].
      destruct (truthy item) eqn:Htruthy; [|constructor].
      constructor; [|constructor].
      apply find_some in Hshelf as [Hin Hpos]. apply same_cell in Hpos.
      apply find_some in Hitem as [Hstock Hneeded].
      apply includes_spec, filter_In in Hneeded as [Hgoal Hloc].
      apply andb_true_iff in Hloc as [Hcp Hrobot]. apply negb_true_iff in Hcp, Hrobot.
      split; [reflexivity|]. split; [exact Hheld|].
      split; [apply truthy_spec, Htruthy|]. split; [repeat split; assumption|].
      exists s. repeat split; assumption.
Qed.

End Successors.



Lemma applicable_keeps_delivered (goalItems : list string) (shelves : list Shelf)
    (collectionPoint : Point) (obstacles : list Point) (gridSize : Z)
    (state : WorldState) (action : Action) (item : string) :
  applicable goalItems shelves collectionPoint obstacles gridSize state action ->
  get_loc (itemLocations state) item = Some "collectionPoint" ->
  get_loc (itemLocations (applyAction state action)) item = Some "collectionPoint".
Proof.
  intros Happ Hitem.
  destruct action as [from to p c|picked shelfId c|dropped c]; cbn in Happ |- *.
  - exact Hitem.
  - destruct Happ as (_ & _ & _ & (_ & Hcp & _) & _).
    rewrite get_loc_set_loc_ne; [exact Hitem|].
    intros ->. apply loc_is_spec in Hitem. congruence.
  - destruct (String.eqb_spec dropped item) as [->|Hne].
    + apply get_loc_set_loc_eq. right. rewrite Hitem. eauto.
    + rewrite get_loc_set_loc_ne by assumption. exact Hitem.
Qed.

(** X11. No successor undoes a delivery: an item at the collection point is
    still there after any action [getSuccessors] returns for the state. *)
Theorem successors_keep_delivered (fuel : nat) (state : WorldState)
    (goalItems : list string) (shelves : list Shelf) (collectionPoint : Point)
    (obstacles : list Point) (gridSize : Z) (actions : list Action) (action : Action)
    (item : string) :
  getSuccessors fuel state goalItems shelves collectionPoint obstacles gridSize
    = Returned actions ->
  In action actions ->
  get_loc (itemLocations state) item = Some "collectionPoint" ->
  get_loc (itemLocations (applyAction state action)) item = Some "collectionPoint".
Proof.
  intros Hrun Hin.
  pose proof (getSuccessors_applicable _ _ _ _ _ _ _ _ Hrun) as Hall.
  rewrite List.Forall_forall in Hall.
  eapply applicable_keeps_delivered, Hall, Hin.
Qed.

Lemma successors_keep_delivered_witness :
  get_loc (itemLocations
             (applyAction (carryingState ["a"] "b") (DROP "b" 1))) "a"
  = Some "collectionPoint".
Proof.
  apply (successors_keep_delivered 1 (carryingState ["a"] "b") ["a"; "b"]
           (oneShelf ["a"; "b"]) (pt 0 0) [] 1 [DROP "b" 1]).
  - vm_compute. reflexivity.
  - left. reflexivity.
  - reflexivity.
Defined.

(** ** What an action writes *)

(** X29. [applyAction] writes the location of one item at most, the picked
    or dropped one, and leaves the location of every other item as it was; a
    Move writes none.  The written location is read back from the new state
    whenever the item is one the locations store under; for an item named
    [__proto__] that has no entry, nothing is stored and the locations stay
    as they were. *)
Theorem applyAction_writes_one_item (state : WorldState) (action : Action) :
  match written action with
  | None => itemLocations (applyAction state action) = itemLocations state
  | Some (item, tag) =>
      (forall other, other <> item ->
         get_loc (itemLocations (applyAction state action)) other
         = get_loc (itemLocations state) other)
      /\ (storable (itemLocations state) item ->
          get_loc (itemLocations (applyAction state action)) item = Some tag)
      /\ (~ storable (itemLocations state) item ->
          itemLocations (applyAction state action) = itemLocations state)
  end.
Proof.
  destruct action as [from to p c|item shelfId c|item c]; cbn [written applyAction
    itemLocations]; [reflexivity| |].
  - split; [|split].
    + intros other Hne. apply get_loc_set_loc_ne. congruence.
    + apply get_loc_set_loc_eq.
    + apply set_loc_not_storable.
  - split; [|split].
    + intros other Hne. apply get_loc_set_loc_ne. congruence.
    + apply get_loc_set_loc_eq.
    + apply set_loc_not_storable.
Qed.

(** ** The estimate at the goal *)




(** ** The key of a state *)

Lemma append_assoc (a b c : string) : (a +:+ b) +:+ c = a +:+ (b +:+ c).
Proof.
  induction a as [|d a IH]; [reflexivity|]. rewrite !append_cons, IH. reflexivity.
Qed.

Lemma lacks_append (c : ascii) (s t : string) :
  lacks c (s +:+ t) = lacks c s && lacks c t.
Proof.
  induction s as [|d s IH]; [reflexivity|].
  rewrite append_cons. cbn [lacks]. rewrite IH, andb_assoc. reflexivity.
Qed.

Lemma lacks_bar_string_of_uint (d : Decimal.uint) :
  lacks "|" (NilEmpty.string_of_uint d) = true.
Proof. induction d; cbn; auto. Qed.

Lemma lacks_bar_numToString (z : Z) : lacks "|" (numToString z) = true.
Proof.
  unfold numToString, NilZero.string_of_int, NilZero.string_of_uint.
  destruct (Z.to_int z) as [d|d]; destruct d; cbn;
    auto using lacks_bar_string_of_uint.
Qed.

Lemma lacks_bar_pointToString (p : Point) : lacks "|" (pointToString p) = true.
Proof.
  unfold pointToString. rewrite !lacks_append, !lacks_bar_numToString. reflexivity.
Qed.

(** Two strings that agree up to the first occurrence of [c] in each. *)
Lemma append_split (c : ascii) (s1 s2 t1 t2 : string) :
  lacks c s1 = true -> lacks c s2 = true ->
  s1 +:+ String c t1 = s2 +:+ String c t2 -> s1 = s2.
Proof.
  revert s2. induction s1 as [|d s1 IH]; intros [|e s2] H1 H2 Heq.
  - reflexivity.
  - rewrite append_cons in Heq. cbn in Heq, H2. injection Heq as <- _.
    rewrite Ascii.eqb_refl in H2. discriminate.
  - rewrite append_cons in Heq. cbn in Heq, H1. injection Heq as -> _.
    rewrite Ascii.eqb_refl in H1. discriminate.
  - rewrite !append_cons in Heq. injection Heq as <- Heq.
    cbn in H1, H2. apply andb_true_iff in H1 as [_ H1], H2 as [_ H2].
    f_equal. apply IH; assumption.
Qed.

Lemma stateToString_shape (localeCompare : string -> string -> Z) (state : WorldState) :
  exists rest,
    stateToString localeCompare state
    = pointToString (robotPos state) +:+ String "|" rest.
Proof.
  unfold stateToString, pointToString. eexists.
  rewrite !append_assoc. reflexivity.
Qed.

(** X13. The key tells the robot's position: two states that
    [stateToString] maps to the same key have the robot on the same cell,
    so the g-score recorded under a key is never taken for that of a state
    with the robot elsewhere. *)
Theorem stateToString_robotPos (localeCompare : string -> string -> Z)
    (state1 state2 : WorldState) :
  stateToString localeCompare state1 = stateToString localeCompare state2 ->
  robotPos state1 = robotPos state2.
Proof.
  destruct (stateToString_shape localeCompare state1) as [rest1 ->].
  destruct (stateToString_shape localeCompare state2) as [rest2 ->].
  intros Heq. apply pointToString_inj.
  eapply append_split; [| |exact Heq]; apply lacks_bar_pointToString.
Qed.

Lemma stateToString_robotPos_witness :
  robotPos {| robotPos := pt 1 0; holding := None;
              itemLocations := [("ItemB", "S2"); ("ItemA", "S1")] |}
  = robotPos {| robotPos := pt 1 0; holding := Some "null";
                itemLocations := [("ItemA", "S1"); ("ItemB", "S2")] |}.
Proof.
  apply (stateToString_robotPos codePointCompare). vm_compute. reflexivity.
Defined.

(** ** The planner: what holds of every node holds of the returned plan *)

Section PlanRule.
Variable localeCompare : string -> string -> Z.
Variables (fuel : nat) (goalItems : list string) (shelves : list Shelf)
  (collectionPoint : Point) (obstacles : list Point) (gridSize : Z).
Variable P : WorldState -> list Action -> Prop.

Hypothesis P_step :
  forall state p actions action,
    P state p -> isGoal state goalItems = false ->
    getSuccessors fuel state goalItems shelves collectionPoint obstacles gridSize
      = Returned actions ->
    In action actions ->
    P (applyAction state action) (p ++ [action]).

(** A node of the frontier: its state and path are related by [P], and the
    path has no more actions than the loop has made turns. *)
Abbreviation node_ok := (fun (turns : Z)
                             (e : WorldState * list Action * number) =>
  P e.1.1 e.1.2 /\ Z.of_nat (length e.1.2) <= turns).

Lemma expand_nodes (turns : Z) (currentState : WorldState)
    (currentPath : list Action) (currentStateKey : string) (st st' : PlanSearch)
    (action : Action) :
  P (applyAction currentState action) (currentPath ++ [action]) ->
  Z.of_nat (length currentPath) < turns ->
  Forall (node_ok turns) (openSet st) ->
  expand localeCompare fuel goalItems collectionPoint obstacles gridSize
    currentState currentPath currentStateKey st action = Returned st' ->
  Forall (node_ok turns) (openSet st').
Proof.
  intros Hnext Hlen Hst. unfold expand.
  destruct (num_lt _ _); [|intros [= <-]; exact Hst].
  intros Hrun. bind_inv Hrun. injection Hrun as <-.
  unfold record_and_push. cbn [openSet].
  rewrite enqueue_perm. constructor; [|exact Hst].
  cbn [fst snd]. split; [exact Hnext|]. rewrite length_app. cbn [length]. lia.
Qed.

Lemma plan_iteration_nodes (turns : Z) (st : PlanSearch)
    (r : PlannerExit + Z * PlanSearch) :
  Forall (node_ok turns) (openSet st) ->
  plan_iteration localeCompare fuel goalItems shelves collectionPoint obstacles
    gridSize turns st = Returned r ->
  match r with
  | inl (Found result) =>
      (exists state, P state (path result) /\ isGoal state goalItems = true)
      /\ Z.of_nat (length (path result)) < iterations result
      /\ iterations result = turns + 1
      /\ turns + 1 <= maxIterations
  | inl _ => True
  | inr (turns', st') =>
      turns' = turns + 1 /\ Forall (node_ok turns') (openSet st')
  end.
Proof.
  intros Hst. unfold plan_iteration.
  destruct (PriorityQueue.isEmpty (openSet st)); [intros [= <-]; exact I|].
  destruct (Z.gtb_spec (turns + 1) maxIterations) as [Hgt|Hle];
    [intros [= <-]; exact I|].
  destruct (PriorityQueue.dequeue (openSet st)) as [[[currentState currentPath] rest]|]
    eqn:Hdeq; [|intros [= <-]; exact I].
  apply dequeue_Some in Hdeq as [priority Hq]. rewrite Hq in Hst.
  apply Forall_cons in Hst as [[Hcur Hlen] Hrest]. cbn [fst snd] in Hcur, Hlen.
  destruct (isGoal currentState goalItems) eqn:Hgoal.
  - intros [= <-]. cbn [path iterations].
    split; [eauto|]. split; [lia|]. split; [reflexivity|exact Hle].
  - intros Hrun. bind_inv Hrun. bind_inv Hrun. injection Hrun as <-.
    split; [reflexivity|]. revert Hr0.
    apply (for_of_invariant_in (fun s => Forall (node_ok (turns + 1)) (openSet s))).
    + intros s a s' Ha Hs Hbody. eapply expand_nodes; [| |exact Hs|exact Hbody].
      * eapply P_step; eassumption.
      * lia.
    + cbn [openSet]. eapply Forall_impl; [exact Hrest|].
      intros e [He Hlen']. split; [exact He|lia].
Qed.

Lemma plan_loop_nodes (n : nat) (turns : Z) (st : PlanSearch)
    (result : PlannerResult) :
  Forall (node_ok turns) (openSet st) ->
  plan_loop localeCompare n fuel goalItems shelves collectionPoint obstacles gridSize
    turns st = Returned (Found result) ->
  (exists state, P state (path result) /\ isGoal state goalItems = true)
  /\ Z.of_nat (length (path result)) < iterations result
  /\ turns < iterations result <= maxIterations.
Proof.
  revert turns st. induction n as [|n IH]; intros turns st Hst; cbn;
    [discriminate|].
  intros Hrun. bind_inv Hrun.
  pose proof (plan_iteration_nodes turns st r Hst Hr) as Hr'.
  destruct r as [e|[turns' st']].
  - injection Hrun as ->. destruct Hr' as (Hp & Hlen & Hit & Hle).
    split; [exact Hp|]. split; [exact Hlen|lia].
  - destruct Hr' as [-> Hst'].
    destruct (IH _ _ Hst' Hrun) as (Hp & Hlen & Hit). split; [exact Hp|].
    split; [exact Hlen|lia].
Qed.

Lemma aStarPlanner_nodes (initialState : WorldState) (result : PlannerResult) :
  P initialState [] ->
  aStarPlanner localeCompare fuel initialState goalItems shelves collectionPoint
    obstacles gridSize = Returned (Some result) ->
  (exists state, P state (path result) /\ isGoal state goalItems = true)
  /\ Z.of_nat (length (path result)) < iterations result
  /\ iterations result <= maxIterations.
Proof.
  intros Hinit Hrun. unfold aStarPlanner in Hrun. bind_inv Hrun. injection Hrun as Hval.
  destruct r as [result'| |]; cbn in Hval; try discriminate.
  injection Hval as ->.
  unfold aStarPlanner_exit in Hr. bind_inv Hr.
  unfold aStarPlanner_init in Hr0. bind_inv Hr0. injection Hr0 as <-.
  apply plan_loop_nodes in Hr as (Hp & Hlen & Hit).
  - split; [exact Hp|]. split; [exact Hlen|lia].
  - cbn [openSet]. rewrite enqueue_perm.
    constructor; [|constructor]. cbn. split; [exact Hinit|lia].
Qed.

End PlanRule.

Lemma applicable_plan_snoc (goalItems : list string) (shelves : list Shelf)
    (collectionPoint : Point) (obstacles : list Point) (gridSize : Z)
    (p : list Action) (action : Action) :
  forall state,
    applicable_plan goalItems shelves collectionPoint obstacles gridSize state p ->
    applicable goalItems shelves collectionPoint obstacles gridSize
      (applyActions state p) action ->
    applicable_plan goalItems shelves collectionPoint obstacles gridSize state
      (p ++ [action]).
Proof.
  induction p as [|a p IH]; intros state Hp Ha; cbn in *.
  - auto.
  - destruct Hp as [Hfirst Hp]. split; [exact Hfirst|]. apply IH; assumption.
Qed.

(** A returned plan leads to a goal state through applicable actions. *)
Lemma returned_plan_applicable (localeCompare : string -> string -> Z)
    (fuel : nat) (initialState : WorldState) (goalItems : list string)
    (shelves : list Shelf) (collectionPoint : Point) (obstacles : list Point)
    (gridSize : Z) (result : PlannerResult) :
  aStarPlanner localeCompare fuel initialState goalItems shelves collectionPoint
    obstacles gridSize = Returned (Some result) ->
  applicable_plan goalItems shelves collectionPoint obstacles gridSize initialState
    (path result)
  /\ isGoal (applyActions initialState (path result)) goalItems = true
  /\ Z.of_nat (length (path result)) < iterations result <= maxIterations.
Proof.
  intros Hrun.
  destruct (aStarPlanner_nodes localeCompare fuel goalItems shelves collectionPoint
              obstacles gridSize
              (fun state p =>
                 state = applyActions initialState p
                 /\ applicable_plan goalItems shelves collectionPoint obstacles gridSize
                      initialState p)
              ) with (initialState := initialState) (result := result)
    as ((state & [-> Hplan] & Hgoal) & Hlen & Hle).
  - intros state p actions action [-> Hp] _ Hsucc Hin. split.
    + unfold applyActions. rewrite foldl_app. reflexivity.
    + apply applicable_plan_snoc; [exact Hp|].
      pose proof (getSuccessors_applicable _ _ _ _ _ _ _ _ Hsucc) as Hall.
      rewrite List.Forall_forall in Hall. apply Hall, Hin.
  - split; [reflexivity|exact I].
  - exact Hrun.
  - split; [exact Hplan|]. split; [exact Hgoal|]. split; [exact Hlen|exact Hle].
Qed.



(** X15. A returned result counts at least one loop turn more than its plan
    has actions, and no more than the budget: a plan has at most 4999
    actions, and [iterations] lies between 1 and 5000. *)
Theorem aStarPlanner_iterations_bounds (localeCompare : string -> string -> Z)
    (fuel : nat) (initialState : WorldState) (goalItems : list string)
    (shelves : list Shelf) (collectionPoint : Point) (obstacles : list Point)
    (gridSize : Z) (result : PlannerResult) :
  aStarPlanner localeCompare fuel initialState goalItems shelves collectionPoint
    obstacles gridSize = Returned (Some result) ->
  Z.of_nat (length (path result)) < iterations result <= 5000.
Proof.
  intros Hrun.
  destruct (aStarPlanner_nodes localeCompare fuel goalItems shelves collectionPoint
              obstacles gridSize (fun _ _ => True))
    with (initialState := initialState) (result := result) as (_ & Hlen & Hle).
  - auto.
  - exact I.
  - exact Hrun.
  - unfold maxIterations in Hle. lia.
Qed.

Lemma aStarPlanner_iterations_bounds_witness :
  Z.of_nat (length [PICK "a" "S" 1; DROP "a" 1]) < 3 <= 5000.
Proof.
  apply (aStarPlanner_iterations_bounds codePointCompare 1 emptyHanded ["a"]
           (oneShelf ["a"]) (pt 0 0) [] 1
           {| path := [PICK "a" "S" 1; DROP "a" 1]; iterations := 3 |}).
  vm_compute. reflexivity.
Defined.

(** ** The planner on a goal that already holds *)

Lemma enqueue_single {T : Type} (item : T) (priority : number) :
  PriorityQueue.enqueue [] item priority = [(item, priority)].
Proof. reflexivity. Qed.

(** X16. When the initial state is a goal state already, as it is for an
    empty list of goal items, and the hand is empty, [aStarPlanner] returns
    the empty plan after one iteration, whatever the shelves and the grid. *)
Theorem aStarPlanner_goal_at_start (localeCompare : string -> string -> Z)
    (fuel : nat) (initialState : WorldState) (goalItems : list string)
    (shelves : list Shelf) (collectionPoint : Point) (obstacles : list Point)
    (gridSize : Z) :
  isGoal initialState goalItems = true ->
  held initialState = None ->
  aStarPlanner localeCompare fuel initialState goalItems shelves collectionPoint
    obstacles gridSize
  = Returned (Some {| path := []; iterations := 1 |}).
Proof.
  intros Hgoal Hheld.
  unfold aStarPlanner, aStarPlanner_exit, aStarPlanner_init, heuristic.
  rewrite Hheld. cbn [mbind outcome_bind mret outcome_ret].
  rewrite enqueue_single.
  cbn [plan_loop]. unfold plan_iteration.
  cbn [openSet PriorityQueue.isEmpty PriorityQueue.dequeue fst].
  rewrite Hgoal. reflexivity.
Qed.

Lemma aStarPlanner_goal_at_start_witness :
  aStarPlanner codePointCompare 0 twoShelvesStart [] twoShelves (pt 5 5) [] 2
  = Returned (Some {| path := []; iterations := 1 |}).
Proof.
  apply (aStarPlanner_goal_at_start codePointCompare 0 twoShelvesStart []
           twoShelves (pt 5 5) [] 2); reflexivity.
Defined.

(** ** The planner with a shelf out of reach of [findPath] *)

Lemma for_of_out_of_fuel {S A : Type} (body : S -> A -> outcome S) (l : list A)
    (a : A) :
  In a l -> (forall s, body s a = OutOfFuel) ->
  forall s, for_of body l s = OutOfFuel.
Proof.
  intros Hin Hbody. induction l as [|b l IH]; intros s; [destruct Hin|].
  cbn [for_of]. destruct Hin as [->|Hin].
  - rewrite Hbody. reflexivity.
  - destruct (body s b) as [s'|]; [|reflexivity]. cbn. apply IH, Hin.
Qed.

Lemma needed_not_goal (state : WorldState) (goalItems : list string) (item : string) :
  needed state goalItems item -> isGoal state goalItems = false.
Proof.
  intros (Hin & Hcp & _). apply not_true_is_false. intros Hgoal.
  unfold isGoal in Hgoal. rewrite forallb_forall in Hgoal.
  rewrite (Hgoal item Hin) in Hcp. discriminate.
Qed.

Section FarShelf.
Variable localeCompare : string -> string -> Z.
Variables (fuel : nat) (state : WorldState) (goalItems : list string)
  (shelves : list Shelf) (collectionPoint : Point) (obstacles : list Point)
  (gridSize : Z) (shelf : Shelf) (item : string).
Hypothesis hand_empty : held state = None.
Hypothesis robot_free : free obstacles gridSize (robotPos state).
Hypothesis shelf_known : In shelf shelves.
Hypothesis item_stocked : In item (items shelf).
Hypothesis item_needed : needed state goalItems item.
Hypothesis shelf_connected :
  connected obstacles gridSize (robotPos state) (pos shelf).
Hypothesis shelf_far : 2 <= manhattanDistance (robotPos state) (pos shelf).

Lemma getSuccessors_far_shelf :
  getSuccessors fuel state goalItems shelves collectionPoint obstacles gridSize
  = OutOfFuel.
Proof.
  unfold getSuccessors. rewrite hand_empty.
  apply (for_of_out_of_fuel _ _ shelf).
  - apply filter_In. split; [exact shelf_known|].
    apply existsb_exists. exists item. split; [exact item_stocked|].
    destruct item_needed as (Hin & Hcp & Hrobot).
    apply includes_spec, filter_In. split; [exact Hin|]. rewrite Hcp, Hrobot. reflexivity.
  - intros actions.
    destruct (GridPathfinder.findPath fuel (robotPos state) (pos shelf) obstacles
                gridSize) as [[p|]|] eqn:Hrun; [| |reflexivity]; exfalso.
    + exact (findPath_far_goal_no_path _ _ _ _ _ _ robot_free shelf_far Hrun).
    + exact (findPath_connected_not_null _ _ _ _ fuel shelf_connected Hrun).
Qed.

Lemma aStarPlanner_exit_far_shelf :
  aStarPlanner_exit localeCompare fuel state goalItems shelves collectionPoint
    obstacles gridSize
  = OutOfFuel.
Proof.
  unfold aStarPlanner_exit, aStarPlanner_init, heuristic.
  rewrite hand_empty. cbn [mbind outcome_bind mret outcome_ret].
  rewrite enqueue_single.
  cbn [plan_loop]. unfold plan_iteration.
  cbn [openSet PriorityQueue.isEmpty PriorityQueue.dequeue fst].
  rewrite (needed_not_goal _ _ _ item_needed), getSuccessors_far_shelf.
  reflexivity.
Qed.

End FarShelf.

(** X17. A shelf the robot has to walk two steps or more to makes the
    planner run forever.  When the hand is empty, the robot stands on a free
    cell, and some shelf that stocks a goal item still to be picked can be
    walked to and lies at a Manhattan distance of 2 or more, the first
    expansion asks [findPath] for the way to that shelf, [findPath] never
    answers, and [aStarPlanner] returns neither a plan nor [null]. *)
Theorem aStarPlanner_far_shelf_never_returns (localeCompare : string -> string -> Z)
    (fuel : nat) (initialState : WorldState) (goalItems : list string)
    (shelves : list Shelf) (collectionPoint : Point) (obstacles : list Point)
    (gridSize : Z) (shelf : Shelf) (item : string) :
  held initialState = None ->
  free obstacles gridSize (robotPos initialState) ->
  In shelf shelves ->
  In item (items shelf) ->
  needed initialState goalItems item ->
  connected obstacles gridSize (robotPos initialState) (pos shelf) ->
  2 <= manhattanDistance (robotPos initialState) (pos shelf) ->
  aStarPlanner localeCompare fuel initialState goalItems shelves collectionPoint
    obstacles gridSize
  = OutOfFuel.
Proof.
  intros Hheld Hfree Hshelf Hitem Hneeded Hconn Hfar. unfold aStarPlanner.
  rewrite (aStarPlanner_exit_far_shelf localeCompare fuel initialState goalItems
             shelves collectionPoint obstacles gridSize shelf item); auto.
Qed.

(** ** The application: the initial world state *)

Lemma get_loc_stock (sid : string) (l : list string) :
  forall (locs : list (string * string)) (item : string),
    item <> "__proto__" ->
    get_loc (foldl (fun locs item => set_loc locs item sid) locs l) item
    = if includes l item then Some sid else get_loc locs item.
Proof.
  induction l as [|a l IH]; intros locs item Hne; [reflexivity|].
  cbn [foldl]. rewrite IH by exact Hne. unfold includes. cbn [existsb].
  destruct (existsb (String.eqb item) l); [rewrite orb_true_r; reflexivity|].
  rewrite orb_false_r. destruct (String.eqb_spec item a) as [->|Hne'].
  - apply get_loc_set_loc_eq. left. exact Hne.
  - apply get_loc_set_loc_ne. congruence.
Qed.

(** Stocking the shelves neither makes nor removes the entry [__proto__]. *)
Lemma stock_proto_entry (sid : string) (l : list string) :
  forall locs : list (string * string),
    is_Some (get_loc (foldl (fun locs item => set_loc locs item sid) locs l) "__proto__")
    <-> is_Some (get_loc locs "__proto__").
Proof.
  induction l as [|a l IH]; intros locs; [reflexivity|].
  cbn [foldl]. rewrite IH. apply set_loc_proto_entry.
Qed.

Lemma layout_proto_entry (layout : list Shelf) :
  forall locs : list (string * string),
    is_Some (get_loc (foldl (fun locs shelf =>
                               foldl (fun locs item => set_loc locs item (id shelf))
                                     locs (items shelf)) locs layout) "__proto__")
    <-> is_Some (get_loc locs "__proto__").
Proof.
  induction layout as [|s layout IH]; intros locs; [reflexivity|].
  cbn [foldl]. rewrite IH. apply stock_proto_entry.
Qed.

Lemma get_loc_layout (layout : list Shelf) :
  forall (locs : list (string * string)) (item sid : string),
    item <> "__proto__" ->
    get_loc (foldl (fun locs shelf =>
                      foldl (fun locs item => set_loc locs item (id shelf)) locs
                            (items shelf)) locs layout) item = Some sid ->
    get_loc locs item = Some sid
    \/ exists shelf, In shelf layout /\ id shelf = sid /\ In item (items shelf).
Proof.
  induction layout as [|s layout IH]; intros locs item sid Hne; cbn [foldl]; [auto|].
  intros H. apply (IH _ _ _ Hne) in H as [H|(shelf & Hin & Hid & Hitem)].
  - rewrite get_loc_stock in H by exact Hne.
    destruct (includes (items s) item) eqn:Hinc.
    + apply includes_spec in Hinc. injection H as <-.
      right. exists s. split; [left; reflexivity|]. auto.
    + left. exact H.
  - right. exists shelf. split; [right; exact Hin|]. auto.
Qed.

Lemma get_loc_layout_stocked (layout : list Shelf) :
  forall (locs : list (string * string)) (item : string),
    item <> "__proto__" ->
    is_Some (get_loc locs item)
    \/ (exists shelf, In shelf layout /\ In item (items shelf)) ->
    is_Some (get_loc (foldl (fun locs shelf =>
                               foldl (fun locs item => set_loc locs item (id shelf))
                                     locs (items shelf)) locs layout) item).
Proof.
  induction layout as [|s layout IH]; intros locs item Hne; cbn [foldl].
  - intros [H|(shelf & [] & _)]. exact H.
  - intros H. apply IH; [exact Hne|]. rewrite get_loc_stock by exact Hne.
    destruct (includes (items s) item) eqn:Hinc; [left; eauto|].
    destruct H as [H|(shelf & [<-|Hin] & Hitem)]; [left; exact H| |].
    + apply includes_spec in Hitem. congruence.
    + right. exists shelf. auto.
Qed.

(** X19. In the initial world state of the application, for any layout, the
    hand is empty, the items with a location are exactly the items the
    shelves stock, but for an item named [__proto__], which gets none, and
    the location of each is a shelf that stocks it. *)
Theorem initialWorldState_locations (shelfLayout : list Shelf) (robotStart : Point)
    (item : string) :
  let state := App.initialWorldState shelfLayout robotStart in
  holding state = None
  /\ (is_Some (get_loc (itemLocations state) item)
      <-> item <> "__proto__"
          /\ exists shelf, In shelf shelfLayout /\ In item (items shelf))
  /\ forall sid, get_loc (itemLocations state) item = Some sid ->
       exists shelf, In shelf shelfLayout /\ id shelf = sid /\ In item (items shelf).
Proof.
  cbn zeta. unfold App.initialWorldState. cbn [holding itemLocations].
  split; [reflexivity|].
  destruct (decide (item = "__proto__")) as [->|Hne].
  - assert (Hnone : ~ is_Some (get_loc
              (foldl (fun locs shelf =>
                        foldl (fun locs item => set_loc locs item (id shelf))
                              locs (items shelf)) [] shelfLayout) "__proto__")).
    { rewrite layout_proto_entry. intros [w Hw]. discriminate. }
    split.
    + split; [intros H; contradiction|intros [H _]; contradiction].
    + intros sid H. exfalso. apply Hnone. rewrite H. eauto.
  - assert (Hloc : forall sid,
              get_loc (foldl (fun locs shelf =>
                                foldl (fun locs item => set_loc locs item (id shelf))
                                      locs (items shelf)) [] shelfLayout) item
              = Some sid ->
              exists shelf,
                In shelf shelfLayout /\ id shelf = sid /\ In item (items shelf)).
    { intros sid H. apply (get_loc_layout _ _ _ _ Hne) in H as [H|H];
        [discriminate|exact H]. }
    split; [|exact Hloc]. split.
    + intros [sid H]. destruct (Hloc sid H) as (shelf & Hin & _ & Hitem). eauto.
    + intros [_ H]. apply get_loc_layout_stocked; [exact Hne|]. right. exact H.
Qed.

(** ** The application: the replay of a plan *)

Lemma simulation_prefix (plan : list Action) (initialWorldState : WorldState) (n : nat) :
  foldl (fun state i =>
           match plan !! i with
           | Some action => App.simulationStepState state action
           | None => state
           end) initialWorldState (seq 0 n)
  = applyActions initialWorldState (take n plan).
Proof.
  induction n as [|n IH].
  - reflexivity.
  - rewrite seq_S, foldl_app, IH. cbn [foldl Nat.add].
    destruct (plan !! n) as [action|] eqn:Hn.
    + rewrite (take_S_r _ _ _ Hn). unfold applyActions. rewrite foldl_app.
      cbn [foldl]. destruct action; reflexivity.
    + apply lookup_ge_None in Hn. rewrite !take_ge by lia. reflexivity.
Qed.

(** X20. The replay shows the planner's own states: at step [simulationStep]
    the simulation effect computes the state [applyAction] leads to through
    the first [simulationStep + 1] actions of the plan; before step 0 that
    is the initial state, and from the last step on the state the whole
    plan leads to. *)
Theorem currentSimState_replays_plan (plan : list Action)
    (initialWorldState : WorldState) (simulationStep : Z) :
  App.currentSimState (Some plan) initialWorldState simulationStep
  = foldl applyAction initialWorldState (take (Z.to_nat (simulationStep + 1)) plan)
  /\ (simulationStep < 0 ->
      App.currentSimState (Some plan) initialWorldState simulationStep
      = initialWorldState)
  /\ (Z.of_nat (length plan) - 1 <= simulationStep ->
      App.currentSimState (Some plan) initialWorldState simulationStep
      = foldl applyAction initialWorldState plan).
Proof.
  unfold App.currentSimState. rewrite simulation_prefix. unfold applyActions.
  split; [reflexivity|]. split.
  - intros Hneg. replace (Z.to_nat (simulationStep + 1)) with 0%nat by lia. reflexivity.
  - intros Hlast. rewrite take_ge by lia. reflexivity.
Qed.

Lemma currentSimState_replays_plan_witness :
  App.currentSimState (Some [PICK "a" "S" 1; DROP "a" 1]) emptyHanded 0
  = foldl applyAction emptyHanded (take 1 [PICK "a" "S" 1; DROP "a" 1]).
Proof.
  apply (currentSimState_replays_plan [PICK "a" "S" 1; DROP "a" 1] emptyHanded 0).
Defined.

(** X21. The replay of a plan the planner returned ends on a goal state: at
    the last step, and at any later one, every goal item is at the
    collection point in the state the simulation shows. *)
Theorem currentSimState_ends_at_goal (localeCompare : string -> string -> Z)
    (fuel : nat) (initialWorldState : WorldState) (itemsToPick : list string)
    (shelfLayout : list Shelf) (collectionPoint : Point) (obstacles : list Point)
    (GRID_SIZE : Z) (result : PlannerResult) (simulationStep : Z) :
  aStarPlanner localeCompare fuel initialWorldState itemsToPick shelfLayout
    collectionPoint obstacles GRID_SIZE = Returned (Some result) ->
  Z.of_nat (length (path result)) - 1 <= simulationStep ->
  forall item, In item itemsToPick ->
    get_loc (itemLocations
               (App.currentSimState (Some (path result)) initialWorldState
                  simulationStep)) item
    = Some "collectionPoint".
Proof.
  intros Hrun Hlast.
  destruct (returned_plan_applicable _ _ _ _ _ _ _ _ _ Hrun) as (_ & Hgoal & _).
  unfold App.currentSimState. rewrite simulation_prefix, take_ge by lia.
  apply isGoal_spec, Hgoal.
Qed.

Lemma currentSimState_ends_at_goal_witness :
  get_loc (itemLocations
             (App.currentSimState (Some [PICK "a" "S" 1; DROP "a" 1])
                emptyHanded 1)) "a"
  = Some "collectionPoint".
Proof.
  apply (currentSimState_ends_at_goal codePointCompare 1 emptyHanded ["a"]
           (oneShelf ["a"]) (pt 0 0) [] 1
           {| path := [PICK "a" "S" 1; DROP "a" 1]; iterations := 3 |} 1).
  - vm_compute. reflexivity.
  - cbn. lia.
  - left. reflexivity.
Defined.

(** ** The application: the selection of items *)

(** X22. [handleItemToggle] flips the membership of the toggled item and of
    no other: the item is selected afterwards exactly when it was not
    before, any other item is selected exactly when it was, and a selection
    without repetitions stays one. *)
Theorem handleItemToggle_flips (prev : list string) (item other : string) :
  (In item (App.handleItemToggle prev item) <-> ~ In item prev)
  /\ (other <> item ->
      (In other (App.handleItemToggle prev item) <-> In other prev))
  /\ (NoDup prev -> NoDup (App.handleItemToggle prev item)).
Proof.
  unfold App.handleItemToggle.
  destruct (includes prev item) eqn:Hinc.
  - apply includes_spec in Hinc. split; [|split].
    + rewrite filter_In, negb_true_iff, String.eqb_neq. split; [intros [_ H]|]; tauto.
    + intros Hne. rewrite filter_In, negb_true_iff, String.eqb_neq. tauto.
    + intros Hnd. apply NoDup_ListNoDup, List.NoDup_filter, NoDup_ListNoDup, Hnd.
  - assert (Hout : ~ In item prev).
    { intros Hin. apply includes_spec in Hin. congruence. }
    split; [|split].
    + rewrite in_app_iff. cbn. tauto.
    + intros Hne. rewrite in_app_iff. cbn. split; [intros [H|[H|[]]]|]; auto.
      congruence.
    + intros Hnd. apply NoDup_app. split; [exact Hnd|]. split.
      * intros x Hx Hx'. apply list_elem_of_In in Hx. apply list_elem_of_singleton in Hx'.
        congruence.
      * apply NoDup_singleton.
Qed.

(** ** The application: the metrics of a plan *)

Lemma applicable_plan_metrics (goalItems : list string) (shelves : list Shelf)
    (collectionPoint : Point) (obstacles : list Point) (gridSize : Z)
    (plan : list Action) :
  forall (state : WorldState) (sum : Z),
    applicable_plan goalItems shelves collectionPoint obstacles gridSize state plan ->
    foldl (fun sum a => sum + cost a) sum (List.filter App.isMove plan)
    = sum + steps_walked plan
    /\ Z.of_nat (length plan)
       <= steps_walked plan + Z.of_nat (length (List.filter App.isPickOrDrop plan)).
Proof.
  induction plan as [|a plan IH]; intros state sum Hplan.
  - cbn. lia.
  - destruct Hplan as [Ha Hplan].
    destruct a as [from to p c|item shelfId c|item c]; cbn [List.filter App.isMove
      App.isPickOrDrop foldl steps_walked foldr cost length].
    + destruct Ha as (_ & _ & -> & Hc & _). unfold path_cost in *.
      destruct (IH _ (sum + (Z.of_nat (length p) - 1)) Hplan) as [-> Hlen].
      fold (steps_walked plan). split; lia.
    + destruct (IH _ sum Hplan) as [-> Hlen]. fold (steps_walked plan). split; lia.
    + destruct (IH _ sum Hplan) as [-> Hlen]. fold (steps_walked plan). split; lia.
Qed.

(** X23. The metrics shown for a plan the planner returned are those of the
    plan: the total distance is the number of unit steps its moves walk, the
    number of actions is at most that distance plus the number of picks and
    drops, and it is less than the number of iterations shown, which is at
    most 5000. *)
Theorem planMetrics_of_returned_plan (localeCompare : string -> string -> Z)
    (fuel : nat) (initialWorldState : WorldState) (itemsToPick : list string)
    (shelfLayout : list Shelf) (collectionPoint : Point) (obstacles : list Point)
    (GRID_SIZE : Z) (result : PlannerResult) :
  aStarPlanner localeCompare fuel initialWorldState itemsToPick shelfLayout
    collectionPoint obstacles GRID_SIZE = Returned (Some result) ->
  exists metrics,
    App.planMetrics (Some result) = Some metrics
    /\ App.totalDistance metrics = steps_walked (path result)
    /\ App.totalActions metrics
       <= App.totalDistance metrics + App.pickDropActions metrics
    /\ App.totalActions metrics < App.shownIterations metrics <= 5000.
Proof.
  intros Hrun.
  destruct (returned_plan_applicable _ _ _ _ _ _ _ _ _ Hrun) as (Hplan & _ & Hlen & Hle).
  eexists. split; [reflexivity|].
  cbn [App.totalDistance App.totalActions App.pickDropActions App.shownIterations].
  destruct (applicable_plan_metrics _ _ _ _ _ _ _ 0 Hplan) as [-> Hactions].
  unfold maxIterations in Hle. repeat split; lia.
Qed.

Lemma planMetrics_of_returned_plan_witness :
  exists metrics,
    App.planMetrics (Some {| path := [PICK "a" "S" 1; DROP "a" 1]; iterations := 3 |})
    = Some metrics
    /\ App.totalDistance metrics = steps_walked [PICK "a" "S" 1; DROP "a" 1]
    /\ App.totalActions metrics
       <= App.totalDistance metrics + App.pickDropActions metrics
    /\ App.totalActions metrics < App.shownIterations metrics <= 5000.
Proof.
  apply (planMetrics_of_returned_plan codePointCompare 1 emptyHanded ["a"]
           (oneShelf ["a"]) (pt 0 0) [] 1
           {| path := [PICK "a" "S" 1; DROP "a" 1]; iterations := 3 |}).
  vm_compute. reflexivity.
Defined.

(** ** The application: generating a plan *)

Lemma robotStart_free :
  free App.obstacles App.GRID_SIZE App.robotStart.
Proof.
  split; [unfold in_bounds, App.GRID_SIZE, App.robotStart; cbn; lia|].
  apply (bool_decide_unpack _). vm_compute. exact I.
Qed.

Ltac walk w :=
  exists w; unfold steps, free, in_bounds, unit_step, App.GRID_SIZE, App.robotStart; cbn;
  repeat split; try lia; apply (bool_decide_unpack _); vm_compute; exact I.

(** Every shelf of the layout can be walked to from the robot's start, and
    none is next to it. *)
Lemma shelfLayout_far (shelf : Shelf) :
  In shelf App.shelfLayout ->
  connected App.obstacles App.GRID_SIZE App.robotStart (pos shelf)
  /\ 2 <= manhattanDistance App.robotStart (pos shelf).
Proof.
  intros [<-|[<-|[<-|[<-|[]]]]]; (split; [|vm_compute; discriminate]).
  - walk [pt 0 1; pt 0 2; pt 0 3; pt 0 4; pt 1 4].
  - walk [pt 1 0; pt 2 0; pt 3 0; pt 4 0; pt 4 1].
  - walk [pt 1 0; pt 2 0; pt 3 0; pt 4 0; pt 5 0; pt 6 0; pt 6 1; pt 6 2; pt 6 3;
          pt 6 4; pt 6 5].
  - walk [pt 0 1; pt 0 2; pt 0 3; pt 0 4; pt 0 5; pt 0 6; pt 0 7; pt 1 7; pt 2 7].
Qed.

Lemma allItems_stocked (item : string) :
  In item (App.allItems App.shelfLayout) ->
  exists shelf,
    In shelf App.shelfLayout /\ In item (items shelf)
    /\ loc_is (itemLocations (App.initialWorldState App.shelfLayout App.robotStart))
         item "collectionPoint" = false
    /\ loc_is (itemLocations (App.initialWorldState App.shelfLayout App.robotStart))
         item "robot" = false.
Proof.
  intros [<-|[<-|[<-|[<-|[]]]]].
  - exists {| id := "S1"; items := ["ItemA"]; pos := {| x := 1; y := 4 |} |}.
    cbn. auto 10.
  - exists {| id := "S2"; items := ["ItemB"]; pos := {| x := 4; y := 1 |} |}.
    cbn. auto 10.
  - exists {| id := "S3"; items := ["ItemC"]; pos := {| x := 6; y := 5 |} |}.
    cbn. auto 10.
  - exists {| id := "S4"; items := ["ItemD"]; pos := {| x := 2; y := 7 |} |}.
    cbn. auto 10.
Qed.

(** X24. On the layout of the application, generating a plan never
    completes: whenever the selection holds one of the items the shelves
    stock, the planner call made by [handleGeneratePlan] does not return,
    whatever else is selected and whatever the collation.  Every shelf is
    two steps or more from the robot's start, which is a free cell, so the
    first expansion already asks [findPath] for a way it never returns. *)
Theorem handleGeneratePlan_never_completes (localeCompare : string -> string -> Z)
    (fuel : nat) (itemsToPick : list string) (ui : App.Ui) (item : string) :
  In item itemsToPick ->
  In item (App.allItems App.shelfLayout) ->
  App.handleGeneratePlan localeCompare fuel
    (App.initialWorldState App.shelfLayout App.robotStart) itemsToPick
    App.shelfLayout App.collectionPoint App.obstacles App.GRID_SIZE ui
  = OutOfFuel.
Proof.
  intros Hselected Hstocked. unfold App.handleGeneratePlan.
  destruct itemsToPick as [|first others] eqn:Hsel; [destruct Hselected|].
  cbn [length Nat.eqb]. rewrite <- Hsel in *. clear Hsel.
  destruct (allItems_stocked item Hstocked) as (shelf & Hshelf & Hitem & Hcp & Hrobot).
  destruct (shelfLayout_far shelf Hshelf) as [Hconn Hfar].
  unfold aStarPlanner.
  rewrite (aStarPlanner_exit_far_shelf localeCompare fuel
             (App.initialWorldState App.shelfLayout App.robotStart) itemsToPick
             App.shelfLayout App.collectionPoint App.obstacles App.GRID_SIZE
             shelf item); try assumption; try reflexivity.
  - exact robotStart_free.
  - split; [exact Hselected|]. split; assumption.
Qed.

Lemma handleGeneratePlan_never_completes_witness :
  App.handleGeneratePlan codePointCompare 1000
    (App.initialWorldState App.shelfLayout App.robotStart) App.itemsToPick
    App.shelfLayout App.collectionPoint App.obstacles App.GRID_SIZE
    {| App.planResult := None; App.error := None; App.simulationStep := -1;
       App.isPlanning := false |}
  = OutOfFuel.
Proof.
  apply (handleGeneratePlan_never_completes codePointCompare 1000 App.itemsToPick
           _ "ItemA").
  - left. reflexivity.
  - left. reflexivity.
Defined.

Lemma aStarPlanner_far_shelf_never_returns_witness :
  aStarPlanner codePointCompare 1000
    (App.initialWorldState App.shelfLayout App.robotStart) ["ItemC"]
    App.shelfLayout App.collectionPoint App.obstacles App.GRID_SIZE
  = OutOfFuel.
Proof.
  apply (aStarPlanner_far_shelf_never_returns codePointCompare 1000
           (App.initialWorldState App.shelfLayout App.robotStart) ["ItemC"]
           App.shelfLayout App.collectionPoint App.obstacles App.GRID_SIZE
           {| id := "S3"; items := ["ItemC"]; pos := {| x := 6; y := 5 |} |} "ItemC").
  - reflexivity.
  - split; [unfold in_bounds, App.GRID_SIZE, App.robotStart; cbn; lia|].
    apply (bool_decide_unpack _). vm_compute. exact I.
  - right. right. left. reflexivity.
  - left. reflexivity.
  - split; [left; reflexivity|]. split; reflexivity.
  - exists [pt 1 0; pt 2 0; pt 3 0; pt 4 0; pt 5 0; pt 6 0; pt 6 1; pt 6 2; pt 6 3;
            pt 6 4; pt 6 5].
    unfold steps, free, in_bounds, unit_step, App.GRID_SIZE, App.robotStart; cbn.
    repeat split; try lia; apply (bool_decide_unpack _); vm_compute; exact I.
  - vm_compute. discriminate.
Defined.

Lemma findPath_far_goal_never_returns_witness :
  GridPathfinder.findPath 1000 App.robotStart (pt 1 4) App.obstacles App.GRID_SIZE
  = OutOfFuel.
Proof.
  apply (findPath_far_goal_never_returns 1000 App.robotStart (pt 1 4) App.obstacles
           App.GRID_SIZE).
  - split; [unfold in_bounds, App.GRID_SIZE, App.robotStart; cbn; lia|].
    apply (bool_decide_unpack _). vm_compute. exact I.
  - exists [pt 0 1; pt 0 2; pt 0 3; pt 0 4; pt 1 4].
    unfold steps, free, in_bounds, unit_step, App.GRID_SIZE, App.robotStart; cbn.
    repeat split; try lia; apply (bool_decide_unpack _); vm_compute; exact I.
  - vm_compute. discriminate.
Defined.

(** ** The planner on one shelf: the plan and the budget *)

Section ChainFound.
Variable localeCompare : string -> string -> Z.
Variables (fuel : nat) (obstacles : list Point) (gridSize : Z).
Variable names : list string.
Hypothesis names_NoDup : NoDup names.
Hypothesis names_short :
  forall name, In name names -> name <> "" /\ (String.length name < 14)%nat.
Hypothesis names_plain :
  forall name, In name names -> name <> "__proto__" /\ arrayIndex name = None.

Lemma isGoal_all_delivered : isGoal (deliveredState names) names = true.
Proof.
  apply isGoal_spec. intros item Hin. cbn. apply get_loc_delivered_in, Hin.
Qed.

(** From a frontier holding the one state with [done] delivered, the loop
    fetches the remaining items one by one, two turns for each, when the
    budget allows for them all. *)
Lemma plan_loop_chain_found (rest : list string) :
  forall (done : list string) (p : list Action) (priority : number)
         (g : gmap string Z) (f : gmap string number) (turns : Z) (n : nat),
    names = done ++ rest ->
    0 <= turns ->
    turns + 2 * Z.of_nat (length rest) < maxIterations ->
    (2 * length rest < n)%nat ->
    keys_within localeCompare g (deliveredState done) ->
    plan_loop localeCompare n (S fuel) names (oneShelf names) (pt 0 0) obstacles
      gridSize turns
      {| openSet := [(deliveredState done, p, priority)]; gScore := g; fScore := f |}
    = Returned (Found {| path := p ++ fetch_all rest;
                         iterations := turns + 2 * Z.of_nat (length rest) + 1 |}).
Proof.
  induction rest as [|name rest IH];
    intros done p priority g f turns n Hnames Hit Hbudget Hn Hkeys.
  - rewrite app_nil_r in Hnames. subst done.
    destruct n as [|n]; [cbn in Hn; lia|]. cbn [plan_loop]. unfold plan_iteration.
    cbn [openSet PriorityQueue.isEmpty PriorityQueue.dequeue fst].
    cbn [length] in Hbudget.
    destruct (Z.gtb_spec (turns + 1) maxIterations) as [Hgt|_]; [lia|].
    rewrite isGoal_all_delivered. cbn [fetch_all flat_map length]. rewrite app_nil_r.
    replace (turns + 2 * Z.of_nat 0 + 1) with (turns + 1) by lia. reflexivity.
  - assert (Hnd : NoDup (done ++ name :: rest)) by (rewrite <- Hnames; exact names_NoDup).
    apply NoDup_app in Hnd as (_ & Hdisj & _).
    assert (Hout : ~ In name done).
    { intros Hd. apply (Hdisj name); [apply list_elem_of_In; exact Hd|left]. }
    assert (Hname : In name names) by (rewrite Hnames; apply in_elt).
    destruct (names_short name Hname) as [_ Hshort].
    cbn [length] in Hbudget, Hn.
    (* the turn that picks [name] *)
    destruct n as [|n]; [lia|]. cbn [plan_loop].
    destruct (heuristic_returns fuel obstacles gridSize names (carryingState done name)
                eq_refl) as [h1 Hh1].
    destruct (plan_iteration_single localeCompare (S fuel) names (oneShelf names)
                (pt 0 0) obstacles gridSize turns (deliveredState done) p priority
                g f (PICK name "S" 1) h1) as (pr1 & g1 & f1 & -> & Hkeys1).
    { lia. }
    { eapply isGoal_deliveredState; eassumption. }
    { eapply getSuccessors_deliveredState; eassumption. }
    { exact Hkeys. }
    { rewrite (applyAction_pick names names_plain) by assumption. apply key_longer_pick. }
    { rewrite (applyAction_pick names names_plain) by assumption. exact Hh1. }
    cbn [mbind outcome_bind]. rewrite (applyAction_pick names names_plain) in * by assumption.
    (* the turn that drops it *)
    destruct n as [|n]; [lia|]. cbn [plan_loop].
    destruct (heuristic_returns fuel obstacles gridSize names
                (deliveredState (done ++ [name])) eq_refl) as [h2 Hh2].
    destruct (plan_iteration_single localeCompare (S fuel) names (oneShelf names)
                (pt 0 0) obstacles gridSize (turns + 1) (carryingState done name)
                (p ++ [PICK name "S" 1]) pr1 g1 f1 (DROP name 1) h2)
      as (pr2 & g2 & f2 & -> & Hkeys2).
    { lia. }
    { apply isGoal_carryingState; assumption. }
    { apply getSuccessors_carryingState; assumption. }
    { exact Hkeys1. }
    { rewrite applyAction_drop by assumption. apply key_longer_drop, Hshort. }
    { rewrite applyAction_drop by assumption. exact Hh2. }
    cbn [mbind outcome_bind]. rewrite applyAction_drop in * by assumption.
    rewrite (IH (done ++ [name]) _ pr2 g2 f2 (turns + 1 + 1) n).
    + cbn [fetch_all flat_map app length]. rewrite <- !app_assoc. cbn [app].
      replace (turns + 1 + 1 + 2 * Z.of_nat (length rest) + 1)
        with (turns + 2 * Z.of_nat (S (length rest)) + 1) by lia.
      reflexivity.
    + rewrite <- app_assoc. exact Hnames.
    + lia.
    + lia.
    + lia.
    + exact Hkeys2.
Qed.

End ChainFound.

(** X18. With the robot, one shelf and the collection point on the same
    cell, the planner fetches the goal items in shelf order, a Pick and a
    Drop for each, in two iterations per item and one more to see the goal;
    the budget of 5000 iterations lets it do so for 2499 items at most, and
    from 2500 items on it gives up and returns [null].  (For distinct,
    non-empty item names of less than 14 characters that are ordinary keys
    of an object: not [__proto__], under which nothing is stored, and not
    an array index, which is not enumerated in order of creation.) *)
Theorem aStarPlanner_one_shelf (localeCompare : string -> string -> Z) (fuel : nat)
    (obstacles : list Point) (gridSize : Z) (names : list string) :
  NoDup names ->
  (forall name, In name names -> name <> "" /\ (String.length name < 14)%nat) ->
  (forall name, In name names -> name <> "__proto__" /\ arrayIndex name = None) ->
  aStarPlanner localeCompare (S fuel) (deliveredState []) names (oneShelf names)
    (pt 0 0) obstacles gridSize
  = Returned (if (length names <? 2500)%nat
              then Some {| path := fetch_all names;
                           iterations := 2 * Z.of_nat (length names) + 1 |}
              else None).
Proof.
  intros Hnd Hshort Hplain. unfold aStarPlanner.
  destruct (Nat.ltb_spec (length names) 2500) as [Hfew|Hmany].
  - unfold aStarPlanner_exit, aStarPlanner_init.
    destruct (heuristic_returns fuel obstacles gridSize names (deliveredState [])
                eq_refl) as [h ->].
    cbn [mbind outcome_bind]. rewrite enqueue_single.
    rewrite (plan_loop_chain_found localeCompare fuel obstacles gridSize names Hnd
               Hshort Hplain names [] [] h _ _ 0); [reflexivity|reflexivity|lia| | |].
    + unfold maxIterations. lia.
    + unfold maxIterations. lia.
    + intros k [v Hv].
      destruct (decide (stateToString localeCompare (deliveredState []) = k))
        as [<-|Hne]; [lia|].
      rewrite lookup_insert_ne, lookup_empty in Hv by assumption. discriminate.
  - rewrite (aStarPlanner_chain_times_out localeCompare fuel obstacles gridSize names
               Hnd Hshort Hplain Hmany). reflexivity.
Qed.

Lemma aStarPlanner_one_shelf_witness :
  aStarPlanner codePointCompare 1 (deliveredState []) ["ItemA"; "ItemB"]
    (oneShelf ["ItemA"; "ItemB"]) (pt 0 0) [] 8
  = Returned (Some {| path := [PICK "ItemA" "S" 1; DROP "ItemA" 1;
                               PICK "ItemB" "S" 1; DROP "ItemB" 1];
                      iterations := 5 |}).
Proof.
  apply (aStarPlanner_one_shelf codePointCompare 0 [] 8 ["ItemA"; "ItemB"]).
  - apply (bool_decide_unpack _). vm_compute. exact I.
  - intros name [<-|[<-|[]]]; (split; [discriminate|cbn; lia]).
  - intros name [<-|[<-|[]]]; (split; [discriminate|reflexivity]).
Defined.

(** ** The states a returned plan goes through *)

Lemma applicable_holding (goalItems : list string) (shelves : list Shelf)
    (collectionPoint : Point) (obstacles : list Point) (gridSize : Z)
    (state : WorldState) (action : Action) :
  applicable goalItems shelves collectionPoint obstacles gridSize state action ->
  holding state <> Some "" ->
  holding (applyAction state action) <> Some "".
Proof.
  destruct action as [from to p c|item shelfId c|item c]; cbn.
  - auto.
  - intros (_ & _ & Hne & _) _. congruence.
  - discriminate.
Qed.

Lemma applyAction_proto_entry (state : WorldState) (action : Action) :
  is_Some (get_loc (itemLocations (applyAction state action)) "__proto__")
  <-> is_Some (get_loc (itemLocations state) "__proto__").
Proof.
  destruct action as [from to p c|item shelfId c|item c]; cbn;
    [reflexivity|apply set_loc_proto_entry..].
Qed.

Lemma applyActions_proto_entry (plan : list Action) :
  forall state,
    is_Some (get_loc (itemLocations (applyActions state plan)) "__proto__")
    <-> is_Some (get_loc (itemLocations state) "__proto__").
Proof.
  induction plan as [|a plan IH]; intros state; [reflexivity|].
  cbn [applyActions foldl]. fold (applyActions (applyAction state a) plan).
  rewrite IH. apply applyAction_proto_entry.
Qed.

Lemma applyAction_storable (state : WorldState) (action : Action) (item : string) :
  storable (itemLocations state) item ->
  storable (itemLocations (applyAction state action)) item.
Proof.
  intros [Hne|Hsome]; [left; exact Hne|].
  destruct (decide (item = "__proto__")) as [->|Hne]; [|left; exact Hne].
  right. apply applyAction_proto_entry, Hsome.
Qed.

(** A plan that is returned delivers every goal item, so each of them is
    one the locations store under: an item named [__proto__] among them has
    its entry from the start. *)
Lemma returned_plan_storable (localeCompare : string -> string -> Z)
    (fuel : nat) (initialState : WorldState) (goalItems : list string)
    (shelves : list Shelf) (collectionPoint : Point) (obstacles : list Point)
    (gridSize : Z) (result : PlannerResult) :
  aStarPlanner localeCompare fuel initialState goalItems shelves collectionPoint
    obstacles gridSize = Returned (Some result) ->
  forall item, In item goalItems -> storable (itemLocations initialState) item.
Proof.
  intros Hrun item Hin.
  destruct (returned_plan_applicable _ _ _ _ _ _ _ _ _ Hrun) as (_ & Hgoal & _).
  destruct (decide (item = "__proto__")) as [->|Hne]; [|left; exact Hne].
  right. apply (applyActions_proto_entry (path result)).
  rewrite (proj1 (isGoal_spec _ _) Hgoal _ Hin). eauto.
Qed.

Lemma applicable_produced (goalItems : list string) (shelves : list Shelf)
    (collectionPoint : Point) (obstacles : list Point) (gridSize : Z)
    (state : WorldState) (action : Action) :
  applicable goalItems shelves collectionPoint obstacles gridSize state action ->
  produced_for state action.
Proof.
  destruct action as [from to p c|item shelfId c|item c]; cbn.
  - auto.
  - intros (_ & Hheld & _ & (_ & _ & Hrobot) & _). auto.
  - intros (_ & Hheld & _). exact Hheld.
Qed.

Section AlongPlan.
Variables (goalItems : list string) (shelves : list Shelf) (collectionPoint : Point)
  (obstacles : list Point) (gridSize : Z).

Lemma applicable_plan_invariant (plan : list Action) :
  forall (state : WorldState) (n : nat),
    applicable_plan goalItems shelves collectionPoint obstacles gridSize state plan ->
    (forall item, In item goalItems -> storable (itemLocations state) item) ->
    state_invariant state ->
    holding state <> Some "" ->
    state_invariant (applyActions state (take n plan)).
Proof.
  induction plan as [|a plan IH]; intros state n Hplan Hstorable Hinv Hname.
  - rewrite take_nil. exact Hinv.
  - destruct n as [|n]; [exact Hinv|]. destruct Hplan as [Ha Hplan].
    cbn [take applyActions foldl]. fold (applyActions (applyAction state a) (take n plan)).
    apply IH.
    + exact Hplan.
    + intros item Hin. apply applyAction_storable, Hstorable, Hin.
    + apply applyAction_produced_invariant;
        [exact Hname|exact Hinv|eapply applicable_produced, Ha|].
      intros item shelfId c ->. destruct Ha as (_ & _ & _ & (Hgoal & _) & _).
      apply Hstorable, Hgoal.
    + eapply applicable_holding; eassumption.
Qed.

End AlongPlan.

(** X25. The plan keeps the state invariant all along: when the initial
    state satisfies it and does not hold an item named by the empty string,
    so does the state after each action of a returned plan.  No state the
    replay of the plan shows has two items in the hand, or a hand at odds
    with the locations. *)
Theorem aStarPlanner_plan_keeps_invariant (localeCompare : string -> string -> Z)
    (fuel : nat) (initialState : WorldState) (goalItems : list string)
    (shelves : list Shelf) (collectionPoint : Point) (obstacles : list Point)
    (gridSize : Z) (result : PlannerResult) (n : nat) :
  state_invariant initialState ->
  holding initialState <> Some "" ->
  aStarPlanner localeCompare fuel initialState goalItems shelves collectionPoint
    obstacles gridSize = Returned (Some result) ->
  state_invariant (foldl applyAction initialState (take n (path result))).
Proof.
  intros Hinv Hname Hrun.
  destruct (returned_plan_applicable _ _ _ _ _ _ _ _ _ Hrun) as (Hplan & _).
  eapply applicable_plan_invariant; [exact Hplan| |exact Hinv|exact Hname].
  eapply returned_plan_storable, Hrun.
Qed.

Lemma aStarPlanner_plan_keeps_invariant_witness :
  state_invariant
    (foldl applyAction emptyHanded (take 1 [PICK "a" "S" 1; DROP "a" 1])).
Proof.
  apply (aStarPlanner_plan_keeps_invariant codePointCompare 1 emptyHanded ["a"]
           (oneShelf ["a"]) (pt 0 0) [] 1
           {| path := [PICK "a" "S" 1; DROP "a" 1]; iterations := 3 |} 1).
  - apply (bool_decide_unpack _). vm_compute. exact I.
  - discriminate.
  - vm_compute. reflexivity.
Defined.

(** ** Items the planner cannot deliver *)

Lemma held_holding (state : WorldState) (item : string) :
  held state = Some item -> holding state = Some item.
Proof.
  unfold held. destruct (holding state) as [s|]; [|discriminate].
  destruct (truthy s); congruence.
Qed.

(** X26. A goal item that no shelf stocks is never delivered: unless the
    robot holds it or it is at the collection point to begin with,
    [aStarPlanner] returns no plan. *)
Theorem aStarPlanner_unstocked_item_no_plan (localeCompare : string -> string -> Z)
    (fuel : nat) (initialState : WorldState) (goalItems : list string)
    (shelves : list Shelf) (collectionPoint : Point) (obstacles : list Point)
    (gridSize : Z) (item : string) (result : PlannerResult) :
  In item goalItems ->
  (forall shelf, In shelf shelves -> ~ In item (items shelf)) ->
  holding initialState <> Some item ->
  get_loc (itemLocations initialState) item <> Some "collectionPoint" ->
  aStarPlanner localeCompare fuel initialState goalItems shelves collectionPoint
    obstacles gridSize <> Returned (Some result).
Proof.
  intros Hgoal Hnone Hhand Hloc Hrun.
  destruct (aStarPlanner_nodes localeCompare fuel goalItems shelves collectionPoint
              obstacles gridSize
              (fun state _ =>
                 holding state <> Some item
                 /\ get_loc (itemLocations state) item <> Some "collectionPoint"))
    with (initialState := initialState) (result := result)
    as ((state & (_ & Hnot) & Hdone) & _).
  - intros state p actions action (Hh & Hl) _ Hsucc Hin.
    pose proof (getSuccessors_applicable _ _ _ _ _ _ _ _ Hsucc) as Happ.
    rewrite List.Forall_forall in Happ. specialize (Happ action Hin).
    destruct action as [from to w c|picked shelfId c|dropped c]; cbn in Happ |- *.
    + auto.
    + destruct Happ as (_ & _ & _ & _ & shelf & Hshelf & _ & _ & Hstock).
      assert (picked <> item) by (intros ->; exact (Hnone shelf Hshelf Hstock)).
      split; [congruence|]. rewrite get_loc_set_loc_ne by assumption. exact Hl.
    + destruct Happ as (_ & Hheld & _). apply held_holding in Hheld.
      assert (dropped <> item) by congruence.
      split; [discriminate|]. rewrite get_loc_set_loc_ne by assumption. exact Hl.
  - auto.
  - exact Hrun.
  - apply Hnot. apply isGoal_spec with (goalItems := goalItems); assumption.
Qed.

Lemma aStarPlanner_unstocked_item_no_plan_witness :
  aStarPlanner codePointCompare 20 twoShelvesStart ["ItemZ"] twoShelves (pt 0 0) [] 2
  <> Returned (Some {| path := []; iterations := 1 |}).
Proof.
  apply (aStarPlanner_unstocked_item_no_plan codePointCompare 20 twoShelvesStart
           ["ItemZ"] twoShelves (pt 0 0) [] 2 "ItemZ").
  - left. reflexivity.
  - intros shelf [<-|[<-|[]]] [H|[]]; discriminate.
  - discriminate.
  - discriminate.
Defined.

(** ** Each item is picked once *)

Lemma taken_stable (state : WorldState) (action : Action) (item : string) :
  taken state item -> taken (applyAction state action) item.
Proof.
  unfold taken. intros Htaken.
  destruct action as [from to p c|picked shelfId c|dropped c]; cbn.
  - exact Htaken.
  - destruct (String.eqb_spec picked item) as [->|Hne].
    + left. apply get_loc_set_loc_eq. right. destruct Htaken as [-> | ->]; eauto.
    + rewrite get_loc_set_loc_ne by assumption. exact Htaken.
  - destruct (String.eqb_spec dropped item) as [->|Hne].
    + right. apply get_loc_set_loc_eq. right. destruct Htaken as [-> | ->]; eauto.
    + rewrite get_loc_set_loc_ne by assumption. exact Htaken.
Qed.

Section PicksOnce.
Variables (goalItems : list string) (shelves : list Shelf) (collectionPoint : Point)
  (obstacles : list Point) (gridSize : Z).

Lemma taken_not_picked (plan : list Action) :
  forall (state : WorldState) (item : string),
    applicable_plan goalItems shelves collectionPoint obstacles gridSize state plan ->
    taken state item -> ~ In item (picked plan).
Proof.
  induction plan as [|a plan IH]; intros state item Hplan Htaken; [intros []|].
  destruct Hplan as [Ha Hplan].
  assert (Hrest : ~ In item (picked plan)).
  { eapply IH; [exact Hplan|]. apply taken_stable, Htaken. }
  destruct a as [from to p c|picked_item shelfId c|dropped c]; cbn [picked flat_map app];
    try exact Hrest.
  fold (picked plan). intros [->|Hin]; [|contradiction].
  destruct Ha as (_ & _ & _ & (_ & Hcp & Hrobot) & _).
  destruct Htaken as [H|H]; apply loc_is_spec in H; congruence.
Qed.

Lemma applicable_plan_picks_once (plan : list Action) :
  forall state,
    applicable_plan goalItems shelves collectionPoint obstacles gridSize state plan ->
    (forall item, In item goalItems -> storable (itemLocations state) item) ->
    NoDup (picked plan).
Proof.
  induction plan as [|a plan IH]; intros state Hplan Hstorable; [constructor|].
  destruct Hplan as [Ha Hplan].
  assert (Hnext : forall item, In item goalItems ->
                    storable (itemLocations (applyAction state a)) item).
  { intros item Hin. apply applyAction_storable, Hstorable, Hin. }
  specialize (IH _ Hplan Hnext).
  destruct a as [from to p c|item shelfId c|item c]; cbn [picked flat_map app];
    try exact IH.
  fold (picked plan). constructor; [|exact IH].
  rewrite list_elem_of_In. eapply taken_not_picked; [exact Hplan|].
  left. cbn. apply get_loc_set_loc_eq.
  destruct Ha as (_ & _ & _ & (Hgoal & _) & _). apply Hstorable, Hgoal.
Qed.

End PicksOnce.

(** X27. A returned plan picks no item twice: once picked, an item is in
    the hand or at the collection point for the rest of the plan, and
    [getSuccessors] picks only items that are at neither. *)
Theorem aStarPlanner_picks_once (localeCompare : string -> string -> Z)
    (fuel : nat) (initialState : WorldState) (goalItems : list string)
    (shelves : list Shelf) (collectionPoint : Point) (obstacles : list Point)
    (gridSize : Z) (result : PlannerResult) :
  aStarPlanner localeCompare fuel initialState goalItems shelves collectionPoint
    obstacles gridSize = Returned (Some result) ->
  NoDup (picked (path result)).
Proof.
  intros Hrun.
  destruct (returned_plan_applicable _ _ _ _ _ _ _ _ _ Hrun) as [Hplan _].
  eapply applicable_plan_picks_once; [exact Hplan|].
  eapply returned_plan_storable, Hrun.
Qed.

Lemma aStarPlanner_picks_once_witness :
  NoDup (picked [PICK "a" "S" 1; DROP "a" 1]).
Proof.
  apply (aStarPlanner_picks_once codePointCompare 1 emptyHanded ["a"]
           (oneShelf ["a"]) (pt 0 0) [] 1
           {| path := [PICK "a" "S" 1; DROP "a" 1]; iterations := 3 |}).
  vm_compute. reflexivity.
Defined.

(** ** The moves of a returned plan *)

Lemma applicable_single_step (goalItems : list string) (shelves : list Shelf)
    (collectionPoint : Point) (obstacles : list Point) (gridSize : Z)
    (state : WorldState) (action : Action) :
  free obstacles gridSize (robotPos state) ->
  applicable goalItems shelves collectionPoint obstacles gridSize state action ->
  single_step action /\ free obstacles gridSize (robotPos (applyAction state action)).
Proof.
  intros Hfree Happ.
  destruct action as [from to p c|item shelfId c|item c]; cbn in Happ |- *; auto.
  destruct Happ as (-> & _ & -> & Hc & [fuel Hrun] & (rest & -> & Hsteps & Hlast) & _).
  pose proof (findPath_free_start_short _ _ _ _ _ _ Hfree Hrun) as Hshort.
  unfold path_cost in *. cbn [length] in Hshort, Hc |- *.
  destruct rest as [|b [|b' rest]]; cbn [length] in Hshort, Hc; try lia.
  cbn in Hlast. injection Hlast as ->. destruct Hsteps as (Hstep & Hto & _).
  split; [|exact Hto]. split; [exact Hstep|]. split; reflexivity.
Qed.

(** X28. A robot that starts on a free cell only ever moves one step at a
    time: every Move of a returned plan leads to a cell next to the one it
    starts on, with the two cells as its path and cost 1.  [findPath]
    returns no longer path from a free cell, so a plan is returned only when
    each cell the robot has to go to is next to the one it stands on. *)
Theorem aStarPlanner_moves_single_step (localeCompare : string -> string -> Z)
    (fuel : nat) (initialState : WorldState) (goalItems : list string)
    (shelves : list Shelf) (collectionPoint : Point) (obstacles : list Point)
    (gridSize : Z) (result : PlannerResult) (action : Action) :
  free obstacles gridSize (robotPos initialState) ->
  aStarPlanner localeCompare fuel initialState goalItems shelves collectionPoint
    obstacles gridSize = Returned (Some result) ->
  In action (path result) ->
  single_step action.
Proof.
  intros Hfree Hrun Hin.
  destruct (aStarPlanner_nodes localeCompare fuel goalItems shelves collectionPoint
              obstacles gridSize
              (fun state p =>
                 free obstacles gridSize (robotPos state) /\ Forall single_step p))
    with (initialState := initialState) (result := result)
    as ((state & (_ & Hall) & _) & _).
  - intros state p actions a [Hstate Hp] _ Hsucc Ha.
    pose proof (getSuccessors_applicable _ _ _ _ _ _ _ _ Hsucc) as Happ.
    rewrite List.Forall_forall in Happ. specialize (Happ a Ha).
    destruct (applicable_single_step _ _ _ _ _ _ _ Hstate Happ) as [Hsingle Hfree'].
    split; [exact Hfree'|]. apply Forall_app. split; [exact Hp|].
    constructor; [exact Hsingle|constructor].
  - split; [exact Hfree|constructor].
  - exact Hrun.
  - rewrite List.Forall_forall in Hall. apply Hall, Hin.
Qed.

Lemma aStarPlanner_moves_single_step_witness :
  single_step (MOVE (pt 0 0) (pt 1 0) [pt 0 0; pt 1 0] 1).
Proof.
  apply (aStarPlanner_moves_single_step codePointCompare 20 twoShelvesStart
           ["ItemA"; "ItemB"] twoShelves (pt 0 0) [] 2
           {| path := [PICK "ItemA" "S1" 1; DROP "ItemA" 1;
                       MOVE (pt 0 0) (pt 1 0) [pt 0 0; pt 1 0] 1;
                       PICK "ItemB" "S2" 1;
                       MOVE (pt 1 0) (pt 0 0) [pt 1 0; pt 0 0] 1;
                       DROP "ItemB" 1];
              iterations := 7 |}).
  - split; [unfold in_bounds; cbn; lia|]. apply not_elem_of_nil.
  - vm_compute. reflexivity.
  - right. right. left. reflexivity.
Defined.
